(** * FireFly: batch assembly and dispatch, operation log, token event loop

    A shallow embedding of the parts of the repository that carry the
    batching and dispatch logic:

    - [Fftypes]: pkg/fftypes/operation.go ([NewMessageOp],
      [NewMessageDataOp]);
    - [FFTokens]: internal/tokens/fftokens/fftokens.go (receipt and
      token-pool handlers, the websocket event loop; in
      [FFTokens.Lifecycle], [Init], [Start] and [CreateTokenPool]);
    - [DataHash]: the content hash of a data record, as data_test.go
      exercises it;
    - [Broadcast], [PrivateMessaging]: the two batch dispatchers, as
      their test files exercise them;
    - [BatchProcessor]: kat/src/lib/batch-processor.ts (assembler,
      dispatchBatch, processBatch), as a retry loop and as a transition
      system over the awaits of the async functions; [init] as a second
      transition system on top of it.

    The models come first, the properties after them.

    Go values are modelled as follows: [string] is [string], [int] is [Z],
    a pointer that may be nil is an [option], a slice is a [list], an
    [error] result is an [option] of the error text ([None] is nil).
    A runtime panic is an explicit [Panics] outcome. *)

From Stdlib Require Import ZArith Lia Bool.
From stdpp Require Import base numbers list strings.

Local Open Scope string_scope.
Local Open Scope list_scope.
Local Open Scope Z_scope.

(** ** Go runtime conventions *)

Module Go.

(** The result of evaluating a Go expression that may panic. *)
Inductive outcome (A : Type) : Type :=
| Returns (a : A)
| Panics (reason : string).
Arguments Returns {A} a.
Arguments Panics {A} reason.

(** [error]: nil is [None]. *)
Definition error := option string.

(** [s[i]] on a slice: the runtime checks [0 <= i < len(s)] and panics
    otherwise. *)
Definition index {A : Type} (s : list A) (i : Z) : outcome A :=
  if (i <? 0) || (Z.of_nat (length s) <=? i)
  then Panics "index out of range"
  else match s !! Z.to_nat i with
       | Some x => Returns x
       | None => Panics "index out of range"
       end.

End Go.

(** ** pkg/fftypes: operations *)

Module Fftypes.
Import Go.

(** [*uuid.UUID]; the text form stands for the 16 bytes. *)
Definition UUID := string.
(** [*Bytes32], by its hex text. *)
Definition Bytes32 := string.
(** [*FFTime], nanoseconds. *)
Definition FFTime := Z.

Definition OpType := string.
Definition OpTypeBlockchainBatchPin : OpType := "BlockchainBatchPin".
Definition OpTypePublicStorageBatchBroadcast : OpType := "PublicStorageBatchBroadcast".
(* The two data exchange types are named by privatemessaging_test.go. *)
Definition OpTypeDataExchangeBatchSend : OpType := "DataExchangeBatchSend".
Definition OpTypeDataExchangeBlobSend : OpType := "DataExchangeBlobSend".

Definition OpStatus := string.
Definition OpStatusPending : OpStatus := "pending".
Definition OpStatusSucceeded : OpStatus := "succeeded".
Definition OpStatusFailed : OpStatus := "failed".

(** [type Named interface { Name() string }] *)
Class Named (P : Type) := Name : P -> string.

(** The fields of [Message] that the operation constructors read. *)
Record DataRef := {
  ref_ID : option UUID;
  ref_Hash : option Bytes32;
}.

Record MessageHeader := {
  hdr_ID : option UUID;
  hdr_Namespace : string;
}.

Record Message := {
  Header : MessageHeader;
  Data : list DataRef;
}.

Record Operation := {
  op_ID : option UUID;
  op_Namespace : string;
  op_Message : option UUID;
  op_Data : option UUID;
  op_Type : OpType;
  op_Recipient : string;
  op_Status : OpStatus;
  op_Error : string;
  op_Plugin : string;
  op_BackendID : string;
  op_Created : option FFTime;
  op_Updated : option FFTime;
}.

Section Constructors.
(* NewUUID() and Now() read the random source and the clock. *)
Variable NewUUID : UUID.
Variable Now : FFTime.
Context {P : Type} `{Named P}.

Definition NewMessageOp (plugin : P) (backendID : string) (msg : Message)
    (opType : OpType) (opStatus : OpStatus) (recipient : string) : Operation :=
  {| op_ID := Some NewUUID;
     op_Plugin := Name plugin;
     op_BackendID := backendID;
     op_Namespace := hdr_Namespace (Header msg);
     op_Message := hdr_ID (Header msg);
     op_Data := None;
     op_Type := opType;
     op_Recipient := recipient;
     op_Status := opStatus;
     op_Created := Some Now;
     op_Error := "";
     op_Updated := None |}.

Definition NewMessageDataOp (plugin : P) (backendID : string) (msg : Message)
    (dataIdx : Z) (opType : OpType) (opStatus : OpStatus) (recipient : string)
    : outcome Operation :=
  match index (Data msg) dataIdx with
  | Panics r => Panics r
  | Returns d =>
      Returns
        {| op_ID := Some NewUUID;
           op_Plugin := Name plugin;
           op_BackendID := backendID;
           op_Namespace := hdr_Namespace (Header msg);
           op_Message := hdr_ID (Header msg);
           op_Data := ref_ID d;
           op_Type := opType;
           op_Recipient := recipient;
           op_Status := opStatus;
           op_Created := Some Now;
           op_Error := "";
           op_Updated := None |}
  end.

End Constructors.

(** A plugin for the examples: its name is the string itself. *)
#[export] Instance string_named : Named string := fun s => s.

(** A message with two data references. *)
Definition sampleMessage : Message :=
  {| Header := {| hdr_ID := Some "msg-1"; hdr_Namespace := "ns1" |};
     Data := [ {| ref_ID := Some "data-0"; ref_Hash := None |};
               {| ref_ID := Some "data-1"; ref_Hash := None |} ] |}.

End Fftypes.

(** ** internal/tokens/fftokens: the token plugin's event loop *)

Module FFTokens.
Import Go Fftypes.

Definition msgType := string.
Definition messageReceipt : msgType := "receipt".
Definition messageTokenPool : msgType := "token-pool".

Section Plugin.

(** [fftypes.JSONObject] and its accessors, [fftypes.ParseUUID] and
    [json.Unmarshal] are declared outside this package: the handlers are
    embedded over any implementation of them.  [ParseUUID] returns [None]
    when the Go function returns a non-nil error. *)
Variable JSONObject : Type.
Variable GetString : JSONObject -> string -> string.
Variable GetBool : JSONObject -> string -> bool.
Variable GetObject : JSONObject -> string -> JSONObject.
Variable ParseUUID : string -> option UUID.

Record wsEvent := {
  Event : msgType;
  ID : string;
  Data : JSONObject;
}.

Variable Unmarshal : string -> option wsEvent.

(** What the plugin does to the outside: log lines, the two callbacks of
    [tokens.Callbacks], and the websocket connection. *)
Inductive Effect :=
| LogError (text : string)
| LogInfo (text : string)
| LogDebug (text : string)
| TokensOpUpdateCall (operationID : UUID) (status : OpStatus) (message : string)
    (data : JSONObject)
| TokenPoolCreatedCall (tokenType : string) (txID : UUID)
    (protocolID operatorAddress txHash : string) (tx : JSONObject)
| WsSend (ackID : string)
| WsClose.

(** The results of the callbacks and of [wsconn.Send] belong to the
    environment. *)
Variable TokensOpUpdate : UUID -> OpStatus -> string -> JSONObject -> error.
Variable TokenPoolCreated :
  string -> UUID -> string -> string -> string -> JSONObject -> error.
Variable Send : string -> error.

Definition handleReceipt (data : JSONObject) : list Effect * error :=
  let requestID := GetString data "id" in
  let success := GetBool data "success" in
  let message := GetString data "message" in
  if String.eqb requestID "" then
    ([LogError "Reply cannot be processed - missing fields"], None)
  else
    match ParseUUID requestID with
    | None => ([LogError "Reply cannot be processed - bad ID"], None)
    | Some operationID =>
        let replyType := if success then OpStatusSucceeded else OpStatusFailed in
        ([LogInfo "Tokens reply";
          TokensOpUpdateCall operationID replyType message data],
         TokensOpUpdate operationID replyType message data)
    end.

Definition handleTokenPoolCreate (data : JSONObject) : list Effect * error :=
  let tokenType := GetString data "type" in
  let protocolID := GetString data "poolId" in
  let trackingID := GetString data "trackingId" in
  let operatorAddress := GetString data "operator" in
  let tx := GetObject data "transaction" in
  let txHash := GetString tx "transactionHash" in
  if String.eqb tokenType "" ||
     String.eqb protocolID "" ||
     String.eqb trackingID "" ||
     String.eqb operatorAddress "" ||
     String.eqb txHash "" then
    ([LogError "TokenPool event is not valid - missing data"], None)
  else
    match ParseUUID trackingID with
    | None =>
        ([LogError "TokenPool event is not valid - invalid transaction ID"], None)
    | Some txID =>
        ([TokenPoolCreatedCall tokenType txID protocolID operatorAddress txHash tx],
         TokenPoolCreated tokenType txID protocolID operatorAddress txHash tx)
    end.

(** The body of the [Receive] case after a successful [json.Unmarshal]:
    the switch on [msg.Event], then the ack. *)
Definition handleEvent (msg : wsEvent) : list Effect * error :=
  let '(fx, err) :=
    if String.eqb (Event msg) messageReceipt then handleReceipt (Data msg)
    else if String.eqb (Event msg) messageTokenPool then handleTokenPoolCreate (Data msg)
    else ([LogError "Message unexpected"], None) in
  let '(fx, err) :=
    match err with
    | None =>
        if negb (String.eqb (Event msg) messageReceipt) && negb (String.eqb (ID msg) "")
        then (fx ++ [LogDebug "Sending ack"; WsSend (ID msg)], Send (ID msg))
        else (fx, err)
    | Some _ => (fx, err)
    end in
  (LogDebug "Received event" :: fx, err).

(** What the [select] of one iteration yields. *)
Inductive Incoming :=
| CtxDone
| ReceiveClosed
| Received (msgBytes : string).

(** [Waiting]: the loop is blocked in [select]. [Exited]: the function
    returned (and the deferred [wsconn.Close] ran). *)
Inductive LoopStatus := Waiting | Exited.

Fixpoint eventLoop (inputs : list Incoming) : list Effect * LoopStatus :=
  match inputs with
  | [] => ([], Waiting)
  | CtxDone :: _ =>
      ([LogDebug "Event loop exiting (context cancelled)"; WsClose], Exited)
  | ReceiveClosed :: _ =>
      ([LogDebug "Event loop exiting (receive channel closed)"; WsClose], Exited)
  | Received msgBytes :: rest =>
      match Unmarshal msgBytes with
      | None =>
          let '(fx, st) := eventLoop rest in
          (LogError "Message cannot be parsed as JSON" :: fx, st)
      | Some msg =>
          match handleEvent msg with
          | (fx, Some e) => (fx ++ [LogError "Event loop exiting"; WsClose], Exited)
          | (fx, None) =>
              let '(fx', st) := eventLoop rest in
              (fx ++ fx', st)
          end
      end
  end.

(** A token-pool event lacks a required field when one of the five
    strings read by [handleTokenPoolCreate] is empty. *)
Definition missingPoolField (data : JSONObject) : Prop :=
  GetString data "type" = "" \/
  GetString data "poolId" = "" \/
  GetString data "trackingId" = "" \/
  GetString data "operator" = "" \/
  GetString (GetObject data "transaction") "transactionHash" = "".

Definition isPoolCall (e : Effect) : Prop :=
  match e with TokenPoolCreatedCall _ _ _ _ _ _ => True | _ => False end.
Definition isOpUpdateCall (e : Effect) : Prop :=
  match e with TokensOpUpdateCall _ _ _ _ => True | _ => False end.
Definition isSend (e : Effect) : Prop :=
  match e with WsSend _ => True | _ => False end.

(** *** What the loop has written and read *)

(** The acks written to the websocket, in order. *)
Definition acks (fx : list Effect) : list string :=
  omap (fun e => match e with WsSend ackID => Some ackID | _ => None end) fx.

(** The events among the inputs that [json.Unmarshal] accepts. *)
Definition decoded (inputs : list Incoming) : list wsEvent :=
  omap (fun i => match i with Received msgBytes => Unmarshal msgBytes | _ => None end)
    inputs.

(** The test before the ack, for an event handled without error. *)
Definition wantsAck (msg : wsEvent) : bool :=
  negb (String.eqb (Event msg) messageReceipt) && negb (String.eqb (ID msg) "").

Definition isReceived (i : Incoming) : Prop :=
  match i with Received _ => True | _ => False end.

End Plugin.

Arguments Event {JSONObject} _.
Arguments ID {JSONObject} _.
Arguments Data {JSONObject} _.
Arguments LogError {JSONObject} _.
Arguments LogInfo {JSONObject} _.
Arguments LogDebug {JSONObject} _.
Arguments WsSend {JSONObject} _.
Arguments WsClose {JSONObject}.
Arguments acks {JSONObject} _.
Arguments wantsAck {JSONObject} _.

(** An instance of the external declarations, to run the handlers on
    concrete events: a JSON object is an association list, a UUID is any
    text of 36 characters, and the wire carries the events of [wire]. *)
Module Sample.

Inductive JSONValue :=
| JNull
| JBool (b : bool)
| JString (s : string)
| JObject (fields : list (string * string)).

Definition Object := list (string * JSONValue).

Fixpoint field (key : string) (o : Object) : option JSONValue :=
  match o with
  | [] => None
  | (k, v) :: rest => if String.eqb k key then Some v else field key rest
  end.

Definition GetString (o : Object) (key : string) : string :=
  match field key o with Some (JString s) => s | _ => "" end.

Definition GetBool (o : Object) (key : string) : bool :=
  match field key o with Some (JBool b) => b | _ => false end.

Definition GetObject (o : Object) (key : string) : Object :=
  match field key o with
  | Some (JObject fs) => map (fun kv => (fst kv, JString (snd kv))) fs
  | _ => []
  end.

Definition ParseUUID (s : string) : option UUID :=
  if Nat.eqb (String.length s) 36 then Some s else None.

(** A token-pool event whose transaction has no [transactionHash]. *)
Definition poolWithoutTxHash : wsEvent Object :=
  {| Event := messageTokenPool;
     ID := "evt-1";
     Data := [ ("type", JString "fungible");
               ("poolId", JString "F1");
               ("trackingId", JString "a64addf8-00e2-4210-9474-477e93b7f8dc");
               ("operator", JString "0x0");
               ("transaction", JObject [ ("blockNumber", "1") ]) ] |}.

(** A receipt whose [id] is not a UUID. *)
Definition receiptWithBadID : wsEvent Object :=
  {| Event := messageReceipt;
     ID := "evt-2";
     Data := [ ("id", JString "wrong"); ("success", JBool true) ] |}.

Definition wire : list (string * wsEvent Object) :=
  [ ("pool-without-txhash", poolWithoutTxHash);
    ("receipt-with-bad-id", receiptWithBadID) ].

Fixpoint decode (table : list (string * wsEvent Object)) (msgBytes : string)
    : option (wsEvent Object) :=
  match table with
  | [] => None
  | (k, v) :: rest => if String.eqb k msgBytes then Some v else decode rest msgBytes
  end.

Definition Unmarshal : string -> option (wsEvent Object) := decode wire.

(** Callbacks and a connection that never fail. *)
Definition TokensOpUpdate (_ : UUID) (_ : OpStatus) (_ : string) (_ : Object) : error := None.
Definition TokenPoolCreated (_ : string) (_ : UUID) (_ _ _ : string) (_ : Object) : error := None.
Definition Send (_ : string) : error := None.

Definition eventLoop : list Incoming -> list (Effect Object) * LoopStatus :=
  FFTokens.eventLoop Object GetString GetBool GetObject ParseUUID Unmarshal
    TokensOpUpdate TokenPoolCreated Send.

(** What arrives on the websocket in the examples: the token-pool event,
    bytes that do not parse, and the receipt. *)
Definition sampleStream : list Incoming :=
  [ Received "pool-without-txhash"; Received "not json";
    Received "receipt-with-bad-id" ].

(** A connection whose send fails. *)
Definition failingSend (_ : string) : error := Some "websocket closed".

End Sample.

(** *** The plugin object: Init, Start, CreateTokenPool *)

Module Lifecycle.

Section Object.

(** [config.Prefix], the rest and websocket clients, the logging context
    and [tokens.Callbacks] are declared outside this package: the plugin is
    embedded over any implementation of them.  [PrefixSet] returns the
    prefix after the write; [wsclientNew] returns the connection, nil or
    not, and the error; [Post] is the request built on [h.client], nil or
    not, and sent. *)
Variable Prefix Context Callbacks Client WSClient Response JSONObject : Type.
Variable PrefixGetString : Prefix -> string -> string.
Variable PrefixSet : Prefix -> string -> string -> Prefix.
Variable HTTPConfigURL WSConfigKeyPath : string.
Variable WithLogField : Context -> string -> string -> Context.
Variable MsgMissingPluginConfig : string -> string -> string.
Variable restclientNew : Context -> Prefix -> Client.
Variable wsclientNew : Context -> Prefix -> option WSClient * error.
Variable Connect : WSClient -> error.
Variable Post : option Client -> string -> string -> string -> string -> JSONObject
                -> Response * error.
Variable IsSuccess : Response -> bool.
Variable WrapRestErr : Response -> error -> string.

(** [tokens.Capabilities{}] *)
Inductive Capabilities := NoCapabilities.

Record Plugin := {
  ctx : option Context;
  capabilities : option Capabilities;
  callbacks : option Callbacks;
  configuredName : string;
  client : option Client;
  wsconn : option WSClient;
}.

(** [&FFTokens{}] *)
Definition zero : Plugin :=
  {| ctx := None; capabilities := None; callbacks := None; configuredName := "";
     client := None; wsconn := None |}.

Definition Name (h : Plugin) : string := "fftokens".

(** The prefix that [wsclient.New] is given: the websocket path defaults
    to "/api/ws". *)
Definition withDefaultPath (prefix : Prefix) : Prefix :=
  if String.eqb (PrefixGetString prefix WSConfigKeyPath) ""
  then PrefixSet prefix WSConfigKeyPath "/api/ws"
  else prefix.

(** What [Init] leaves behind: the plugin, the prefix, whether
    [go h.eventLoop()] was reached, and the error returned. *)
Record Initialised := {
  plugin : Plugin;
  prefixAfter : Prefix;
  eventLoopStarted : bool;
  err : error;
}.

Definition Init (h : Plugin) (ctx0 : Context) (name : string) (prefix : Prefix)
    (cb : Callbacks) : Initialised :=
  let hctx := WithLogField ctx0 "proto" "fftokens" in
  if String.eqb (PrefixGetString prefix HTTPConfigURL) "" then
    {| plugin := {| ctx := Some hctx; capabilities := capabilities h;
                    callbacks := Some cb; configuredName := name;
                    client := client h; wsconn := wsconn h |};
       prefixAfter := prefix;
       eventLoopStarted := false;
       err := Some (MsgMissingPluginConfig "url" "tokens.fftokens") |}
  else
    let c := restclientNew hctx prefix in
    let prefix := withDefaultPath prefix in
    let '(conn, e) := wsclientNew ctx0 prefix in
    {| plugin := {| ctx := Some hctx; capabilities := Some NoCapabilities;
                    callbacks := Some cb; configuredName := name;
                    client := Some c; wsconn := conn |};
       prefixAfter := prefix;
       eventLoopStarted := match e with None => true | Some _ => false end;
       err := e |}.

(** [h.wsconn.Connect()]: a method call on a nil interface panics. *)
Definition Start (h : Plugin) : outcome error :=
  match wsconn h with
  | Some conn => Returns (Connect conn)
  | None => Panics "nil pointer dereference"
  end.

(** The fields of [fftypes.TokenPool] that [CreateTokenPool] reads;
    [operationID] and [pool.TX.ID] are taken to be non-nil, and
    [String()] of a UUID is its text. *)
Record TokenPool := {
  pool_Type : string;
  pool_TX_ID : UUID;
  pool_Config : JSONObject;
}.

Record createPool := {
  cp_Type : string;
  RequestID : string;
  TrackingID : string;
  Config : JSONObject;
}.

(** The request body that [CreateTokenPool] posts. *)
Definition createPoolBody (operationID : UUID) (pool : TokenPool) : createPool :=
  {| cp_Type := pool_Type pool;
     RequestID := operationID;
     TrackingID := pool_TX_ID pool;
     Config := pool_Config pool |}.

(** [CreateTokenPool]: [res.IsSuccess()] is read only when [err] is
    nil. *)
Definition CreateTokenPool (h : Plugin) (operationID : UUID) (pool : TokenPool)
    : error :=
  let body := createPoolBody operationID pool in
  let '(res, e) :=
    Post (client h) "/api/v1/pool" (cp_Type body) (RequestID body) (TrackingID body)
      (Config body) in
  match e with
  | Some _ => Some (WrapRestErr res e)
  | None => if IsSuccess res then None else Some (WrapRestErr res e)
  end.

End Object.

Arguments ctx {Context Callbacks Client WSClient} _.
Arguments capabilities {Context Callbacks Client WSClient} _.
Arguments callbacks {Context Callbacks Client WSClient} _.
Arguments configuredName {Context Callbacks Client WSClient} _.
Arguments client {Context Callbacks Client WSClient} _.
Arguments wsconn {Context Callbacks Client WSClient} _.
Arguments zero {Context Callbacks Client WSClient}.
Arguments Name {Context Callbacks Client WSClient} _.
Arguments plugin {Prefix Context Callbacks Client WSClient} _.
Arguments prefixAfter {Prefix Context Callbacks Client WSClient} _.
Arguments eventLoopStarted {Prefix Context Callbacks Client WSClient} _.
Arguments err {Prefix Context Callbacks Client WSClient} _.
Arguments pool_Type {JSONObject} _.
Arguments pool_TX_ID {JSONObject} _.
Arguments pool_Config {JSONObject} _.
Arguments createPoolBody {JSONObject} _ _.

(** A configuration prefix for the examples: the function from keys to
    values, an unset key reading as the empty string. *)
Module Sample.

Definition Prefix := string -> string.
Definition PrefixGetString (p : Prefix) (key : string) : string := p key.
Definition PrefixSet (p : Prefix) (key value : string) : Prefix :=
  fun k => if String.eqb k key then value else p k.

Definition urlOnly : Prefix :=
  fun k => if String.eqb k "url" then "http://localhost:3000" else "".

End Sample.

End Lifecycle.

End FFTokens.

(** ** pkg/fftypes: the content hash of a data record *)

Module DataHash.
Import Go Fftypes.

Section Hash.
(** SHA-256 of a byte string, as the hex text of the digest. *)
Variable sha256 : string -> Bytes32.

Record BlobRef := {
  blob_Hash : option Bytes32;
}.

(** [Value] is a [Byteable]: [None] is the nil slice, and a JSON [null]
    is unmarshalled to the four bytes of [nullString]. *)
Record Data := {
  Value : option string;
  Blob : option BlobRef;
}.

Definition nullString := "null".

Definition valueIsNull (v : option string) : bool :=
  match v with
  | None => true
  | Some s => String.eqb s nullString
  end.

Definition blobHash (d : Data) : option Bytes32 :=
  match Blob d with
  | Some b => blob_Hash b
  | None => None
  end.

(** Modelled from the spec: [Data.CalcHash] (pkg/fftypes/data.go is not
    among the sources; data_test.go is).  The content hash is the SHA-256
    of the value; a null value contributes nothing, so the blob hash alone
    is the result (TestSealBlobOnly, TestHashDataNull); value and blob
    together hash the two hex digests concatenated
    (TestSealBlobAndHashOnly); neither is the error FF10199
    (TestSealNoData). *)
Definition CalcHash (d : Data) : Bytes32 + string :=
  match valueIsNull (Value d), blobHash d with
  | true, None => inr "FF10199"
  | true, Some h => inl h
  | false, None => inl (sha256 (default "" (Value d)))
  | false, Some h => inl (sha256 (sha256 (default "" (Value d)) ++ h)%string)
  end.

End Hash.

(** The record of TestHashDataNull, after [json.Unmarshal]. *)
Definition nullValueData : Data :=
  {| Value := Some "null";
     Blob := Some {| blob_Hash :=
       Some "6014cbaf6bde9f9d755f347cb326db88859475e9d1a215d5dc4ccd8ae9caec7c" |} |}.

End DataHash.

(** ** internal/broadcast: the broadcast dispatcher *)

Module Broadcast.
Import Go Fftypes.

(** [Payload] is the JSON serialization of the batch, [None] when
    [json.Marshal] fails (a data value that is not JSON). *)
Record Batch := {
  Author : string;
  TX : option UUID;
  Payload : option string;
  PayloadRef : string;
}.

Definition setPayloadRef (b : Batch) (ref : string) : Batch :=
  {| Author := Author b; TX := TX b; Payload := Payload b; PayloadRef := ref |}.

(** Calls that leave the dispatcher. *)
Inductive Call :=
| PublishDataCall (payload : string)
| RunAsGroupCall
| UpdateBatchCall (payloadRef : string)
| UpsertOperationCall (plugin backendID : string) (opType : OpType) (tx : option UUID)
| SubmitPinnedBatchCall (batch : Batch).

(** The collaborators, as manager_test.go sets them up: the configured
    identity of the node, and what each plugin answers.  [RunAsGroup]
    receives the outcome of the transaction body and decides what the
    transaction returns: the store runs the body, the mock of
    TestDispatchBatchSubmitBroadcastFail returns nil without running it. *)
Record Mocks := {
  OrgIdentity : string;
  publicstorageName : string;
  PublishData : string -> string * error;
  RunAsGroup : list Call * error -> list Call * error;
  UpdateBatch : string -> error;
  UpsertOperation : string -> error;
  SubmitPinnedBatch : Batch -> error;
}.

Definition storeRunAsGroup (body : list Call * error) : list Call * error := body.
Definition mockRunAsGroupNil (body : list Call * error) : list Call * error := ([], None).

(** Modelled from the spec: [submitTXAndUpdateDB], the body of the store
    transaction of section 4.3 (internal/broadcast/manager.go is not among
    the sources; manager_test.go is).  The steps and their order are those
    the tests observe: [UpdateBatch], then [UpsertOperation] of the
    PublicStorageBatchBroadcast operation (second store call of
    TestSubmitTXAndUpdateDBSucceed), then the pin submitter; the first
    failure is returned.  No step reads [Author]:
    TestDispatchBatchSubmitBroadcastFail runs this body for
    [Author = "wrong"] on a node configured as "UTNodeID" and gets the
    error of [SubmitPinnedBatch]. *)
Definition submitTXAndUpdateDB (m : Mocks) (batch : Batch) : list Call * error :=
  match UpdateBatch m (PayloadRef batch) with
  | Some e => ([UpdateBatchCall (PayloadRef batch)], Some e)
  | None =>
      let op := UpsertOperationCall (publicstorageName m) (PayloadRef batch)
                  OpTypePublicStorageBatchBroadcast (TX batch) in
      match UpsertOperation m (PayloadRef batch) with
      | Some e => ([UpdateBatchCall (PayloadRef batch); op], Some e)
      | None =>
          ([UpdateBatchCall (PayloadRef batch); op; SubmitPinnedBatchCall batch],
           SubmitPinnedBatch m batch)
      end
  end.

(** Modelled from the spec: [dispatchBatch] of the broadcast manager
    (same missing file): publish the serialized payload, keep the returned
    reference in the batch, then run [submitTXAndUpdateDB] inside
    [RunAsGroup]; a serialization failure is FF10137
    (TestDispatchBatchInvalidData) and a publication failure is returned
    as it is (TestDispatchBatchUploadFail). *)
Definition dispatchBatch (m : Mocks) (batch : Batch) : list Call * error :=
  match Payload batch with
  | None => ([], Some "FF10137")
  | Some payload =>
      match PublishData m payload with
      | (_, Some e) => ([PublishDataCall payload], Some e)
      | (ref, None) =>
          let batch' := setPayloadRef batch ref in
          let '(calls, err) := RunAsGroup m (submitTXAndUpdateDB m batch') in
          (PublishDataCall payload :: RunAsGroupCall :: calls, err)
      end
  end.

Definition isPin (c : Call) : Prop :=
  match c with SubmitPinnedBatchCall _ => True | _ => False end.

(** The set-up of TestDispatchBatchSubmitBroadcastFail. *)
Definition testMocks (runAsGroup : list Call * error -> list Call * error) : Mocks :=
  {| OrgIdentity := "UTNodeID";
     publicstorageName := "ut_publicstorage";
     PublishData := fun _ => ("id1", None);
     RunAsGroup := runAsGroup;
     UpdateBatch := fun _ => None;
     UpsertOperation := fun _ => None;
     SubmitPinnedBatch := fun _ => Some "pop" |}.

Definition wrongAuthorBatch : Batch :=
  {| Author := "wrong"; TX := None; Payload := Some "{}"; PayloadRef := "" |}.

End Broadcast.

(** ** internal/privatemessaging: the private dispatcher *)

Module PrivateMessaging.
Import Go Fftypes.

Record Node := {
  node_ID : UUID;
  Peer : string;
}.

Record BlobRef := {
  blob_Hash : option Bytes32;
}.

Record Data := {
  data_ID : option UUID;
  Blob : option BlobRef;
}.

Record Batch := {
  Author : string;
  TX : option UUID;
  BatchData : list Data;
}.

(** Calls that leave the dispatcher, in the order they are made. *)
Inductive Call :=
| GetBlobMatchingHashCall (hash : Bytes32)
| TransferBLOBCall (peer path : string)
| SendMessageCall (peer payload : string)
| UpsertOperationCall (backendID : string) (opType : OpType) (recipient : UUID)
| SubmitPinnedBatchCall (batch : Batch).

(** What the store, the data exchange and the pin submitter answer.
    [GetBlobMatchingHash] yields the payload reference of the blob, [None]
    when there is no such blob. *)
Record Mocks := {
  GetBlobMatchingHash : Bytes32 -> option string * error;
  TransferBLOB : string -> string -> string * error;
  SendMessage : string -> string -> string * error;
  UpsertOperation : string -> OpType -> error;
  SubmitPinnedBatch : Batch -> error;
}.

(** Modelled from the spec: [transferBlobs] (internal/privatemessaging
    is represented by its test file only).  The signature is the one the
    tests call: the data of the batch and one recipient node.  For each
    data entry with a blob hash: resolve the blob (an error is returned,
    an absent blob is FF10239, TestTransferBlobsNotFound), transfer it to
    the peer, upsert one DataExchangeBlobSend operation. *)
Fixpoint transferBlobs (m : Mocks) (data : list Data) (node : Node)
    : list Call * error :=
  match data with
  | [] => ([], None)
  | d :: rest =>
      match Blob d ≫= blob_Hash with
      | None => transferBlobs m rest node
      | Some h =>
          match GetBlobMatchingHash m h with
          | (_, Some e) => ([GetBlobMatchingHashCall h], Some e)
          | (None, None) => ([GetBlobMatchingHashCall h], Some "FF10239")
          | (Some path, None) =>
              match TransferBLOB m (Peer node) path with
              | (_, Some e) =>
                  ([GetBlobMatchingHashCall h; TransferBLOBCall (Peer node) path], Some e)
              | (tracking, None) =>
                  let calls :=
                    [GetBlobMatchingHashCall h; TransferBLOBCall (Peer node) path;
                     UpsertOperationCall tracking OpTypeDataExchangeBlobSend (node_ID node)] in
                  match UpsertOperation m tracking OpTypeDataExchangeBlobSend with
                  | Some e => (calls, Some e)
                  | None =>
                      let '(calls', err) := transferBlobs m rest node in
                      (calls ++ calls', err)
                  end
              end
          end
      end
  end.

(** Modelled from the spec: the blob phase of section 4.4, every blob to
    every recipient, stopping at the first failure. *)
Fixpoint transferAll (m : Mocks) (data : list Data) (nodes : list Node)
    : list Call * error :=
  match nodes with
  | [] => ([], None)
  | node :: rest =>
      match transferBlobs m data node with
      | (calls, Some e) => (calls, Some e)
      | (calls, None) =>
          let '(calls', err) := transferAll m data rest in
          (calls ++ calls', err)
      end
  end.

(** Modelled from the spec: the envelope phase of section 4.4, one
    [SendMessage] and one DataExchangeBatchSend operation per recipient
    (TestSendImmediateFail, TestSendSubmitUpsertOperationFail). *)
Fixpoint sendAll (m : Mocks) (payload : string) (nodes : list Node)
    : list Call * error :=
  match nodes with
  | [] => ([], None)
  | node :: rest =>
      match SendMessage m (Peer node) payload with
      | (_, Some e) => ([SendMessageCall (Peer node) payload], Some e)
      | (tracking, None) =>
          let calls :=
            [SendMessageCall (Peer node) payload;
             UpsertOperationCall tracking OpTypeDataExchangeBatchSend (node_ID node)] in
          match UpsertOperation m tracking OpTypeDataExchangeBatchSend with
          | Some e => (calls, Some e)
          | None =>
              let '(calls', err) := sendAll m payload rest in
              (calls ++ calls', err)
          end
      end
  end.

(** Modelled from the spec: [sendAndSubmitBatch], the transaction body of
    the private dispatch of section 4.4: the blob phase, then the
    envelope phase, then the pin through [SubmitPinnedBatch]
    (TestSendAndSubmitBatchBadID: with no recipient the error of the pin
    submitter is the result). *)
Definition sendAndSubmitBatch (m : Mocks) (batch : Batch) (nodes : list Node)
    (payload : string) : list Call * error :=
  match transferAll m (BatchData batch) nodes with
  | (calls, Some e) => (calls, Some e)
  | (calls, None) =>
      match sendAll m payload nodes with
      | (calls', Some e) => (calls ++ calls', Some e)
      | (calls', None) =>
          (calls ++ calls' ++ [SubmitPinnedBatchCall batch], SubmitPinnedBatch m batch)
      end
  end.

(** The phase a call belongs to. *)
Definition isBlobTransfer (c : Call) : Prop :=
  match c with
  | GetBlobMatchingHashCall _ | TransferBLOBCall _ _ => True
  | UpsertOperationCall _ t _ => t = OpTypeDataExchangeBlobSend
  | _ => False
  end.

Definition isEnvelopeSend (c : Call) : Prop :=
  match c with
  | SendMessageCall _ _ => True
  | UpsertOperationCall _ t _ => t = OpTypeDataExchangeBatchSend
  | _ => False
  end.

Definition isPin (c : Call) : Prop :=
  match c with SubmitPinnedBatchCall _ => True | _ => False end.

(** [before P Q l]: in [l], every call satisfying [P] comes before every
    call satisfying [Q]. *)
Definition before (P Q : Call -> Prop) (l : list Call) : Prop :=
  forall i j x y, l !! i = Some x -> l !! j = Some y -> P x -> Q y -> (i < j)%nat.

(** The set-up of TestDispatchBatchWithBlobs: two recipients, one blob. *)
Definition testMocks : Mocks :=
  {| GetBlobMatchingHash := fun _ => (Some "/blob/1", None);
     TransferBLOB := fun peer _ =>
       (if String.eqb peer "node1" then "tracking1" else "tracking2", None);
     SendMessage := fun peer _ =>
       (if String.eqb peer "node1" then "tracking3" else "tracking4", None);
     UpsertOperation := fun _ _ => None;
     SubmitPinnedBatch := fun _ => None |}.

Definition testNodes : list Node :=
  [ {| node_ID := "node1-id"; Peer := "node1" |};
    {| node_ID := "node2-id"; Peer := "node2" |} ].

Definition testBatch : Batch :=
  {| Author := "org1"; TX := Some "tx1";
     BatchData := [ {| data_ID := Some "data1";
                       Blob := Some {| blob_Hash := Some "blob1" |} |} ] |}.

End PrivateMessaging.

(** ** kat/src/lib/batch-processor.ts *)

Module BatchProcessor.

(** JavaScript numbers that count milliseconds and records are integers
    here; rounding of large products is not modelled. *)
Record IBatchProcessorConfig := {
  addTimeoutMS : Z;
  batchTimeoutArrivallMS : Z;
  batchTimeoutOverallMS : Z;
  batchMaxRecords : Z;
  retryInitialDelayMS : Z;
  retryMaxDelayMS : Z;
  retryMultiplier : Z;
}.

(** [Array.prototype.slice(start, end)]: a negative index counts from the
    end of the array, and both are clamped to the array. *)
Definition relativeIndex (len k : Z) : Z :=
  if k <? 0 then Z.max (len + k) 0 else Z.min k len.

Definition slice {A : Type} (l : list A) (start : Z) (end_ : option Z) : list A :=
  let len := Z.of_nat (length l) in
  let k := relativeIndex len start in
  let final := match end_ with Some e => relativeIndex len e | None => len end in
  take (Z.to_nat (final - k)) (drop (Z.to_nat k) l).

Section Processor.

Context {IBatchRecord : Type}.
Variable author type : string.
Variable config : IBatchProcessorConfig.

(** [resolve] and [reject] settle the promise that [add] returned to
    [caller]. *)
Record BatchAssemblyTask := {
  timestamp : Z;
  record : IBatchRecord;
  caller : nat;
}.

Record IDBBatch := {
  batch_type : string;
  batch_author : string;
  batchID : string;
  created : Z;
  completed : option Z;
  records : list IBatchRecord;
}.

Definition pushRecords (b : IDBBatch) (rs : list IBatchRecord) : IDBBatch :=
  {| batch_type := batch_type b; batch_author := batch_author b;
     batchID := batchID b; created := created b; completed := completed b;
     records := records b ++ rs |}.

Definition setCompleted (b : IDBBatch) (now : Z) : IDBBatch :=
  {| batch_type := batch_type b; batch_author := batch_author b;
     batchID := batchID b; created := created b; completed := Some now;
     records := records b |}.

(** The error a promise is rejected with. *)
Inductive Rejection :=
| TimedOut (inFlightTime : Z)
| Threw (err : string).

(** What the processor does to the outside.  [UpsertBatch b] is a call of
    [database.upsertBatch] with the batch as it is at the call;
    [UpsertSettled b err] is that call returning ([None]) or throwing. *)
Inductive Event :=
| Resolved (a : BatchAssemblyTask) (id : string)
| Rejected (a : BatchAssemblyTask) (why : Rejection)
| UpsertBatch (b : IDBBatch)
| UpsertSettled (b : IDBBatch) (err : option string)
| SetTimeout (ms : Z)
| ClearTimeout
| BatchClosed (b : IDBBatch)
| BatchCallback (b : IDBBatch)
| Delay (ms : Z)
| ProcessorComplete.

(** *** processBatch *)

(** The catch block: [retryInitialDelayMS] multiplied [attempt - 1] times,
    capped. *)
Fixpoint multiplyDelay (iterations : nat) (retryDelay : Z) : Z :=
  match iterations with
  | O => retryDelay
  | S n => multiplyDelay n (retryDelay * retryMultiplier config)
  end.

Definition retryDelay (attempt : Z) : Z :=
  Z.min (multiplyDelay (Z.to_nat (attempt - 1)) (retryInitialDelayMS config))
        (retryMaxDelayMS config).








(** *** The processor as a transition system

    An async function runs without interruption from one [await] to the
    next.  The state holds the fields of the [BatchProcessor] object, the
    batch objects (shared by reference between [assemblyBatch], the
    assembler's local [batch] and [processBatch]), and every suspended
    function with the local variables it will resume with.

    Any continuation whose awaited promise has settled may run next: the
    order in which the event loop resumes them is left open, so that what
    holds of every run here holds of every run of the event loop.  The
    processor starts from its constructor ([init] with no stored batch);
    [processBatchCallback] and [database.upsertBatch] may reject, while
    [processorCompleteCallback] and the logger return normally. *)

Definition ref := nat.
Definition pid := nat.

(** A timer handle; [fired] once its callback has run. *)
Record Timeout := {
  ms : Z;
  fired : bool;
}.

(** A [processBatch] call, suspended at one of its three awaits. *)
Inductive Phase :=
| AwaitCallback
| AwaitUpsert (sent : IDBBatch)
| AwaitDelay
| Completed.

Record Process := {
  proc_batch : ref;
  attempt : Z;
  phase : Phase;
}.

(** The one running [assembler] call, suspended at
    [await database.upsertBatch(batch)] or at [await this.dispatchBatch()]
    ([returned] once that call has finished). *)
Inductive Assembler :=
| NotRunning
| AwaitingUpsert (batch : ref) (chosen : list BatchAssemblyTask) (sent : IDBBatch)
| AwaitingDispatch (batch : ref) (chosen : list BatchAssemblyTask) (returned : bool).

(** A [dispatchBatch] call suspended at [await this.batchInFlight]. *)
Inductive Origin := FromTimer | FromAssembler.

Record Waiter := {
  awaited : pid;
  origin : Origin;
}.

Record State := {
  assemblyList : list BatchAssemblyTask;
  assembling : bool;
  assemblyBatch : option ref;
  dispatchTimeout : option Timeout;
  batchInFlight : option pid;
  heap : list IDBBatch;
  assemblerFrame : Assembler;
  dispatching : list Waiter;
  processes : list Process;
  events : list Event;
}.

Definition with_assemblyList (v : list BatchAssemblyTask) (s : State) : State :=
  {| assemblyList := v; assembling := assembling s; assemblyBatch := assemblyBatch s;
     dispatchTimeout := dispatchTimeout s; batchInFlight := batchInFlight s;
     heap := heap s; assemblerFrame := assemblerFrame s; dispatching := dispatching s;
     processes := processes s; events := events s |}.

Definition with_assembling (v : bool) (s : State) : State :=
  {| assemblyList := assemblyList s; assembling := v; assemblyBatch := assemblyBatch s;
     dispatchTimeout := dispatchTimeout s; batchInFlight := batchInFlight s;
     heap := heap s; assemblerFrame := assemblerFrame s; dispatching := dispatching s;
     processes := processes s; events := events s |}.

Definition with_assemblyBatch (v : option ref) (s : State) : State :=
  {| assemblyList := assemblyList s; assembling := assembling s; assemblyBatch := v;
     dispatchTimeout := dispatchTimeout s; batchInFlight := batchInFlight s;
     heap := heap s; assemblerFrame := assemblerFrame s; dispatching := dispatching s;
     processes := processes s; events := events s |}.

Definition with_dispatchTimeout (v : option Timeout) (s : State) : State :=
  {| assemblyList := assemblyList s; assembling := assembling s;
     assemblyBatch := assemblyBatch s;
     dispatchTimeout := v; batchInFlight := batchInFlight s;
     heap := heap s; assemblerFrame := assemblerFrame s; dispatching := dispatching s;
     processes := processes s; events := events s |}.

Definition with_batchInFlight (v : option pid) (s : State) : State :=
  {| assemblyList := assemblyList s; assembling := assembling s;
     assemblyBatch := assemblyBatch s;
     dispatchTimeout := dispatchTimeout s; batchInFlight := v;
     heap := heap s; assemblerFrame := assemblerFrame s; dispatching := dispatching s;
     processes := processes s; events := events s |}.

Definition with_heap (v : list IDBBatch) (s : State) : State :=
  {| assemblyList := assemblyList s; assembling := assembling s;
     assemblyBatch := assemblyBatch s;
     dispatchTimeout := dispatchTimeout s; batchInFlight := batchInFlight s;
     heap := v; assemblerFrame := assemblerFrame s; dispatching := dispatching s;
     processes := processes s; events := events s |}.

Definition with_assemblerFrame (v : Assembler) (s : State) : State :=
  {| assemblyList := assemblyList s; assembling := assembling s;
     assemblyBatch := assemblyBatch s;
     dispatchTimeout := dispatchTimeout s; batchInFlight := batchInFlight s;
     heap := heap s; assemblerFrame := v; dispatching := dispatching s;
     processes := processes s; events := events s |}.

Definition with_dispatching (v : list Waiter) (s : State) : State :=
  {| assemblyList := assemblyList s; assembling := assembling s;
     assemblyBatch := assemblyBatch s;
     dispatchTimeout := dispatchTimeout s; batchInFlight := batchInFlight s;
     heap := heap s; assemblerFrame := assemblerFrame s; dispatching := v;
     processes := processes s; events := events s |}.

Definition with_processes (v : list Process) (s : State) : State :=
  {| assemblyList := assemblyList s; assembling := assembling s;
     assemblyBatch := assemblyBatch s;
     dispatchTimeout := dispatchTimeout s; batchInFlight := batchInFlight s;
     heap := heap s; assemblerFrame := assemblerFrame s; dispatching := dispatching s;
     processes := v; events := events s |}.

Definition emit (evs : list Event) (s : State) : State :=
  {| assemblyList := assemblyList s; assembling := assembling s;
     assemblyBatch := assemblyBatch s;
     dispatchTimeout := dispatchTimeout s; batchInFlight := batchInFlight s;
     heap := heap s; assemblerFrame := assemblerFrame s; dispatching := dispatching s;
     processes := processes s; events := events s ++ evs |}.

(** The constructor. *)
Definition init : State :=
  {| assemblyList := []; assembling := false; assemblyBatch := None;
     dispatchTimeout := None; batchInFlight := None;
     heap := []; assemblerFrame := NotRunning; dispatching := [];
     processes := []; events := [] |}.

Definition newBatch (now : Z) (uuidV4 : string) : IDBBatch :=
  {| batch_type := type; batch_author := author; batchID := uuidV4;
     created := now; completed := None; records := [] |}.

(** The loop of [rejectAnyStale]: the rejections, and [newAssemblyList]. *)
Fixpoint rejectStale (now : Z) (l : list BatchAssemblyTask)
    : list Event * list BatchAssemblyTask :=
  match l with
  | [] => ([], [])
  | a :: l' =>
      let '(evs, newAssemblyList) := rejectStale now l' in
      let inFlightTime := now - timestamp a in
      if inFlightTime >? addTimeoutMS config
      then (Rejected a (TimedOut inFlightTime) :: evs, newAssemblyList)
      else (evs, a :: newAssemblyList)
  end.

Definition rejectAnyStale (now : Z) (s : State) : State :=
  let '(evs, newAssemblyList) := rejectStale now (assemblyList s) in
  with_assemblyList newAssemblyList (emit evs s).

(** One attempt of [processBatch] up to [await this.processBatchCallback]:
    count the attempt, stamp [completed], call the callback. *)
Definition processAttempt (now : Z) (p : pid) (s : State) : option State :=
  proc ← processes s !! p;
  b ← heap s !! proc_batch proc;
  let b' := setCompleted b now in
  let proc' := {| proc_batch := proc_batch proc; attempt := attempt proc + 1;
                  phase := AwaitCallback |} in
  Some (emit [BatchCallback b']
          (with_processes (<[p := proc']> (processes s))
             (with_heap (<[proc_batch proc := b']> (heap s)) s))).

(** The catch block of [processBatch], up to [await delay(retryDelay)]. *)
Definition processCatch (p : pid) (s : State) : option State :=
  proc ← processes s !! p;
  let proc' := {| proc_batch := proc_batch proc; attempt := attempt proc;
                  phase := AwaitDelay |} in
  Some (emit [Delay (retryDelay (attempt proc))]
          (with_processes (<[p := proc']> (processes s)) s)).

(** [processBatch] after the loop. *)
Definition processExit (p : pid) (s : State) : option State :=
  proc ← processes s !! p;
  let proc' := {| proc_batch := proc_batch proc; attempt := attempt proc;
                  phase := Completed |} in
  let s := with_processes (<[p := proc']> (processes s)) s in
  Some (match assemblyBatch s with
        | None => emit [ProcessorComplete] s
        | Some _ => s
        end).

(** [dispatchBatch] from after [await this.batchInFlight] to its return;
    [this.batchInFlight = this.processBatch(batch)] runs the first attempt
    of the new call up to its first await. *)
Definition dispatchBody (now : Z) (s : State) : option State :=
  let s := match dispatchTimeout s with
           | Some _ => emit [ClearTimeout] s
           | None => s
           end in
  let batch := assemblyBatch s in
  let s := with_dispatchTimeout None (with_assemblyBatch None s) in
  match batch with
  | None => Some s
  | Some r =>
      b ← heap s !! r;
      let p := length (processes s) in
      let proc := {| proc_batch := r; attempt := 0; phase := AwaitCallback |} in
      s ← processAttempt now p
            (with_processes (processes s ++ [proc]) (emit [BatchClosed b] s));
      Some (with_batchInFlight (Some p) s)
  end.

(** The caller of a [dispatchBatch] that has returned: the assembler is
    waiting for it, a timer is not. *)
Definition dispatchReturn (o : Origin) (s : State) : State :=
  match o, assemblerFrame s with
  | FromAssembler, AwaitingDispatch r chosen _ =>
      with_assemblerFrame (AwaitingDispatch r chosen true) s
  | _, _ => s
  end.

(** A call of [dispatchBatch]: suspended when a batch is in flight. *)
Definition dispatchBatch (o : Origin) (now : Z) (s : State) : option State :=
  match batchInFlight s with
  | Some p => Some (with_dispatching (dispatching s ++ [{| awaited := p; origin := o |}]) s)
  | None => dispatchReturn o <$> dispatchBody now s
  end.

(** The [while] loop of [assembler] from its condition to
    [await database.upsertBatch(batch)], or to the end of the function. *)
Definition assemblerLoop (now : Z) (uuidV4 : string) (s : State) : option State :=
  let s := rejectAnyStale now s in
  match assemblyList s with
  | [] => Some (with_assemblerFrame NotRunning (with_assembling false s))
  | _ :: _ =>
      let s := match assemblyBatch s with
               | Some _ => s
               | None =>
                   with_assemblyBatch (Some (length (heap s)))
                     (with_heap (heap s ++ [newBatch now uuidV4]) s)
               end in
      r ← assemblyBatch s;
      batch ← heap s !! r;
      let capacity := batchMaxRecords config - Z.of_nat (length (records batch)) in
      let chosen := slice (assemblyList s) 0 (Some capacity) in
      let s := with_assemblyList (slice (assemblyList s) capacity None) s in
      let batch := pushRecords batch (map record chosen) in
      let s := with_heap (<[r := batch]> (heap s)) s in
      Some (with_assemblerFrame (AwaitingUpsert r chosen batch) (emit [UpsertBatch batch] s))
  end.

(** [assembler()], as [add] calls it. *)
Definition assembler (now : Z) (uuidV4 : string) (s : State) : option State :=
  let s := rejectAnyStale now s in
  if assembling s then Some s
  else assemblerLoop now uuidV4 (with_assembling true s).

Definition add (now : Z) (uuidV4 : string) (r : IBatchRecord) (c : nat) (s : State)
    : option State :=
  let task := {| timestamp := now; record := r; caller := c |} in
  assembler now uuidV4 (with_assemblyList (assemblyList s ++ [task]) s).

(** The assembler resuming from [await database.upsertBatch(batch)]. *)
Definition assemblerUpserted (now : Z) (uuidV4 : string) (err : option string)
    (s : State) : option State :=
  match assemblerFrame s with
  | AwaitingUpsert r chosen sent =>
      let s := emit [UpsertSettled sent err] s in
      match err with
      | Some e =>
          assemblerLoop now uuidV4 (emit (map (fun a => Rejected a (Threw e)) chosen) s)
      | None =>
          batch ← heap s !! r;
          if Z.of_nat (length (records batch)) >=? batchMaxRecords config then
            dispatchBatch FromAssembler now
              (with_assemblerFrame (AwaitingDispatch r chosen false) s)
          else
            let s := match dispatchTimeout s with
                     | Some _ => emit [ClearTimeout] s
                     | None => s
                     end in
            let t := Z.min (batchTimeoutArrivallMS config)
                       (created batch + batchTimeoutOverallMS config - now) in
            let s := emit [SetTimeout t]
                       (with_dispatchTimeout (Some {| ms := t; fired := false |}) s) in
            assemblerLoop now uuidV4
              (emit (map (fun a => Resolved a (batchID batch)) chosen) s)
      end
  | _ => None
  end.

(** The assembler resuming from [await this.dispatchBatch()]. *)
Definition assemblerDispatched (now : Z) (uuidV4 : string) (s : State) : option State :=
  match assemblerFrame s with
  | AwaitingDispatch r chosen true =>
      batch ← heap s !! r;
      assemblerLoop now uuidV4
        (emit (map (fun a => Resolved a (batchID batch)) chosen) s)
  | _ => None
  end.

(** The pending timer runs its callback [() => this.dispatchBatch()]. *)
Definition timerFires (now : Z) (s : State) : option State :=
  match dispatchTimeout s with
  | Some {| ms := t; fired := false |} =>
      dispatchBatch FromTimer now
        (with_dispatchTimeout (Some {| ms := t; fired := true |}) s)
  | _ => None
  end.

(** A suspended [dispatchBatch] resumes once the batch it awaits is done. *)
Definition dispatchResumes (now : Z) (i : nat) (s : State) : option State :=
  w ← dispatching s !! i;
  proc ← processes s !! awaited w;
  match phase proc with
  | Completed =>
      dispatchReturn (origin w) <$>
        dispatchBody now (with_dispatching (delete i (dispatching s)) s)
  | _ => None
  end.

(** [processBatch] resuming from [await this.processBatchCallback(batch)]. *)
Definition callbackSettled (p : pid) (err : option string) (s : State) : option State :=
  proc ← processes s !! p;
  match phase proc, err with
  | AwaitCallback, Some _ => processCatch p s
  | AwaitCallback, None =>
      b ← heap s !! proc_batch proc;
      let proc' := {| proc_batch := proc_batch proc; attempt := attempt proc;
                      phase := AwaitUpsert b |} in
      Some (emit [UpsertBatch b] (with_processes (<[p := proc']> (processes s)) s))
  | _, _ => None
  end.

(** [processBatch] resuming from [await database.upsertBatch(batch)]. *)
Definition processUpserted (p : pid) (err : option string) (s : State) : option State :=
  proc ← processes s !! p;
  match phase proc with
  | AwaitUpsert sent =>
      let s := emit [UpsertSettled sent err] s in
      match err with
      | Some _ => processCatch p s
      | None => processExit p s
      end
  | _ => None
  end.

(** [processBatch] resuming from [await delay(retryDelay)]. *)
Definition delayElapsed (now : Z) (p : pid) (s : State) : option State :=
  proc ← processes s !! p;
  match phase proc with
  | AwaitDelay => processAttempt now p s
  | _ => None
  end.

(** What can happen next, with the clock and the next random uuid. *)
Inductive Label :=
| Add (r : IBatchRecord) (c : nat)
| TimerFires
| AssemblerUpserted (err : option string)
| AssemblerDispatched
| DispatchResumes (i : nat)
| CallbackSettled (p : pid) (err : option string)
| ProcessUpserted (p : pid) (err : option string)
| DelayElapsed (p : pid).

Record Input := {
  now : Z;
  uuidV4 : string;
  label : Label;
}.

Definition step (i : Input) (s : State) : option State :=
  match label i with
  | Add r c => add (now i) (uuidV4 i) r c s
  | TimerFires => timerFires (now i) s
  | AssemblerUpserted err => assemblerUpserted (now i) (uuidV4 i) err s
  | AssemblerDispatched => assemblerDispatched (now i) (uuidV4 i) s
  | DispatchResumes k => dispatchResumes (now i) k s
  | CallbackSettled p err => callbackSettled p err s
  | ProcessUpserted p err => processUpserted p err s
  | DelayElapsed p => delayElapsed (now i) p s
  end.

Fixpoint run (inputs : list Input) (s : State) : option State :=
  match inputs with
  | [] => Some s
  | i :: rest => s' ← step i s; run rest s'
  end.




(** *** Invariants of the transition system *)




(** References are used linearly: with [n] batch objects, the batch in
    the assembly slot is one of them and no [processBatch] call has it,
    and no two calls have the same batch. *)
Definition refsOK (slot : option ref) (n : nat) (refs : list ref) : Prop :=
  (forall r, slot = Some r -> (r < n)%nat /\ r ∉ refs) /\
  Forall (fun r => (r < n)%nat) refs /\
  NoDup refs.

Definition RefsOK (s : State) : Prop :=
  refsOK (assemblyBatch s) (length (heap s)) (proc_batch <$> processes s).

(** When an event is legitimate after the events [pre]: a promise is
    resolved with the id of a batch that holds its record and whose upsert
    has returned; it is rejected either for having waited longer than
    [addTimeoutMS], or with the error thrown by an upsert of a batch
    holding its record; and an upsert settles only after it was called. *)
Definition justified (pre : list (Event)) (e : Event) : Prop :=
  match e with
  | Resolved a id =>
      exists sent, In (UpsertSettled sent None) pre /\ batchID sent = id /\
                   In (record a) (records sent)
  | Rejected a (TimedOut inFlightTime) => inFlightTime > addTimeoutMS config
  | Rejected a (Threw err) =>
      exists sent, In (UpsertSettled sent (Some err)) pre /\
                   In (record a) (records sent)
  | UpsertSettled sent _ => In (UpsertBatch sent) pre
  | _ => True
  end.

Fixpoint justifiedFrom (pre evs : list (Event)) : Prop :=
  match evs with
  | [] => True
  | e :: rest => justified pre e /\ justifiedFrom (pre ++ [e]) rest
  end.

(** What the suspended assembler knows about its local variables. *)
Definition assemblerOK (s : State) : Prop :=
  match assemblerFrame s with
  | NotRunning => True
  | AwaitingUpsert r chosen sent =>
      In (UpsertBatch sent) (events s) /\
      Forall (fun a => In (record a) (records sent)) chosen /\
      exists b, heap s !! r = Some b /\ batchID b = batchID sent
  | AwaitingDispatch r chosen _ =>
      exists b sent,
        heap s !! r = Some b /\
        In (UpsertSettled sent None) (events s) /\
        batchID sent = batchID b /\
        Forall (fun a => In (record a) (records sent)) chosen
  end.

Definition processesOK (s : State) : Prop :=
  forall p proc sent,
    processes s !! p = Some proc -> phase proc = AwaitUpsert sent ->
    In (UpsertBatch sent) (events s).

Definition Settles (s : State) : Prop :=
  justifiedFrom [] (events s) /\ assemblerOK s /\ processesOK s.

(** Events that need no earlier event. *)
Definition free (e : Event) : Prop :=
  match e with
  | Resolved _ _ | Rejected _ (Threw _) | UpsertSettled _ _ => False
  | Rejected _ (TimedOut dt) => dt > addTimeoutMS config
  | _ => True
  end.

(** Batch objects keep their id. *)
Definition heapIds (h h' : list (IDBBatch)) : Prop :=
  forall r b, h !! r = Some b -> exists b', h' !! r = Some b' /\ batchID b' = batchID b.

(** A frame of the assembler that differs at most in the [returned] flag. *)
Definition sameFrame (f f' : Assembler) : Prop :=
  f' = f \/
  exists r chosen x y, f = AwaitingDispatch r chosen x /\ f' = AwaitingDispatch r chosen y.

(** *** What a run has done with the tasks and the batches *)

(** The test of [rejectAnyStale] on one task. *)
Definition isStale (now : Z) (a : BatchAssemblyTask) : bool :=
  now - timestamp a >? addTimeoutMS config.

(** The local variable [chosen] of the suspended assembler. *)
Definition chosenOf (f : Assembler) : list BatchAssemblyTask :=
  match f with
  | NotRunning => []
  | AwaitingUpsert _ chosen _ => chosen
  | AwaitingDispatch _ chosen _ => chosen
  end.

(** The tasks whose promise has been settled, in the order of settling. *)
Definition settledTasks (evs : list Event) : list BatchAssemblyTask :=
  omap (fun e => match e with
                 | Resolved a _ => Some a
                 | Rejected a _ => Some a
                 | _ => None
                 end) evs.

(** The tasks queued by the [add] calls among the inputs. *)
Definition addedTasks (inputs : list Input) : list BatchAssemblyTask :=
  omap (fun i => match label i with
                 | Add r c => Some {| timestamp := now i; record := r; caller := c |}
                 | _ => None
                 end) inputs.

(** Every task the processor holds or has settled: the queue, the
    assembler's [chosen], and the settled ones. *)
Definition knownTasks (s : State) : list BatchAssemblyTask :=
  assemblyList s ++ chosenOf (assemblerFrame s) ++ settledTasks (events s).

(** An [assembler] call is suspended at one of its awaits. *)
Definition isRunning (f : Assembler) : bool :=
  match f with NotRunning => false | _ => true end.

(** [assembling] is set exactly while an [assembler] call is suspended. *)
Definition oneAssembler (s : State) : Prop :=
  assembling s = isRunning (assemblerFrame s).

(** The local variable [batch] of the suspended assembler. *)
Definition frameRef (f : Assembler) : option ref :=
  match f with
  | NotRunning => None
  | AwaitingUpsert r _ _ => Some r
  | AwaitingDispatch r _ _ => Some r
  end.

(** The promises resolved, with the batch id given to each, and the
    delays of the dispatch timers set. *)
Definition resolutions (evs : list Event) : list (BatchAssemblyTask * string) :=
  omap (fun e => match e with Resolved a id => Some (a, id) | _ => None end) evs.

Definition timeouts (evs : list Event) : list Z :=
  omap (fun e => match e with SetTimeout ms => Some ms | _ => None end) evs.

(** Two states with the same queue, the same assembler up to the
    [returned] flag, the same promises settled and the same timers set. *)
Definition sameTasks (s s' : State) : Prop :=
  assemblyList s' = assemblyList s /\
  assembling s' = assembling s /\
  isRunning (assemblerFrame s') = isRunning (assemblerFrame s) /\
  frameRef (assemblerFrame s') = frameRef (assemblerFrame s) /\
  chosenOf (assemblerFrame s') = chosenOf (assemblerFrame s) /\
  settledTasks (events s') = settledTasks (events s) /\
  resolutions (events s') = resolutions (events s) /\
  timeouts (events s') = timeouts (events s).

(** What one step does to the assembler and to the promises: the
    assembler keeps its batch and its [chosen], or has just chosen anew,
    or has returned; the promises resolved in the step are those of the
    [chosen] it had, with the id of the batch it had; and a timer set in
    the step waits for at most [batchTimeoutArrivallMS]. *)
Definition tasksStep (s s' : State) : Prop :=
  (frameRef (assemblerFrame s') = frameRef (assemblerFrame s) /\
   chosenOf (assemblerFrame s') = chosenOf (assemblerFrame s) \/
   (exists r chosen sent, assemblerFrame s' = AwaitingUpsert r chosen sent) \/
   assemblerFrame s' = NotRunning) /\
  (exists rs,
     resolutions (events s') = resolutions (events s) ++ rs /\
     forall a id, In (a, id) rs ->
       In a (chosenOf (assemblerFrame s)) /\
       exists r b, frameRef (assemblerFrame s) = Some r /\
                   heap s !! r = Some b /\ batchID b = id) /\
  (exists ts,
     timeouts (events s') = timeouts (events s) ++ ts /\
     Forall (fun ms => ms <= batchTimeoutArrivallMS config) ts).

(** A batch object at a later time: the fields written by [newBatch] are
    kept and the records are only appended to. *)
Definition extends (b b' : IDBBatch) : Prop :=
  batch_type b' = batch_type b /\ batch_author b' = batch_author b /\
  batchID b' = batchID b /\ created b' = created b /\
  exists more, records b' = records b ++ more.

(** The batches handed to [database.upsertBatch], to [dispatchBatch]'s
    log line and to [processBatchCallback]. *)
Definition batchesSeen (evs : list Event) : list IDBBatch :=
  omap (fun e => match e with
                 | UpsertBatch b => Some b
                 | BatchClosed b => Some b
                 | BatchCallback b => Some b
                 | _ => None
                 end) evs.

(** Where the batch object [b'] found at [r] after a step comes from.
    Either it was there before, and [processBatch] has at most stamped
    [completed]; or the assembler has just pushed the records of
    [chosen], taken from the front of the non-empty queue [q], to the
    batch in the slot or to a new batch, and has called
    [database.upsertBatch] with it. *)
Definition batchOrigin (s s' : State) (new : list Event) (r : ref) (b' : IDBBatch)
    : Prop :=
  (exists b, heap s !! r = Some b /\
             (b' = b \/ exists now, b' = setCompleted b now)) \/
  (exists b q,
     q <> [] /\
     (heap s !! r = Some b /\ assemblyBatch s = Some r \/
      heap s !! r = None /\ assemblyBatch s = None /\
      exists now uuidV4, b = newBatch now uuidV4) /\
     let chosen :=
       slice q 0 (Some (batchMaxRecords config - Z.of_nat (length (records b)))) in
     b' = pushRecords b (map record chosen) /\
     assemblerFrame s' = AwaitingUpsert r chosen b' /\
     In (UpsertBatch b') new).

(** What one step does to the batch objects: it emits [new]; no object
    disappears and each has one of the two origins; a batch is shown to
    the outside as it is in the heap before or after the step, and closed
    as it was in the slot; [processBatch] calls keep their batch; and an
    assembler found waiting for its upsert either was waiting already or
    has just pushed the records of [chosen] and sent the batch as it is. *)
Definition batchesStep (s s' : State) : Prop :=
  exists new,
    events s' = events s ++ new /\
    (length (heap s) <= length (heap s'))%nat /\
    (forall r b', heap s' !! r = Some b' -> batchOrigin s s' new r b') /\
    (forall b, In b (batchesSeen new) -> In b (heap s) \/ In b (heap s')) /\
    (forall b, In (BatchClosed b) new ->
               exists r, assemblyBatch s = Some r /\ heap s !! r = Some b) /\
    (exists more,
       proc_batch <$> processes s' = (proc_batch <$> processes s) ++ more) /\
    (forall r chosen sent,
       assemblerFrame s' = AwaitingUpsert r chosen sent ->
       assemblerFrame s = AwaitingUpsert r chosen sent \/
       heap s' !! r = Some sent /\
       exists b, sent = pushRecords b (map record chosen)).

(** The batch the assembler is waiting to have upserted still has the
    records that were sent. *)
Definition sentIsCurrent (s : State) : Prop :=
  forall r chosen sent,
    assemblerFrame s = AwaitingUpsert r chosen sent ->
    exists b, heap s !! r = Some b /\ records b = records sent /\
              batchID b = batchID sent.

(** The batch of the suspended assembler holds the records of the tasks
    it has chosen. *)
Definition chosenInBatch (s : State) : Prop :=
  forall r, frameRef (assemblerFrame s) = Some r ->
    exists b, heap s !! r = Some b /\
              Forall (fun a => In (record a) (records b)) (chosenOf (assemblerFrame s)).

(** Every promise resolved was given the id of a batch object that holds
    its record. *)
Definition resolvedInBatch (s : State) : Prop :=
  forall a id, In (a, id) (resolutions (events s)) ->
    exists r b, heap s !! r = Some b /\ batchID b = id /\ In (record a) (records b).

(** Every batch object has been handed to [database.upsertBatch] with the
    records it holds. *)
Definition upsertCalled (s : State) : Prop :=
  forall b, In b (heap s) ->
    exists sent, In (UpsertBatch sent) (events s) /\
                 batchID sent = batchID b /\ records sent = records b.

(** *** init

    [init(incompleteBatches)] runs before the processor is handed to its
    callers: while it runs there is no [add], hence no assembler and no
    timer, and the only [dispatchBatch] call is its own.  Its frame is
    kept beside the state of the processor: the batches still to
    dispatch, and whether it is suspended at [await this.dispatchBatch()]
    ([returned] once that call has finished). *)
Inductive InitFrame :=
| InitReturned
| InitAwaitingDispatch (returned : bool).

Record InitState := {
  processor : State;
  incompleteBatches : list IDBBatch;
  initFrame : InitFrame;
}.

(** The [while] loop of [init] from its condition to
    [await this.dispatchBatch()], or to the end of the function:
    [incompleteBatches.shift()] goes to the slot as a new batch object. *)
Definition initLoop (now : Z) (stored : list IDBBatch) (s : State) : option InitState :=
  match stored with
  | [] =>
      Some {| processor := s; incompleteBatches := []; initFrame := InitReturned |}
  | b :: rest =>
      let s := with_assemblyBatch (Some (length (heap s)))
                 (with_heap (heap s ++ [b]) s) in
      let returned := match batchInFlight s with None => true | Some _ => false end in
      s ← dispatchBatch FromTimer now s;
      Some {| processor := s; incompleteBatches := rest;
              initFrame := InitAwaitingDispatch returned |}
  end.

(** What can happen next while [init] runs. *)
Inductive InitLabel :=
| InitResumes
| InitDispatchResumes
| InitCallbackSettled (p : pid) (err : option string)
| InitProcessUpserted (p : pid) (err : option string)
| InitDelayElapsed (p : pid).

Definition withProcessor (st : InitState) (s : State) : InitState :=
  {| processor := s; incompleteBatches := incompleteBatches st;
     initFrame := initFrame st |}.

Definition initStep (now : Z) (l : InitLabel) (st : InitState) : option InitState :=
  match l with
  | InitResumes =>
      match initFrame st with
      | InitAwaitingDispatch true => initLoop now (incompleteBatches st) (processor st)
      | _ => None
      end
  | InitDispatchResumes =>
      match initFrame st with
      | InitAwaitingDispatch false =>
          s ← dispatchResumes now 0 (processor st);
          Some {| processor := s; incompleteBatches := incompleteBatches st;
                  initFrame := InitAwaitingDispatch true |}
      | _ => None
      end
  | InitCallbackSettled p err => withProcessor st <$> callbackSettled p err (processor st)
  | InitProcessUpserted p err => withProcessor st <$> processUpserted p err (processor st)
  | InitDelayElapsed p => withProcessor st <$> delayElapsed now p (processor st)
  end.

Fixpoint initRun (inputs : list (Z * InitLabel)) (st : InitState) : option InitState :=
  match inputs with
  | [] => Some st
  | (now, l) :: rest => st' ← initStep now l st; initRun rest st'
  end.

(** The batches closed by [dispatchBatch], in order. *)
Definition closedBatches (evs : list Event) : list IDBBatch :=
  omap (fun e => match e with BatchClosed b => Some b | _ => None end) evs.

(** The batch waiting in the slot, if any. *)
Definition slotBatch (s : State) : list IDBBatch :=
  match assemblyBatch s with
  | None => []
  | Some r => match heap s !! r with Some b => [b] | None => [] end
  end.

(** A [processBatch] call that has not finished. *)
Definition isActive (proc : Process) : bool :=
  match phase proc with Completed => false | _ => true end.

(** What [init] keeps true: the stored batches are those closed, the one
    in the slot and those still to dispatch, in this order; the slot is
    filled exactly while [init]'s [dispatchBatch] is suspended, which is
    then the only suspended one and waits for the batch in flight; and
    every [processBatch] call but the one in flight has finished. *)
Definition InitOK (stored : list IDBBatch) (st : InitState) : Prop :=
  let s := processor st in
  closedBatches (events s) ++ slotBatch s ++ incompleteBatches st = stored /\
  match initFrame st with
  | InitAwaitingDispatch false =>
      exists r p b, assemblyBatch s = Some r /\ heap s !! r = Some b /\
                    batchInFlight s = Some p /\
                    dispatching s = [{| awaited := p; origin := FromTimer |}]
  | InitAwaitingDispatch true => assemblyBatch s = None /\ dispatching s = []
  | InitReturned =>
      assemblyBatch s = None /\ dispatching s = [] /\ incompleteBatches st = []
  end /\
  assembling s = false /\ assemblerFrame s = NotRunning /\ dispatchTimeout s = None /\
  (forall p proc, processes s !! p = Some proc -> isActive proc = true ->
                  batchInFlight s = Some p) /\
  (forall p, batchInFlight s = Some p -> (p < length (processes s))%nat).

(** What the three continuations of the [processBatch] call [p] leave
    alone: the fields of the processor, the batches closed, every other
    call and every other batch object; the call was not finished, and its
    batch is at most stamped. *)
Definition processStepOK (p : pid) (s s' : State) : Prop :=
  assemblyBatch s' = assemblyBatch s /\ dispatching s' = dispatching s /\
  batchInFlight s' = batchInFlight s /\ assembling s' = assembling s /\
  assemblerFrame s' = assemblerFrame s /\ dispatchTimeout s' = dispatchTimeout s /\
  closedBatches (events s') = closedBatches (events s) /\
  exists proc proc',
    processes s !! p = Some proc /\ isActive proc = true /\
    processes s' = <[p := proc']> (processes s) /\
    proc_batch proc' = proc_batch proc /\
    (heap s' = heap s \/
     exists b now, heap s !! proc_batch proc = Some b /\
                   heap s' = <[proc_batch proc := setCompleted b now]> (heap s)).

End Processor.

(** A configuration for the examples: at most two records per batch,
    retries after 100 ms, doubling, capped at one minute. *)
Definition sampleConfig : IBatchProcessorConfig :=
  {| addTimeoutMS := 10;
     batchTimeoutArrivallMS := 50;
     batchTimeoutOverallMS := 500;
     batchMaxRecords := 2;
     retryInitialDelayMS := 100;
     retryMaxDelayMS := 60000;
     retryMultiplier := 2 |}.

Definition sampleBatch : @IDBBatch string :=
  {| batch_type := "message"; batch_author := "0x12345"; batchID := "batch-1";
     created := 1000; completed := None; records := ["r1"; "r2"] |}.

Definition firstUpsert : @IDBBatch string :=
  {| batch_type := "message"; batch_author := "0x12345"; batchID := "batch-1";
     created := 1000; completed := None; records := ["r1"] |}.

Definition firstTask : @BatchAssemblyTask string :=
  {| timestamp := 1000; record := "r1"; caller := 1 |}.

Definition input (now : Z) (uuidV4 : string) (l : @Label string) : @Input string :=
  {| now := now; uuidV4 := uuidV4; label := l |}.

(** The state after some inputs, for the processor of author "0x12345"
    and type "message" ([init] if the inputs cannot happen). *)
Definition sampleRun (inputs : list (@Input string)) : @State string :=
  default init (run "0x12345" "message" sampleConfig inputs init).

(** Two callers; the first upsert returns while the second waits. *)
Definition twoRecords : list (@Input string) :=
  [ input 1000 "batch-1" (Add "r1" 1);
    input 1001 "batch-2" (Add "r2" 2);
    input 1005 "batch-3" (AssemblerUpserted None) ].

(** The store stalls for 50 ms: the second caller waits in the queue for
    longer than [addTimeoutMS]. *)
Definition stalledUpsert : list (@Input string) :=
  [ input 1000 "batch-1" (Add "r1" 1);
    input 1001 "batch-2" (Add "r2" 2);
    input 1050 "batch-3" (AssemblerUpserted None) ].

Definition secondTask : @BatchAssemblyTask string :=
  {| timestamp := 1001; record := "r2"; caller := 2 |}.

(** A timer and the assembler both call [dispatchBatch] for the second
    batch while the first is in flight; both resume when it completes. *)
Definition timerAndAssemblerRace : list (@Input string) :=
  [ input 1000 "batch-1" (Add "r1" 1);
    input 1001 "batch-2" (Add "r2" 2);
    input 1005 "batch-3" (AssemblerUpserted None);
    input 1006 "batch-4" (AssemblerUpserted None);
    input 1006 "batch-5" AssemblerDispatched;
    input 1010 "batch-6" (Add "r3" 3);
    input 1012 "batch-7" (AssemblerUpserted None);
    input 1062 "batch-8" TimerFires;
    input 1063 "batch-9" (Add "r4" 4);
    input 1065 "batch-10" (AssemblerUpserted None);
    input 1070 "batch-11" (CallbackSettled 0%nat None);
    input 1075 "batch-12" (ProcessUpserted 0%nat None);
    input 1075 "batch-13" (DispatchResumes 0%nat);
    input 1075 "batch-14" (DispatchResumes 0%nat);
    input 1075 "batch-15" AssemblerDispatched ].

(** One caller; the upsert of its batch is pending. *)
Definition oneRecord : list (@Input string) :=
  [ input 1000 "batch-1" (Add "r1" 1) ].

(** The store throws on that upsert. *)
Definition upsertThrows : @Input string :=
  input 1005 "batch-2" (AssemblerUpserted (Some "pop")).

(** Two callers fill the first batch, which is closed and handed to
    [processBatch]. *)
Definition firstBatchClosed : list (@Input string) :=
  twoRecords ++ [ input 1006 "batch-4" (AssemblerUpserted None) ].

(** Two batches found in the store at start-up, and the run of [init]
    that recovers them: the first is processed at once, the second waits
    in the slot until the first is done. *)
Definition storedBatch : @IDBBatch string :=
  {| batch_type := "message"; batch_author := "0x12345"; batchID := "batch-0";
     created := 900; completed := None; records := ["r0"] |}.

Definition storedBatches : list (@IDBBatch string) := [storedBatch; sampleBatch].

Definition recovery : list (Z * InitLabel) :=
  [ (2001, InitResumes);
    (2002, InitCallbackSettled 0%nat None);
    (2003, InitProcessUpserted 0%nat None);
    (2004, InitDispatchResumes);
    (2005, InitResumes) ].

(** [init] up to its first await, and the state after some inputs (the
    state of the call itself if the inputs cannot happen). *)
Definition initCall : @InitState string :=
  default {| processor := init; incompleteBatches := []; initFrame := InitReturned |}
    (initLoop 2000 storedBatches init).

Definition sampleInit (inputs : list (Z * InitLabel)) : @InitState string :=
  default initCall (initRun sampleConfig inputs initCall).

End BatchProcessor.

(** * Properties *)

(** ** Slices *)

Lemma index_in_range {A : Type} (s : list A) (i : Z) :
  0 <= i < Z.of_nat (length s) ->
  exists x, s !! Z.to_nat i = Some x /\ Go.index s i = Go.Returns x.
Proof.
  intros Hi. unfold Go.index.
  destruct (Z.ltb_spec i 0); [lia|].
  destruct (Z.leb_spec (Z.of_nat (length s)) i); [lia|]. simpl.
  destruct (lookup_lt_is_Some_2 s (Z.to_nat i)) as [x Hx]; [lia|].
  exists x. rewrite Hx. auto.
Qed.

Lemma index_out_of_range {A : Type} (s : list A) (i : Z) :
  ~ (0 <= i < Z.of_nat (length s)) ->
  exists r, Go.index s i = Go.Panics r.
Proof.
  intros Hi. unfold Go.index.
  destruct (Z.ltb_spec i 0); simpl; [eauto|].
  destruct (Z.leb_spec (Z.of_nat (length s)) i); [eauto|lia].
Qed.

(** ** Operations *)

Section OperationProperties.
Import Go Fftypes.

(** C10. [NewMessageDataOp] reads [msg.Data[dataIdx]] unchecked: with
    [0 <= dataIdx < len(msg.Data)] it returns an operation whose [Data] is
    the ID of that entry and whose [Message] is the ID of the header;
    outside that range the index expression panics, so the range is a
    precondition of the call. *)
Theorem NewMessageDataOp_reads_indexed_data
    {P : Type} `{Named P}
    (NewUUID : UUID) (Now : FFTime) (plugin : P) (backendID : string)
    (msg : Message) (dataIdx : Z) (opType : OpType) (opStatus : OpStatus)
    (recipient : string) :
  (0 <= dataIdx < Z.of_nat (length (Data msg)) ->
   exists d op,
     Data msg !! Z.to_nat dataIdx = Some d /\
     NewMessageDataOp NewUUID Now plugin backendID msg dataIdx opType opStatus recipient
       = Returns op /\
     op_Data op = ref_ID d /\
     op_Message op = hdr_ID (Header msg)) /\
  (~ (0 <= dataIdx < Z.of_nat (length (Data msg))) ->
   exists r,
     NewMessageDataOp NewUUID Now plugin backendID msg dataIdx opType opStatus recipient
       = Panics r).
Proof.
  split; intros Hi; unfold NewMessageDataOp.
  - destruct (index_in_range (Data msg) dataIdx Hi) as (d & Hd & Hidx).
    rewrite Hidx. eexists d, _. repeat split; auto.
  - destruct (index_out_of_range (Data msg) dataIdx Hi) as (r & Hr).
    rewrite Hr. eauto.
Qed.

Lemma NewMessageDataOp_reads_indexed_data_witness :
  exists op,
    NewMessageDataOp "op-1" 0 "utdx" "tracking1" sampleMessage 1
      OpTypeDataExchangeBlobSend OpStatusPending "node1" = Returns op /\
    op_Data op = Some "data-1" /\ op_Message op = Some "msg-1".
Proof.
  destruct (proj1 (NewMessageDataOp_reads_indexed_data "op-1" 0 "utdx" "tracking1"
                     sampleMessage 1 OpTypeDataExchangeBlobSend OpStatusPending "node1"))
    as (d & op & Hd & Hop & HData & HMsg).
  - simpl. lia.
  - exists op. split; [exact Hop|]. split.
    + rewrite HData. simpl in Hd. injection Hd as <-. reflexivity.
    + exact HMsg.
Defined.

Example NewMessageDataOp_past_the_end :
  NewMessageDataOp "op-1" 0 "utdx" "tracking1" sampleMessage 2
    OpTypeDataExchangeBlobSend OpStatusPending "node1" = Panics "index out of range".
Proof. reflexivity. Qed.

End OperationProperties.

(** ** The token event loop *)

Section EventLoopProperties.
Import Go Fftypes FFTokens.

Context {JSONObject : Type}.
Variable GetString : JSONObject -> string -> string.
Variable GetBool : JSONObject -> string -> bool.
Variable GetObject : JSONObject -> string -> JSONObject.
Variable ParseUUID : string -> option UUID.
Variable Unmarshal : string -> option (wsEvent JSONObject).
Variable TokensOpUpdate : UUID -> OpStatus -> string -> JSONObject -> error.
Variable TokenPoolCreated :
  string -> UUID -> string -> string -> string -> JSONObject -> error.
Variable Send : string -> error.

Abbreviation handleReceipt :=
  (FFTokens.handleReceipt JSONObject GetString GetBool ParseUUID TokensOpUpdate).
Abbreviation handleTokenPoolCreate :=
  (FFTokens.handleTokenPoolCreate JSONObject GetString GetObject ParseUUID TokenPoolCreated).
Abbreviation handleEvent :=
  (FFTokens.handleEvent JSONObject GetString GetBool GetObject ParseUUID
     TokensOpUpdate TokenPoolCreated Send).
Abbreviation eventLoop :=
  (FFTokens.eventLoop JSONObject GetString GetBool GetObject ParseUUID Unmarshal
     TokensOpUpdate TokenPoolCreated Send).
Abbreviation missingPoolField := (FFTokens.missingPoolField JSONObject GetString GetObject).

(** An event that leaves [err] nil keeps the loop going: the effects of
    the event are followed by those of the rest of the stream. *)
Lemma eventLoop_continues msgBytes msg fx rest :
  Unmarshal msgBytes = Some msg ->
  handleEvent msg = (fx, None) ->
  eventLoop (Received msgBytes :: rest)
    = (fx ++ fst (eventLoop rest), snd (eventLoop rest)).
Proof.
  intros HU HE. simpl. rewrite HU, HE.
  destruct (eventLoop rest); reflexivity.
Qed.

Lemma eventLoop_exits msgBytes msg fx e rest :
  Unmarshal msgBytes = Some msg ->
  handleEvent msg = (fx, Some e) ->
  eventLoop (Received msgBytes :: rest)
    = (fx ++ [LogError "Event loop exiting"; WsClose], Exited).
Proof. intros HU HE. simpl. rewrite HU, HE. reflexivity. Qed.

Lemma handleReceipt_bad_id data :
  GetString data "id" = "" \/ ParseUUID (GetString data "id") = None ->
  exists text, handleReceipt data = ([LogError text], None).
Proof.
  intros Hbad. unfold FFTokens.handleReceipt.
  destruct (String.eqb_spec (GetString data "id") "") as [_|Hne]; [eauto|].
  destruct Hbad as [He|Hp]; [contradiction|]. rewrite Hp. eauto.
Qed.

Lemma handleTokenPoolCreate_missing data :
  missingPoolField data ->
  handleTokenPoolCreate data
    = ([LogError "TokenPool event is not valid - missing data"], None).
Proof.
  intros Hm. unfold FFTokens.handleTokenPoolCreate.
  destruct Hm as [H|[H|[H|[H|H]]]]; rewrite H; simpl;
    rewrite ?orb_true_r; reflexivity.
Qed.

(** C9. A receipt whose [data.id] is empty or is not a UUID is logged and
    [handleReceipt] returns nil without calling [TokensOpUpdate]; in the
    event loop such a receipt produces neither a callback nor a send, and
    the loop goes on with the rest of the stream. *)
Theorem receipt_with_bad_id_is_swallowed (data : JSONObject) :
  GetString data "id" = "" \/ ParseUUID (GetString data "id") = None ->
  (exists text, handleReceipt data = ([LogError text], None)) /\
  (forall msgBytes id rest,
     Unmarshal msgBytes = Some {| Event := messageReceipt; ID := id; Data := data |} ->
     exists fx,
       eventLoop (Received msgBytes :: rest)
         = (fx ++ fst (eventLoop rest), snd (eventLoop rest)) /\
       Forall (fun e => ~ isOpUpdateCall JSONObject e /\ ~ isSend JSONObject e
                        /\ e <> WsClose) fx).
Proof.
  intros Hbad. destruct (handleReceipt_bad_id data Hbad) as [text Htext].
  split; [eauto|].
  intros msgBytes id rest HU.
  exists [LogDebug "Received event"; LogError text]. split.
  - apply (eventLoop_continues _ _ _ _ HU).
    unfold FFTokens.handleEvent. simpl. rewrite Htext. reflexivity.
  - repeat constructor; simpl; try tauto; discriminate.
Qed.

(** C5, as the code has it. A token-pool event with a required field
    missing is logged and [handleTokenPoolCreate] returns nil without
    calling [TokenPoolCreated].  The event loop then treats it as any event
    handled without error: with a non-empty [msg.ID] it sends the ack, and
    goes on if the send succeeds (it exits if the send fails); with an
    empty [msg.ID] nothing is sent and the loop goes on. *)
Theorem invalid_token_pool_event_is_swallowed_then_acked
    (msg : wsEvent JSONObject) :
  Event msg = messageTokenPool ->
  missingPoolField (Data msg) ->
  (exists text, handleTokenPoolCreate (Data msg) = ([LogError text], None)) /\
  (exists fx,
     handleEvent msg
       = (fx ++ (if String.eqb (ID msg) "" then []
                 else [LogDebug "Sending ack"; WsSend (ID msg)]),
          if String.eqb (ID msg) "" then None else Send (ID msg)) /\
     Forall (fun e => ~ isPoolCall JSONObject e /\ ~ isSend JSONObject e) fx) /\
  (forall msgBytes rest,
     Unmarshal msgBytes = Some msg ->
     snd (handleEvent msg) = None ->
     eventLoop (Received msgBytes :: rest)
       = (fst (handleEvent msg) ++ fst (eventLoop rest), snd (eventLoop rest))) /\
  (forall msgBytes rest,
     Unmarshal msgBytes = Some msg ->
     snd (handleEvent msg) <> None ->
     snd (eventLoop (Received msgBytes :: rest)) = Exited).
Proof.
  intros HE Hm. pose proof (handleTokenPoolCreate_missing _ Hm) as Hh.
  split; [eauto|]. split; [|split].
  - exists [LogDebug "Received event";
            LogError "TokenPool event is not valid - missing data"].
    split.
    + unfold FFTokens.handleEvent. rewrite HE. simpl. rewrite Hh.
      destruct (String.eqb (ID msg) ""); reflexivity.
    + repeat constructor; simpl; tauto.
  - intros msgBytes rest HU Hnil.
    destruct (handleEvent msg) as [fx err] eqn:Hev. simpl in Hnil. subst err.
    apply (eventLoop_continues _ _ _ _ HU Hev).
  - intros msgBytes rest HU Herr.
    destruct (handleEvent msg) as [fx [e|]] eqn:Hev; [|contradiction].
    rewrite (eventLoop_exits _ _ _ _ rest HU Hev). reflexivity.
Qed.

End EventLoopProperties.

Lemma receipt_with_bad_id_is_swallowed_witness :
  FFTokens.Sample.eventLoop [FFTokens.Received "receipt-with-bad-id"]
    = ([FFTokens.LogDebug "Received event";
        FFTokens.LogError "Reply cannot be processed - bad ID"], FFTokens.Waiting).
Proof.
  destruct (receipt_with_bad_id_is_swallowed
              FFTokens.Sample.GetString FFTokens.Sample.GetBool
              FFTokens.Sample.GetObject FFTokens.Sample.ParseUUID
              FFTokens.Sample.Unmarshal FFTokens.Sample.TokensOpUpdate
              FFTokens.Sample.TokenPoolCreated FFTokens.Sample.Send
              (FFTokens.Data FFTokens.Sample.receiptWithBadID))
    as [_ Hloop].
  - right. reflexivity.
  - destruct (Hloop "receipt-with-bad-id" "evt-2" [] eq_refl) as (fx & Hfx & _).
    reflexivity.
Defined.

Lemma invalid_token_pool_event_is_swallowed_then_acked_witness :
  FFTokens.Sample.eventLoop [FFTokens.Received "pool-without-txhash"]
    = ([FFTokens.LogDebug "Received event";
        FFTokens.LogError "TokenPool event is not valid - missing data";
        FFTokens.LogDebug "Sending ack"; FFTokens.WsSend "evt-1"], FFTokens.Waiting).
Proof.
  destruct (invalid_token_pool_event_is_swallowed_then_acked
              FFTokens.Sample.GetString FFTokens.Sample.GetBool
              FFTokens.Sample.GetObject FFTokens.Sample.ParseUUID
              FFTokens.Sample.Unmarshal FFTokens.Sample.TokensOpUpdate
              FFTokens.Sample.TokenPoolCreated FFTokens.Sample.Send
              FFTokens.Sample.poolWithoutTxHash)
    as (_ & _ & Hgo & _).
  - reflexivity.
  - do 4 right. reflexivity.
  - exact (Hgo "pool-without-txhash" [] eq_refl eq_refl).
Defined.

(** The event of the scenario lacks [transactionHash], is identified as
    "evt-1", and the loop answers it with an ack. *)
Lemma token_pool_event_without_txhash_is_acked :
  FFTokens.missingPoolField FFTokens.Sample.Object FFTokens.Sample.GetString
    FFTokens.Sample.GetObject (FFTokens.Data FFTokens.Sample.poolWithoutTxHash) /\
  FFTokens.Sample.Unmarshal "pool-without-txhash" = Some FFTokens.Sample.poolWithoutTxHash /\
  In (FFTokens.WsSend "evt-1")
     (fst (FFTokens.Sample.eventLoop [FFTokens.Received "pool-without-txhash"])).
Proof.
  split; [do 4 right; reflexivity|]. split; [reflexivity|].
  vm_compute. auto 10.
Qed.

(** ** The content hash *)

Section DataHashProperties.
Import Fftypes DataHash.

(** C8. A data record whose value is null (absent, or the JSON [null])
    and whose blob carries the hash [H] hashes to exactly [H]: the value
    adds nothing, whatever the hash function. *)
Theorem CalcHash_null_value_is_blob_hash
    (sha256 : string -> Bytes32) (d : Data) (H : Bytes32) :
  Value d = None \/ Value d = Some "null" ->
  (exists b, Blob d = Some b /\ blob_Hash b = Some H) ->
  CalcHash sha256 d = inl H.
Proof.
  intros Hv (b & Hb & Hh). unfold CalcHash, blobHash.
  rewrite Hb, Hh. destruct Hv as [-> | ->]; reflexivity.
Qed.

(** The cases of data_test.go on the model, for any hash function. *)
Example TestSealNoData (sha256 : string -> Bytes32) :
  CalcHash sha256 {| Value := None; Blob := None |} = inr "FF10199".
Proof. reflexivity. Qed.

Example TestSealValueOnly (sha256 : string -> Bytes32) :
  CalcHash sha256 {| Value := Some "{}"; Blob := Some {| blob_Hash := None |} |}
    = inl (sha256 "{}").
Proof. reflexivity. Qed.

Example TestSealBlobOnly (sha256 : string -> Bytes32) (blobHash : Bytes32) :
  CalcHash sha256 {| Value := None; Blob := Some {| blob_Hash := Some blobHash |} |}
    = inl blobHash.
Proof. reflexivity. Qed.

Example TestSealBlobAndHashOnly (sha256 : string -> Bytes32) (blobHash : Bytes32) :
  CalcHash sha256 {| Value := Some "{}"; Blob := Some {| blob_Hash := Some blobHash |} |}
    = inl (sha256 (sha256 "{}" ++ blobHash)%string).
Proof. reflexivity. Qed.

Lemma CalcHash_null_value_is_blob_hash_witness :
  CalcHash (fun _ => "") nullValueData
    = inl "6014cbaf6bde9f9d755f347cb326db88859475e9d1a215d5dc4ccd8ae9caec7c".
Proof.
  apply CalcHash_null_value_is_blob_hash.
  - right. reflexivity.
  - eexists. split; reflexivity.
Defined.

End DataHashProperties.

(** ** The broadcast dispatcher *)

Section BroadcastProperties.
Import Go Fftypes Broadcast.

(** TestDispatchBatchSubmitBroadcastFail on the model: with [RunAsGroup]
    mocked the dispatch returns nil, and the captured transaction body
    returns the error of the pin submitter. *)
Example TestDispatchBatchSubmitBroadcastFail :
  snd (dispatchBatch (testMocks mockRunAsGroupNil) wrongAuthorBatch) = None /\
  snd (submitTXAndUpdateDB (testMocks mockRunAsGroupNil)
         (setPayloadRef wrongAuthorBatch "id1")) = Some "pop".
Proof. split; reflexivity. Qed.

Example TestDispatchBatchInvalidData (m : Mocks) :
  dispatchBatch m {| Author := ""; TX := None; Payload := None; PayloadRef := "" |}
    = ([], Some "FF10137").
Proof. reflexivity. Qed.

Example TestDispatchBatchUploadFail :
  snd (dispatchBatch
         {| OrgIdentity := "UTNodeID"; publicstorageName := "ut_publicstorage";
            PublishData := fun _ => ("", Some "pop");
            RunAsGroup := storeRunAsGroup;
            UpdateBatch := fun _ => None; UpsertOperation := fun _ => None;
            SubmitPinnedBatch := fun _ => None |}
         {| Author := ""; TX := None; Payload := Some "{}"; PayloadRef := "" |})
    = Some "pop".
Proof. reflexivity. Qed.

(** TestSubmitTXAndUpdateDBSucceed: the second store call is the upsert
    of the broadcast operation, with the transaction, the plugin name and
    the payload reference of the batch. *)
Example TestSubmitTXAndUpdateDBSucceed :
  let batch := {| Author := "UTNodeID"; TX := Some "tx1"; Payload := Some "{}";
                  PayloadRef := "ipfs_id" |} in
  let m := {| OrgIdentity := "UTNodeID"; publicstorageName := "ut_publicstorage";
              PublishData := fun _ => ("", None);
              RunAsGroup := storeRunAsGroup;
              UpdateBatch := fun _ => None; UpsertOperation := fun _ => None;
              SubmitPinnedBatch := fun _ => None |} in
  snd (submitTXAndUpdateDB m batch) = None /\
  fst (submitTXAndUpdateDB m batch) !! 1%nat
    = Some (UpsertOperationCall "ut_publicstorage" "ipfs_id"
              OpTypePublicStorageBatchBroadcast (Some "tx1")).
Proof. split; reflexivity. Qed.

(** C6, as the tests have it. The dispatcher does not read the author of
    the batch: once the payload is published and the store transaction
    runs its body, the batch row is updated, the broadcast operation is
    upserted and the pin submitter is called with the batch, for every
    author, and what the pin submitter returns is the result of the
    dispatch. *)
Theorem dispatchBatch_submits_pin_for_any_author
    (m : Mocks) (batch : Batch) (payload ref : string) :
  RunAsGroup m = storeRunAsGroup ->
  Payload batch = Some payload ->
  PublishData m payload = (ref, None) ->
  UpdateBatch m ref = None ->
  UpsertOperation m ref = None ->
  dispatchBatch m batch
    = ([PublishDataCall payload; RunAsGroupCall; UpdateBatchCall ref;
        UpsertOperationCall (publicstorageName m) ref
          OpTypePublicStorageBatchBroadcast (TX batch);
        SubmitPinnedBatchCall (setPayloadRef batch ref)],
       SubmitPinnedBatch m (setPayloadRef batch ref)).
Proof.
  intros HR HP HPub HU HO. unfold dispatchBatch, submitTXAndUpdateDB.
  rewrite HP, HPub, HR. simpl. rewrite HU, HO. reflexivity.
Qed.

Lemma dispatchBatch_submits_pin_for_any_author_witness :
  dispatchBatch (testMocks storeRunAsGroup) wrongAuthorBatch
    = ([PublishDataCall "{}"; RunAsGroupCall; UpdateBatchCall "id1";
        UpsertOperationCall "ut_publicstorage" "id1"
          OpTypePublicStorageBatchBroadcast None;
        SubmitPinnedBatchCall (setPayloadRef wrongAuthorBatch "id1")],
       Some "pop").
Proof.
  apply (dispatchBatch_submits_pin_for_any_author
           (testMocks storeRunAsGroup) wrongAuthorBatch "{}" "id1");
    reflexivity.
Defined.

(** The batch of the test has a foreign author, and its dispatch calls the
    pin submitter and fails with its error. *)
Lemma foreign_author_batch_is_pinned :
  Author wrongAuthorBatch <> OrgIdentity (testMocks storeRunAsGroup) /\
  Exists isPin (fst (dispatchBatch (testMocks storeRunAsGroup) wrongAuthorBatch)) /\
  snd (dispatchBatch (testMocks storeRunAsGroup) wrongAuthorBatch) = Some "pop".
Proof.
  split; [discriminate|]. split; [|reflexivity].
  vm_compute. do 4 apply Exists_cons_tl. apply Exists_cons_hd. exact I.
Qed.

End BroadcastProperties.

(** ** The private dispatcher *)

Section PrivateMessagingProperties.
Import Go Fftypes PrivateMessaging.

Lemma before_app (P Q : Call -> Prop) (l1 l2 : list Call) :
  Forall (fun c => ~ Q c) l1 ->
  Forall (fun c => ~ P c) l2 ->
  before P Q (l1 ++ l2).
Proof.
  intros H1 H2 i j x y Hi Hj HP HQ.
  destruct (decide (i < length l1)%nat) as [Hlt|Hge].
  - destruct (decide (j < length l1)%nat) as [Hjlt|Hjge]; [|lia].
    rewrite lookup_app_l in Hj by assumption.
    rewrite Forall_lookup in H1. exfalso. exact (H1 _ _ Hj HQ).
  - rewrite lookup_app_r in Hi by lia.
    rewrite Forall_lookup in H2. exfalso. exact (H2 _ _ Hi HP).
Qed.

Lemma blob_not_envelope c : isBlobTransfer c -> ~ isEnvelopeSend c.
Proof. destruct c; simpl; try tauto. intros -> ; discriminate. Qed.

Lemma blob_not_pin c : isBlobTransfer c -> ~ isPin c.
Proof. destruct c; simpl; tauto. Qed.

Lemma envelope_not_blob c : isEnvelopeSend c -> ~ isBlobTransfer c.
Proof. destruct c; simpl; try tauto. intros -> ; discriminate. Qed.

Lemma envelope_not_pin c : isEnvelopeSend c -> ~ isPin c.
Proof. destruct c; simpl; tauto. Qed.

Lemma pin_not_blob c : isPin c -> ~ isBlobTransfer c.
Proof. destruct c; simpl; tauto. Qed.

Lemma pin_not_envelope c : isPin c -> ~ isEnvelopeSend c.
Proof. destruct c; simpl; tauto. Qed.

Lemma transferBlobs_calls m data node :
  Forall isBlobTransfer (fst (transferBlobs m data node)).
Proof.
  induction data as [|d rest IH]; simpl; [constructor|].
  destruct (Blob d ≫= blob_Hash) as [h|]; [|exact IH].
  destruct (GetBlobMatchingHash m h) as [[path|] [e|]]; simpl;
    try (repeat constructor; fail).
  destruct (TransferBLOB m (Peer node) path) as [tracking [e|]]; simpl;
    [repeat constructor|].
  destruct (UpsertOperation m tracking OpTypeDataExchangeBlobSend); simpl;
    [repeat constructor; reflexivity|].
  destruct (transferBlobs m rest node) as [calls' err]. simpl in *.
  repeat constructor; auto.
Qed.

Lemma transferAll_calls m data nodes :
  Forall isBlobTransfer (fst (transferAll m data nodes)).
Proof.
  induction nodes as [|node rest IH]; simpl; [constructor|].
  pose proof (transferBlobs_calls m data node) as Hb.
  destruct (transferBlobs m data node) as [calls [e|]]; simpl in *; [exact Hb|].
  destruct (transferAll m data rest) as [calls' err]. simpl in *.
  apply Forall_app; auto.
Qed.

Lemma sendAll_calls m payload nodes :
  Forall isEnvelopeSend (fst (sendAll m payload nodes)).
Proof.
  induction nodes as [|node rest IH]; simpl; [constructor|].
  destruct (SendMessage m (Peer node) payload) as [tracking [e|]]; simpl;
    [repeat constructor|].
  destruct (UpsertOperation m tracking OpTypeDataExchangeBatchSend); simpl;
    [repeat constructor; reflexivity|].
  destruct (sendAll m payload rest) as [calls' err]. simpl in *.
  repeat constructor; auto.
Qed.

(** The calls of one dispatch fall into three consecutive phases. *)
Lemma sendAndSubmitBatch_phases m batch nodes payload :
  exists blobs envelopes pins,
    fst (sendAndSubmitBatch m batch nodes payload) = blobs ++ envelopes ++ pins /\
    Forall isBlobTransfer blobs /\
    Forall isEnvelopeSend envelopes /\
    Forall isPin pins.
Proof.
  unfold sendAndSubmitBatch.
  pose proof (transferAll_calls m (BatchData batch) nodes) as Hb.
  pose proof (sendAll_calls m payload nodes) as Hs.
  destruct (transferAll m (BatchData batch) nodes) as [calls [e|]]; simpl in *.
  - exists calls, [], []. rewrite !app_nil_r. auto.
  - destruct (sendAll m payload nodes) as [calls' [e|]]; simpl in *.
    + exists calls, calls', []. rewrite app_nil_r. auto.
    + exists calls, calls', [SubmitPinnedBatchCall batch].
      repeat split; auto. repeat constructor.
Qed.

(** C7. Within one private dispatch every call of a blob transfer
    ([GetBlobMatchingHash], [TransferBLOB], the upsert of its
    DataExchangeBlobSend operation) comes before every [SendMessage] and
    every upsert of a DataExchangeBatchSend operation, and all of these
    come before [SubmitPinnedBatch]. *)
Theorem private_dispatch_order
    (m : Mocks) (batch : Batch) (nodes : list Node) (payload : string) :
  let calls := fst (sendAndSubmitBatch m batch nodes payload) in
  before isBlobTransfer isEnvelopeSend calls /\
  before isEnvelopeSend isPin calls /\
  before isBlobTransfer isPin calls.
Proof.
  destruct (sendAndSubmitBatch_phases m batch nodes payload)
    as (blobs & envelopes & pins & Heq & Hb & He & Hp).
  simpl. rewrite Heq. split; [|split].
  - apply before_app.
    + eapply Forall_impl; [exact Hb|]. exact blob_not_envelope.
    + apply Forall_app. split.
      * eapply Forall_impl; [exact He|]. exact envelope_not_blob.
      * eapply Forall_impl; [exact Hp|]. exact pin_not_blob.
  - rewrite app_assoc. apply before_app.
    + apply Forall_app. split.
      * eapply Forall_impl; [exact Hb|]. exact blob_not_pin.
      * eapply Forall_impl; [exact He|]. exact envelope_not_pin.
    + eapply Forall_impl; [exact Hp|]. exact pin_not_envelope.
  - apply before_app.
    + eapply Forall_impl; [exact Hb|]. exact blob_not_pin.
    + apply Forall_app. split.
      * eapply Forall_impl; [exact He|]. exact envelope_not_blob.
      * eapply Forall_impl; [exact Hp|]. exact pin_not_blob.
Qed.

(** TestDispatchBatchWithBlobs on the model: two transfers, two
    envelopes, one pin. *)
Example TestDispatchBatchWithBlobs :
  sendAndSubmitBatch testMocks testBatch testNodes "{}"
    = ([GetBlobMatchingHashCall "blob1"; TransferBLOBCall "node1" "/blob/1";
        UpsertOperationCall "tracking1" OpTypeDataExchangeBlobSend "node1-id";
        GetBlobMatchingHashCall "blob1"; TransferBLOBCall "node2" "/blob/1";
        UpsertOperationCall "tracking2" OpTypeDataExchangeBlobSend "node2-id";
        SendMessageCall "node1" "{}";
        UpsertOperationCall "tracking3" OpTypeDataExchangeBatchSend "node1-id";
        SendMessageCall "node2" "{}";
        UpsertOperationCall "tracking4" OpTypeDataExchangeBatchSend "node2-id";
        SubmitPinnedBatchCall testBatch], None).
Proof. reflexivity. Qed.

Example TestSendAndSubmitBatchBadID :
  sendAndSubmitBatch
    {| GetBlobMatchingHash := fun _ => (None, Some "pop");
       TransferBLOB := fun _ _ => ("", None);
       SendMessage := fun _ _ => ("", None);
       UpsertOperation := fun _ _ => None;
       SubmitPinnedBatch := fun _ => Some "pop" |}
    {| Author := "badauthor"; TX := None; BatchData := [] |} [] "{}"
    = ([SubmitPinnedBatchCall {| Author := "badauthor"; TX := None; BatchData := [] |}],
       Some "pop").
Proof. reflexivity. Qed.

Example TestSendImmediateFail :
  sendAndSubmitBatch
    {| GetBlobMatchingHash := fun _ => (None, None);
       TransferBLOB := fun _ _ => ("", None);
       SendMessage := fun _ _ => ("", Some "pop");
       UpsertOperation := fun _ _ => None;
       SubmitPinnedBatch := fun _ => None |}
    {| Author := "org1"; TX := None; BatchData := [] |}
    [ {| node_ID := "node1-id"; Peer := "node1" |} ] "{}"
    = ([SendMessageCall "node1" "{}"], Some "pop").
Proof. reflexivity. Qed.

Example TestTransferBlobsNotFound :
  transferBlobs
    {| GetBlobMatchingHash := fun _ => (None, None);
       TransferBLOB := fun _ _ => ("", None);
       SendMessage := fun _ _ => ("", None);
       UpsertOperation := fun _ _ => None;
       SubmitPinnedBatch := fun _ => None |}
    [ {| data_ID := Some "data1"; Blob := Some {| blob_Hash := Some "blob1" |} |} ]
    {| node_ID := "node1-id"; Peer := "peer1" |}
    = ([GetBlobMatchingHashCall "blob1"], Some "FF10239").
Proof. reflexivity. Qed.

Example TestTransferBlobsOpInsertFail :
  transferBlobs
    {| GetBlobMatchingHash := fun _ => (Some "blob/1", None);
       TransferBLOB := fun _ _ => ("tracking1", None);
       SendMessage := fun _ _ => ("", None);
       UpsertOperation := fun _ _ => Some "pop";
       SubmitPinnedBatch := fun _ => None |}
    [ {| data_ID := Some "data1"; Blob := Some {| blob_Hash := Some "blob1" |} |} ]
    {| node_ID := "node1-id"; Peer := "peer1" |}
    = ([GetBlobMatchingHashCall "blob1"; TransferBLOBCall "peer1" "blob/1";
        UpsertOperationCall "tracking1" OpTypeDataExchangeBlobSend "node1-id"],
       Some "pop").
Proof. reflexivity. Qed.

End PrivateMessagingProperties.

(** ** The batch processor: retries of processBatch *)

Section RetryProperties.
Import BatchProcessor.

Context {IBatchRecord : Type}.
Variable config : IBatchProcessorConfig.

Abbreviation Batch := (@IDBBatch IBatchRecord).
Abbreviation d := (retryInitialDelayMS config).
Abbreviation m := (retryMultiplier config).
Abbreviation cap := (retryMaxDelayMS config).



Lemma setCompleted_again (b : Batch) (t t' : Z) :
  setCompleted (setCompleted b t) t' = setCompleted b t'.
Proof. reflexivity. Qed.





End RetryProperties.


(** ** The batch processor: the transition system *)

Section MachineProperties.
Import BatchProcessor.

Context {IBatchRecord : Type}.
Variable author type : string.
Variable config : IBatchProcessorConfig.

Abbreviation State := (@BatchProcessor.State IBatchRecord).
Abbreviation Task := (@BatchAssemblyTask IBatchRecord).
Abbreviation Event := (@BatchProcessor.Event IBatchRecord).

Lemma rejectStale_events now (l : list Task) :
  Forall (fun e => exists a dt, e = Rejected a (TimedOut dt) /\ dt > addTimeoutMS config)
    (fst (rejectStale config now l)).
Proof.
  induction l as [|a l IH]; simpl; [constructor|].
  destruct (rejectStale config now l) as [evs keep]. simpl in *.
  destruct (Z.gtb_spec (now - timestamp a) (addTimeoutMS config)); simpl; auto.
  constructor; eauto. eexists _, _. split; eauto. lia.
Qed.

Lemma rejectAnyStale_fields now (s : State) :
  assembling (rejectAnyStale config now s) = assembling s /\
  assemblyBatch (rejectAnyStale config now s) = assemblyBatch s /\
  dispatchTimeout (rejectAnyStale config now s) = dispatchTimeout s /\
  batchInFlight (rejectAnyStale config now s) = batchInFlight s /\
  heap (rejectAnyStale config now s) = heap s /\
  assemblerFrame (rejectAnyStale config now s) = assemblerFrame s /\
  dispatching (rejectAnyStale config now s) = dispatching s /\
  processes (rejectAnyStale config now s) = processes s /\
  assemblyList (rejectAnyStale config now s) = snd (rejectStale config now (assemblyList s)) /\
  events (rejectAnyStale config now s)
    = events s ++ fst (rejectStale config now (assemblyList s)).
Proof.
  unfold rejectAnyStale. destruct (rejectStale config now (assemblyList s)).
  simpl. repeat split.
Qed.


Ltac option_cases :=
  repeat match goal with
  | H : (_ ≫= _) = Some _ |- _ =>
      apply bind_Some in H; destruct H as (? & ? & H)
  | H : (_ <$> _) = Some _ |- _ =>
      apply fmap_Some in H; destruct H as (? & H & ?)
  | H : Some _ = Some _ |- _ => injection H as H
  | H : None = Some _ |- _ => discriminate H
  | H : match ?x with _ => _ end = Some _ |- _ => destruct x eqn:?
  | H : (if ?x then _ else _) = Some _ |- _ => destruct x eqn:?
  end.


Hypothesis max_nonneg : 0 <= batchMaxRecords config.




















(** *** Each batch object is dispatched at most once *)

Lemma refsOK_dispatch (r : ref) (n : nat) (refs : list ref) :
  refsOK (Some r) n refs -> refsOK None n (refs ++ [r]).
Proof.
  intros (Hslot & Hall & Hnd). destruct (Hslot r eq_refl) as [Hlt Hfresh].
  split; [discriminate|]. split.
  - apply Forall_app. split; [assumption|]. repeat constructor. assumption.
  - apply NoDup_app. split; [assumption|]. split; [|apply NoDup_singleton].
    intros x Hx Hr. apply list_elem_of_singleton in Hr. subst x. contradiction.
Qed.

Lemma refsOK_clear (slot : option ref) (n : nat) (refs : list ref) :
  refsOK slot n refs -> refsOK None n refs.
Proof. intros (_ & Hall & Hnd). split; [discriminate|]. split; assumption. Qed.

Lemma refsOK_alloc (n : nat) (refs : list ref) :
  refsOK None n refs -> refsOK (Some n) (S n) refs.
Proof.
  intros (_ & Hall & Hnd). split; [|split; [|assumption]].
  - intros r [= <-]. split; [lia|]. intros Hin.
    rewrite Forall_forall in Hall. specialize (Hall _ Hin). lia.
  - eapply Forall_impl; [exact Hall|]. simpl. intros; lia.
Qed.

Lemma proc_batch_insert (l : list (@Process IBatchRecord)) p proc proc' :
  l !! p = Some proc ->
  proc_batch proc' = proc_batch proc ->
  proc_batch <$> <[p := proc']> l = proc_batch <$> l.
Proof.
  intros Hp Heq. rewrite list_fmap_insert. apply list_insert_id.
  rewrite list_lookup_fmap, Hp. simpl. congruence.
Qed.

Lemma RefsOK_same (s s' : State) :
  assemblyBatch s' = assemblyBatch s ->
  length (heap s') = length (heap s) ->
  proc_batch <$> processes s' = proc_batch <$> processes s ->
  RefsOK s -> RefsOK s'.
Proof. unfold RefsOK. intros -> -> ->. auto. Qed.

Lemma processAttempt_refs now p (s s' : State) :
  processAttempt now p s = Some s' ->
  assemblyBatch s' = assemblyBatch s /\
  length (heap s') = length (heap s) /\
  proc_batch <$> processes s' = proc_batch <$> processes s.
Proof.
  unfold processAttempt. intros H. option_cases. subst s'. simpl.
  split; [reflexivity|]. split; [apply length_insert|].
  eapply proc_batch_insert; eauto.
Qed.

Lemma processCatch_refs p (s s' : State) :
  processCatch config p s = Some s' ->
  assemblyBatch s' = assemblyBatch s /\
  length (heap s') = length (heap s) /\
  proc_batch <$> processes s' = proc_batch <$> processes s.
Proof.
  unfold processCatch. intros H. option_cases. subst s'. simpl.
  split; [reflexivity|]. split; [reflexivity|].
  eapply proc_batch_insert; eauto.
Qed.

Lemma processExit_refs p (s s' : State) :
  processExit p s = Some s' ->
  assemblyBatch s' = assemblyBatch s /\
  length (heap s') = length (heap s) /\
  proc_batch <$> processes s' = proc_batch <$> processes s.
Proof.
  unfold processExit. intros H. option_cases. subst s'. simpl.
  destruct (assemblyBatch s) eqn:Hslot; simpl; rewrite ?Hslot;
    (split; [reflexivity|]); (split; [reflexivity|]);
    eapply proc_batch_insert; eauto.
Qed.

(** [dispatchBody], in full: with an empty slot nothing is started; with
    a batch in the slot one [processBatch] call is started on it. *)
Lemma dispatchBody_empty now (s : State) :
  assemblyBatch s = None ->
  exists s',
    dispatchBody now s = Some s' /\
    assemblyBatch s' = None /\
    dispatchTimeout s' = None /\
    processes s' = processes s /\
    batchInFlight s' = batchInFlight s /\
    heap s' = heap s /\
    assemblerFrame s' = assemblerFrame s /\
    dispatching s' = dispatching s /\
    events s' = events s ++
      match dispatchTimeout s with Some _ => [ClearTimeout] | None => [] end.
Proof.
  intros Hslot. unfold dispatchBody.
  destruct (dispatchTimeout s); simpl; rewrite Hslot; eexists;
    (split; [reflexivity|]); simpl; rewrite ?app_nil_r; repeat split.
Qed.

Lemma dispatchBody_full now (s : State) r b :
  assemblyBatch s = Some r ->
  heap s !! r = Some b ->
  exists s',
    dispatchBody now s = Some s' /\
    assemblyBatch s' = None /\
    dispatchTimeout s' = None /\
    processes s' = processes s ++
      [{| proc_batch := r; attempt := 1; phase := AwaitCallback |}] /\
    batchInFlight s' = Some (length (processes s)) /\
    heap s' = <[r := setCompleted b now]> (heap s) /\
    assemblerFrame s' = assemblerFrame s /\
    dispatching s' = dispatching s /\
    events s' = events s ++
      match dispatchTimeout s with Some _ => [ClearTimeout] | None => [] end ++
      [BatchClosed b; BatchCallback (setCompleted b now)].
Proof.
  intros Hslot Hb. unfold dispatchBody, processAttempt.
  destruct (dispatchTimeout s); simpl; rewrite Hslot, Hb; simpl;
    rewrite list_lookup_middle by reflexivity; simpl; rewrite Hb; simpl;
    eexists; (split; [reflexivity|]); simpl;
    rewrite <- ?app_assoc; simpl; repeat split;
    rewrite insert_app_r_alt by lia; rewrite Nat.sub_diag; reflexivity.
Qed.

Lemma dispatchBody_cases now (s s' : State) :
  dispatchBody now s = Some s' ->
  assemblyBatch s = None \/
  exists r b, assemblyBatch s = Some r /\ heap s !! r = Some b.
Proof.
  unfold dispatchBody. intros H. cbv zeta in H.
  destruct (dispatchTimeout s); simpl in H;
    destruct (assemblyBatch s) as [r|]; auto; right; option_cases; eauto.
Qed.

Lemma RefsOK_dispatchBody now (s s' : State) :
  dispatchBody now s = Some s' -> RefsOK s -> RefsOK s'.
Proof.
  intros H Hs. destruct (dispatchBody_cases _ _ _ H) as [Hnone|(r & b & Hr & Hb)].
  - destruct (dispatchBody_empty now s Hnone)
      as (s1 & H1 & Hslot & _ & Hp & _ & Hh & _).
    rewrite H in H1. injection H1 as <-. unfold RefsOK in *.
    rewrite Hslot, Hp, Hh. eapply refsOK_clear; eauto.
  - destruct (dispatchBody_full now s r b Hr Hb)
      as (s1 & H1 & Hslot & _ & Hp & _ & Hh & _).
    rewrite H in H1. injection H1 as <-. unfold RefsOK in *.
    rewrite Hslot, Hp, Hh, length_insert, fmap_app. simpl.
    apply refsOK_dispatch. rewrite <- Hr. exact Hs.
Qed.

Lemma dispatchReturn_fields o (s : State) :
  assemblyList (dispatchReturn o s) = assemblyList s /\
  assembling (dispatchReturn o s) = assembling s /\
  assemblyBatch (dispatchReturn o s) = assemblyBatch s /\
  dispatchTimeout (dispatchReturn o s) = dispatchTimeout s /\
  batchInFlight (dispatchReturn o s) = batchInFlight s /\
  heap (dispatchReturn o s) = heap s /\
  dispatching (dispatchReturn o s) = dispatching s /\
  processes (dispatchReturn o s) = processes s /\
  events (dispatchReturn o s) = events s.
Proof.
  unfold dispatchReturn. destruct o; [repeat split|].
  destruct (assemblerFrame s) as [| |? ? ?]; repeat split.
Qed.

Lemma RefsOK_dispatchReturn o (s : State) :
  RefsOK s -> RefsOK (dispatchReturn o s).
Proof.
  destruct (dispatchReturn_fields o s) as (_&_&Hslot&_&_&Hh&_&Hp&_).
  apply RefsOK_same; congruence.
Qed.

Lemma RefsOK_dispatchBatch o now (s s' : State) :
  dispatchBatch o now s = Some s' -> RefsOK s -> RefsOK s'.
Proof.
  unfold dispatchBatch. intros H Hs. option_cases.
  - subst s'. exact Hs.
  - subst s'. apply RefsOK_dispatchReturn. eapply RefsOK_dispatchBody; eauto.
Qed.

Lemma RefsOK_rejectAnyStale now (s : State) :
  RefsOK s -> RefsOK (rejectAnyStale config now s).
Proof.
  destruct (rejectAnyStale_fields now s) as (_&Hslot&_&_&Hh&_&_&Hp&_).
  apply RefsOK_same; congruence.
Qed.

Lemma RefsOK_assemblerLoop now uuid (s s' : State) :
  assemblerLoop author type config now uuid s = Some s' -> RefsOK s -> RefsOK s'.
Proof.
  unfold assemblerLoop. intros H Hs.
  apply (RefsOK_rejectAnyStale now) in Hs.
  revert H Hs. generalize (rejectAnyStale config now s). clear s.
  intros s H Hs. cbv zeta in H.
  destruct (assemblyList s) as [|a l] eqn:Hl.
  - injection H as <-. exact Hs.
  - destruct (assemblyBatch s) as [r|] eqn:Hslot; simpl in H.
    + option_cases. subst s'. unfold RefsOK in *. simpl.
      rewrite length_insert. match goal with H : _ = Some r |- _ => rewrite H end.
      rewrite <- Hslot. exact Hs.
    + rewrite list_lookup_middle in H by reflexivity. simpl in H.
      injection H as <-. unfold RefsOK in *. simpl.
      rewrite length_insert, length_app. simpl. rewrite Nat.add_1_r.
      apply refsOK_alloc. rewrite <- Hslot. exact Hs.
Qed.

Lemma RefsOK_step i (s s' : State) :
  step author type config i s = Some s' -> RefsOK s -> RefsOK s'.
Proof.
  unfold step. intros H Hs. destruct (label i) as [r c| |err| |k|p err|p err|p].
  - unfold add, assembler in H.
    assert (Hs1 : RefsOK
              (rejectAnyStale config (now i)
                 (with_assemblyList
                    (assemblyList s ++ [{| timestamp := now i; record := r; caller := c |}])
                    s))).
    { apply RefsOK_rejectAnyStale. exact Hs. }
    revert H Hs1. generalize (rejectAnyStale config (now i)
                 (with_assemblyList
                    (assemblyList s ++ [{| timestamp := now i; record := r; caller := c |}])
                    s)).
    intros s1 H Hs1. destruct (assembling s1).
    + injection H as <-. exact Hs1.
    + eapply RefsOK_assemblerLoop; [exact H|]. exact Hs1.
  - unfold timerFires in H. option_cases.
    eapply RefsOK_dispatchBatch; [exact H|]. exact Hs.
  - unfold assemblerUpserted in H.
    destruct (assemblerFrame s) as [|r chosen sent|]; try discriminate.
    destruct err as [e|].
    + eapply RefsOK_assemblerLoop; [exact H|]. exact Hs.
    + simpl in H. option_cases.
      * eapply RefsOK_dispatchBatch; [exact H|]. exact Hs.
      * eapply RefsOK_assemblerLoop; [exact H|].
        destruct (dispatchTimeout s); exact Hs.
  - unfold assemblerDispatched in H. option_cases.
    eapply RefsOK_assemblerLoop; [exact H|]. exact Hs.
  - unfold dispatchResumes in H. option_cases. subst s'.
    apply RefsOK_dispatchReturn. eapply RefsOK_dispatchBody; [eassumption|].
    exact Hs.
  - unfold callbackSettled in H. option_cases.
    + eapply RefsOK_same; [..|exact Hs]; eapply processCatch_refs; eauto.
    + subst s'. eapply RefsOK_same; [..|exact Hs]; simpl; try reflexivity.
      eapply proc_batch_insert; eauto.
  - unfold processUpserted in H. option_cases.
    + apply processCatch_refs in H. eapply RefsOK_same; [..|exact Hs]; apply H.
    + apply processExit_refs in H. eapply RefsOK_same; [..|exact Hs]; apply H.
  - unfold delayElapsed in H. option_cases.
    apply processAttempt_refs in H. eapply RefsOK_same; [..|exact Hs]; apply H.
Qed.

Lemma RefsOK_run inputs (s s' : State) :
  run author type config inputs s = Some s' -> RefsOK s -> RefsOK s'.
Proof.
  revert s. induction inputs as [|i rest IH]; intros s H Hs; simpl in H.
  - injection H as <-. exact Hs.
  - option_cases. eapply IH; [exact H|]. eapply RefsOK_step; eauto.
Qed.

Lemma RefsOK_init : RefsOK (@init IBatchRecord).
Proof.
  split; [discriminate|]. split; [constructor|]. simpl. apply NoDup_nil_2.
Qed.

(** *** Promises are settled only for a reason *)

Lemma justified_mono (pre pre' : list Event) e :
  (forall x, In x pre -> In x pre') ->
  justified config pre e -> justified config pre' e.
Proof.
  intros Hsub. destruct e as [a id|a [dt|err]|b|b err| | |b|b|t|]; simpl; auto.
  - intros (sent & Hin & Hid & Hrec). eauto.
  - intros (sent & Hin & Hrec). eauto.
Qed.

Lemma justifiedFrom_mono (pre pre' evs : list Event) :
  (forall x, In x pre -> In x pre') ->
  justifiedFrom config pre evs -> justifiedFrom config pre' evs.
Proof.
  revert pre pre'. induction evs as [|e rest IH]; intros pre pre' Hsub; simpl; auto.
  intros [He Hrest]. split; [eapply justified_mono; eauto|].
  eapply IH; [|exact Hrest]. intros x Hx. apply in_app_iff in Hx.
  apply in_app_iff. destruct Hx; auto.
Qed.

Lemma justifiedFrom_app (pre a b : list Event) :
  justifiedFrom config pre (a ++ b) <->
  justifiedFrom config pre a /\ justifiedFrom config (pre ++ a) b.
Proof.
  revert pre. induction a as [|e a IH]; intros pre; simpl.
  - rewrite app_nil_r. tauto.
  - rewrite IH, <- app_assoc. simpl. tauto.
Qed.


Lemma justifiedFrom_free (pre evs : list Event) :
  Forall (free config) evs -> justifiedFrom config pre evs.
Proof.
  revert pre. induction evs as [|e rest IH]; intros pre Hf; simpl; auto.
  inversion Hf as [|? ? He Hrest]; subst. split; [|auto].
  destruct e as [a id|a [dt|err]|b|b err| | |b|b|t|]; simpl in *; tauto.
Qed.

Lemma rejectStale_free now (l : list Task) :
  Forall (free config) (fst (rejectStale config now l)).
Proof.
  eapply Forall_impl; [apply rejectStale_events|].
  intros e (a & dt & -> & Hdt). exact Hdt.
Qed.

Lemma justifiedFrom_resolved (pre : list Event) sent (chosen : list Task) :
  In (UpsertSettled sent None) pre ->
  Forall (fun a => In (record a) (records sent)) chosen ->
  justifiedFrom config pre (map (fun a => Resolved a (batchID sent)) chosen).
Proof.
  revert pre. induction chosen as [|a rest IH]; intros pre Hin Hall; simpl; auto.
  inversion Hall; subst. split; [eauto|].
  apply IH; [apply in_app_iff; auto|assumption].
Qed.

Lemma justifiedFrom_rejected (pre : list Event) sent err (chosen : list Task) :
  In (UpsertSettled sent (Some err)) pre ->
  Forall (fun a => In (record a) (records sent)) chosen ->
  justifiedFrom config pre (map (fun a => Rejected a (Threw err)) chosen).
Proof.
  revert pre. induction chosen as [|a rest IH]; intros pre Hin Hall; simpl; auto.
  inversion Hall; subst. split; [eauto|].
  apply IH; [apply in_app_iff; auto|assumption].
Qed.

Lemma heapIds_refl (h : list (@IDBBatch IBatchRecord)) : heapIds h h.
Proof. intros r b Hb. eauto. Qed.

Lemma heapIds_insert (h : list (@IDBBatch IBatchRecord)) r b b' :
  h !! r = Some b -> batchID b' = batchID b -> heapIds h (<[r := b']> h).
Proof.
  intros Hb Hid q c Hc. destruct (decide (r = q)) as [->|Hne].
  - exists b'. split; [|congruence].
    apply list_lookup_insert_eq. eapply lookup_lt_Some; eauto.
  - exists c. split; [|reflexivity]. rewrite list_lookup_insert_ne; auto.
Qed.

Lemma Settles_neutral (s s' : State) new :
  Settles config s ->
  events s' = events s ++ new ->
  justifiedFrom config (events s) new ->
  sameFrame (assemblerFrame s) (assemblerFrame s') ->
  heapIds (heap s) (heap s') ->
  (forall p proc sent,
     processes s' !! p = Some proc -> phase proc = AwaitUpsert sent ->
     (exists proc0, processes s !! p = Some proc0 /\ phase proc0 = AwaitUpsert sent) \/
     In (UpsertBatch sent) new) ->
  Settles config s'.
Proof.
  intros (Hj & Ha & Hp) Hev Hnew Hframe Hheap Hprocs. split; [|split].
  - rewrite Hev. apply justifiedFrom_app. auto.
  - unfold assemblerOK in *.
    assert (Hgoal : match assemblerFrame s with
        | NotRunning => True
        | AwaitingUpsert r chosen sent =>
            In (UpsertBatch sent) (events s') /\
            Forall (fun a => In (record a) (records sent)) chosen /\
            exists b, heap s' !! r = Some b /\ batchID b = batchID sent
        | AwaitingDispatch r chosen _ =>
            exists b sent,
              heap s' !! r = Some b /\
              In (UpsertSettled sent None) (events s') /\
              batchID sent = batchID b /\
              Forall (fun a => In (record a) (records sent)) chosen
        end).
    { destruct (assemblerFrame s) as [|r chosen sent|r chosen x]; auto.
      - destruct Ha as (Hin & Hall & b & Hb & Hid).
        destruct (Hheap _ _ Hb) as (b' & Hb' & Hid').
        rewrite Hev. split; [apply in_app_iff; auto|]. split; [assumption|].
        exists b'. split; [assumption|congruence].
      - destruct Ha as (b & sent & Hb & Hin & Hid & Hall).
        destruct (Hheap _ _ Hb) as (b' & Hb' & Hid').
        exists b', sent. rewrite Hev.
        split; [assumption|]. split; [apply in_app_iff; auto|].
        split; [congruence|assumption]. }
    destruct Hframe as [->|(r & chosen & x & y & Hf & ->)]; [exact Hgoal|].
    rewrite Hf in Hgoal. exact Hgoal.
  - intros p proc sent Hlook Hphase. rewrite Hev. apply in_app_iff.
    destruct (Hprocs _ _ _ Hlook Hphase) as [(proc0 & H0 & Hph0)|Hin]; [|auto].
    left. eapply Hp; eauto.
Qed.

Lemma insert_phase (l : list (@Process IBatchRecord)) p q proc' proc sent :
  <[p := proc']> l !! q = Some proc ->
  phase proc = AwaitUpsert sent ->
  (forall x, phase proc' <> AwaitUpsert x) ->
  l !! q = Some proc.
Proof.
  intros Hlook Hphase Hne.
  apply list_lookup_insert_Some in Hlook.
  destruct Hlook as [(-> & <- & _)|[_ Hq]]; [|exact Hq].
  exfalso. eapply Hne; eauto.
Qed.

Lemma Settles_processAttempt now p (s s' : State) :
  processAttempt now p s = Some s' -> Settles config s -> Settles config s'.
Proof.
  unfold processAttempt. intros H Hs. option_cases. subst s'.
  eapply (Settles_neutral s _ [BatchCallback _] Hs).
  - reflexivity.
  - apply justifiedFrom_free. repeat constructor.
  - left. reflexivity.
  - simpl. eapply heapIds_insert; eauto.
  - simpl. intros q proc sent Hlook Hphase. left. exists proc. split; [|assumption].
    eapply insert_phase; eauto; simpl; discriminate.
Qed.

Lemma Settles_processCatch p (s s' : State) :
  processCatch config p s = Some s' -> Settles config s -> Settles config s'.
Proof.
  unfold processCatch. intros H Hs. option_cases. subst s'.
  eapply (Settles_neutral s _ [Delay _] Hs).
  - reflexivity.
  - apply justifiedFrom_free. repeat constructor.
  - left. reflexivity.
  - apply heapIds_refl.
  - simpl. intros q proc sent Hlook Hphase. left. exists proc. split; [|assumption].
    eapply insert_phase; eauto; simpl; discriminate.
Qed.

Lemma Settles_processExit p (s s' : State) :
  processExit p s = Some s' -> Settles config s -> Settles config s'.
Proof.
  unfold processExit. intros H Hs. option_cases. subst s'. simpl.
  eapply (Settles_neutral s _
            (match assemblyBatch s with None => [ProcessorComplete] | Some _ => [] end)
            Hs).
  - destruct (assemblyBatch s); simpl; rewrite ?app_nil_r; reflexivity.
  - apply justifiedFrom_free. destruct (assemblyBatch s); repeat constructor.
  - left. destruct (assemblyBatch s); reflexivity.
  - destruct (assemblyBatch s); apply heapIds_refl.
  - intros q proc sent Hlook Hphase. left. exists proc. split; [|assumption].
    destruct (assemblyBatch s); simpl in Hlook;
      (eapply insert_phase; [exact Hlook|exact Hphase|simpl; discriminate]).
Qed.

Lemma Settles_dispatchBody now (s s' : State) :
  dispatchBody now s = Some s' -> Settles config s -> Settles config s'.
Proof.
  intros H Hs. destruct (dispatchBody_cases _ _ _ H) as [Hnone|(r & b & Hr & Hb)].
  - destruct (dispatchBody_empty now s Hnone)
      as (s1 & H1 & _ & _ & Hp & _ & Hh & Ha & _ & Hev).
    rewrite H in H1. injection H1 as <-.
    eapply (Settles_neutral s s' _ Hs Hev).
    + apply justifiedFrom_free. destruct (dispatchTimeout s); repeat constructor.
    + left. exact Ha.
    + rewrite Hh. apply heapIds_refl.
    + rewrite Hp. eauto.
  - destruct (dispatchBody_full now s r b Hr Hb)
      as (s1 & H1 & _ & _ & Hp & _ & Hh & Ha & _ & Hev).
    rewrite H in H1. injection H1 as <-.
    eapply (Settles_neutral s s' _ Hs Hev).
    + apply justifiedFrom_free. destruct (dispatchTimeout s); repeat constructor.
    + left. exact Ha.
    + rewrite Hh. eapply heapIds_insert; eauto.
    + rewrite Hp. intros q proc sent Hlook Hphase. left. exists proc.
      split; [|assumption]. apply lookup_app_Some in Hlook.
      destruct Hlook as [Hl|[_ Hl]]; [exact Hl|].
      destruct (q - length (processes s))%nat; simpl in Hl; [|discriminate].
      injection Hl as <-. discriminate Hphase.
Qed.

Lemma Settles_dispatchReturn o (s : State) :
  Settles config s -> Settles config (dispatchReturn o s).
Proof.
  intros Hs. destruct (dispatchReturn_fields o s) as (_&_&_&_&_&Hh&_&Hp&Hev).
  eapply (Settles_neutral s _ [] Hs).
  - rewrite Hev, app_nil_r. reflexivity.
  - exact I.
  - unfold dispatchReturn. destruct o; [left; reflexivity|].
    destruct (assemblerFrame s) as [| |r chosen x] eqn:Hf; simpl;
      rewrite ?Hf; [left; reflexivity..|].
    right. eauto 10.
  - rewrite Hh. apply heapIds_refl.
  - rewrite Hp. eauto.
Qed.

Lemma Settles_dispatchBatch o now (s s' : State) :
  dispatchBatch o now s = Some s' -> Settles config s -> Settles config s'.
Proof.
  unfold dispatchBatch. intros H Hs. option_cases.
  - subst s'. eapply (Settles_neutral s _ [] Hs); simpl.
    + rewrite app_nil_r. reflexivity.
    + exact I.
    + left. reflexivity.
    + apply heapIds_refl.
    + eauto.
  - subst s'. apply Settles_dispatchReturn. eapply Settles_dispatchBody; eauto.
Qed.

Lemma chosen_in_pushed (b : @IDBBatch IBatchRecord) (chosen : list Task) :
  Forall (fun a => In (record a) (records (pushRecords b (map record chosen)))) chosen.
Proof.
  apply Forall_forall. intros a Ha. simpl. apply in_app_iff. right.
  apply in_map. apply list_elem_of_In. exact Ha.
Qed.

(** The loop needs nothing from the frame it replaces. *)
Lemma Settles_assemblerLoop now uuid (s s' : State) :
  assemblerLoop author type config now uuid s = Some s' ->
  justifiedFrom config [] (events s) ->
  processesOK s ->
  Settles config s'.
Proof.
  unfold assemblerLoop. intros H Hj Hp.
  destruct (rejectAnyStale_fields now s) as (_&_&_&_&_&_&_&Hprocs&_&Hev).
  assert (Hj0 : justifiedFrom config [] (events (rejectAnyStale config now s))).
  { rewrite Hev. apply justifiedFrom_app. split; [assumption|].
    apply justifiedFrom_free. apply rejectStale_free. }
  assert (Hp0 : processesOK (rejectAnyStale config now s)).
  { intros p proc sent Hl Hph. rewrite Hprocs in Hl. rewrite Hev.
    apply in_app_iff. left. eapply Hp; eauto. }
  clear Hj Hp Hprocs Hev. revert H Hj0 Hp0.
  generalize (rejectAnyStale config now s). clear s.
  intros s H Hj Hp. cbv zeta in H.
  destruct (assemblyList s) as [|a l] eqn:Hl.
  - injection H as <-. split; [exact Hj|]. split; [exact I|exact Hp].
  - clear Hl. destruct (assemblyBatch s) as [r|] eqn:Hslot; simpl in H.
    + option_cases. subst s'. split; [|split].
      * simpl. apply justifiedFrom_app. split; [assumption|]. simpl. tauto.
      * unfold assemblerOK. simpl. split; [apply in_app_iff; simpl; auto|].
        split; [apply chosen_in_pushed|].
        eexists. split;
          [apply list_lookup_insert_eq; eapply lookup_lt_Some; eauto|reflexivity].
      * intros p proc sent Hlook Hph. simpl in *. apply in_app_iff. left.
        eapply Hp; eauto.
    + rewrite list_lookup_middle in H by reflexivity. simpl in H.
      injection H as <-. split; [|split].
      * simpl. apply justifiedFrom_app. split; [assumption|]. simpl. tauto.
      * unfold assemblerOK. simpl. split; [apply in_app_iff; simpl; auto|].
        split; [apply (chosen_in_pushed (newBatch author type now uuid))|].
        eexists. split;
          [apply list_lookup_insert_eq; rewrite length_app; simpl; lia|reflexivity].
      * intros p proc sent Hlook Hph. simpl in *. apply in_app_iff. left.
        eapply Hp; eauto.
Qed.

Lemma Settles_loop_after now uuid (s s1 s' : State) new :
  assemblerLoop author type config now uuid s1 = Some s' ->
  Settles config s ->
  events s1 = events s ++ new ->
  justifiedFrom config (events s) new ->
  processes s1 = processes s ->
  Settles config s'.
Proof.
  intros H (Hj & _ & Hp) Hev Hnew Hprocs.
  eapply Settles_assemblerLoop; [exact H| |].
  - rewrite Hev. apply justifiedFrom_app. auto.
  - intros p proc sent Hl Hph. rewrite Hprocs in Hl. rewrite Hev.
    apply in_app_iff. left. eapply Hp; eauto.
Qed.

Lemma Settles_step i (s s' : State) :
  step author type config i s = Some s' -> Settles config s -> Settles config s'.
Proof.
  unfold step. intros H Hs. destruct (label i) as [r c| |err| |k|p err|p err|p].
  - unfold add, assembler in H.
    match type of H with
    | context [rejectAnyStale config ?n ?s0] =>
        destruct (rejectAnyStale_fields n s0) as (_&_&_&_&Hh&Ha&_&Hp&_&Hev);
        remember (rejectAnyStale config n s0) as s1 eqn:Hs1
    end.
    simpl in *. destruct (assembling s1).
    + injection H as <-. eapply (Settles_neutral s s1 _ Hs Hev).
      * apply justifiedFrom_free. apply rejectStale_free.
      * left. exact Ha.
      * rewrite Hh. apply heapIds_refl.
      * rewrite Hp. eauto.
    + eapply (Settles_loop_after _ _ s _ _ _ H Hs); simpl.
      * exact Hev.
      * apply justifiedFrom_free. apply rejectStale_free.
      * exact Hp.
  - unfold timerFires in H. option_cases.
    eapply Settles_dispatchBatch; [exact H|].
    eapply (Settles_neutral s _ [] Hs); simpl.
    + rewrite app_nil_r. reflexivity.
    + exact I.
    + left. reflexivity.
    + apply heapIds_refl.
    + eauto.
  - unfold assemblerUpserted in H. pose proof Hs as (_ & Ha & _).
    unfold assemblerOK in Ha.
    destruct (assemblerFrame s) as [|r chosen sent|] eqn:Hframe; try discriminate.
    destruct Ha as (Hin & Hall & b & Hb & Hid).
    destruct err as [e|].
    + eapply (Settles_loop_after _ _ s _ _
                (UpsertSettled sent (Some e) :: map (fun a => Rejected a (Threw e)) chosen)
                H Hs).
      * simpl. rewrite <- app_assoc. reflexivity.
      * simpl. split; [exact Hin|].
        apply (justifiedFrom_rejected _ sent); [apply in_app_iff; simpl; auto|exact Hall].
      * reflexivity.
    + simpl in H. rewrite Hb in H. simpl in H.
      destruct (Z.of_nat (length (records b)) >=? batchMaxRecords config).
      * eapply Settles_dispatchBatch; [exact H|].
        destruct Hs as (Hj & _ & Hp). split; [|split].
        -- simpl. apply justifiedFrom_app. split; [exact Hj|]. simpl. tauto.
        -- unfold assemblerOK. simpl. exists b, sent.
           split; [exact Hb|]. split; [apply in_app_iff; simpl; auto|].
           split; [congruence|exact Hall].
        -- intros p proc sent' Hl Hph. simpl in *. apply in_app_iff. left.
           eapply Hp; eauto.
      * rewrite Hid in H.
        eapply (Settles_loop_after _ _ s _ _
                  (UpsertSettled sent None ::
                   match dispatchTimeout s with Some _ => [ClearTimeout] | None => [] end ++
                   SetTimeout _ :: map (fun a => Resolved a (batchID sent)) chosen)
                  H Hs).
        -- destruct (dispatchTimeout s); simpl; rewrite <- !app_assoc; reflexivity.
        -- simpl. split; [exact Hin|]. apply justifiedFrom_app. split.
           ++ apply justifiedFrom_free. destruct (dispatchTimeout s); repeat constructor.
           ++ simpl. split; [exact I|]. apply justifiedFrom_resolved; [|exact Hall].
              rewrite !in_app_iff. simpl. auto.
        -- destruct (dispatchTimeout s); reflexivity.
  - unfold assemblerDispatched in H. pose proof Hs as (_ & Ha & _).
    unfold assemblerOK in Ha.
    destruct (assemblerFrame s) as [| |r chosen [|]] eqn:Hframe; try discriminate.
    destruct Ha as (b & sent & Hb & Hin & Hid & Hall).
    rewrite Hb in H. simpl in H. rewrite <- Hid in H.
    eapply (Settles_loop_after _ _ s _ _ _ H Hs); simpl.
    + reflexivity.
    + apply justifiedFrom_resolved; assumption.
    + reflexivity.
  - unfold dispatchResumes in H. option_cases. subst s'.
    apply Settles_dispatchReturn. eapply Settles_dispatchBody; [eassumption|].
    eapply (Settles_neutral s _ [] Hs); simpl.
    + rewrite app_nil_r. reflexivity.
    + exact I.
    + left. reflexivity.
    + apply heapIds_refl.
    + eauto.
  - unfold callbackSettled in H. option_cases.
    + eapply Settles_processCatch; eauto.
    + subst s'. eapply (Settles_neutral s _ [UpsertBatch _] Hs).
      * reflexivity.
      * simpl. tauto.
      * left. reflexivity.
      * apply heapIds_refl.
      * simpl. intros q proc sent Hlook Hphase.
        apply list_lookup_insert_Some in Hlook.
        destruct Hlook as [(-> & <- & _)|[_ Hq]]; [|eauto].
        right. simpl in Hphase. injection Hphase as <-. simpl. auto.
  - unfold processUpserted in H.
    destruct (processes s !! p) as [proc|] eqn:Hlook; simpl in H; [|discriminate].
    destruct (phase proc) as [|sent| |] eqn:Hphase; try discriminate.
    assert (Hs1 : Settles config (emit [UpsertSettled sent err] s)).
    { eapply (Settles_neutral s _ [UpsertSettled sent err] Hs).
      - reflexivity.
      - simpl. split; [|exact I]. destruct Hs as (_ & _ & Hp). eapply Hp; eauto.
      - left. reflexivity.
      - apply heapIds_refl.
      - eauto. }
    destruct err.
    + eapply Settles_processCatch; eauto.
    + eapply Settles_processExit; eauto.
  - unfold delayElapsed in H. option_cases.
    eapply Settles_processAttempt; eauto.
Qed.

Lemma Settles_run inputs (s s' : State) :
  run author type config inputs s = Some s' -> Settles config s -> Settles config s'.
Proof.
  revert s. induction inputs as [|i rest IH]; intros s H Hs; simpl in H.
  - injection H as <-. exact Hs.
  - option_cases. eapply IH; [exact H|]. eapply Settles_step; eauto.
Qed.

Lemma Settles_init : Settles config (@init IBatchRecord).
Proof.
  split; [exact I|]. split; [exact I|]. intros p proc sent Hl. discriminate Hl.
Qed.

(** *** The three properties of the processor *)





(** *** The transition system plays processBatchLoop *)













(** *** The transition system does not get stuck

    In a state reached from the constructor every continuation that is
    suspended can resume, and [add] can always be called: the references
    held by the slot, by the assembler and by the [processBatch] calls all
    point to batch objects. *)

Lemma assemblerLoop_runs now uuid (s : State) :
  RefsOK s -> is_Some (assemblerLoop author type config now uuid s).
Proof.
  intros Hs. apply (RefsOK_rejectAnyStale now) in Hs. unfold assemblerLoop.
  revert Hs. generalize (rejectAnyStale config now s). clear s. intros s Hs.
  cbv zeta. destruct (assemblyList s) as [|a l]; [eauto|].
  destruct (assemblyBatch s) as [r|] eqn:Hslot; cbn.
  - rewrite Hslot. cbn. destruct Hs as (Hr & _). rewrite Hslot in Hr.
    destruct (Hr r eq_refl) as [Hlt _].
    match goal with
    | |- context [?x ≫= _] => destruct x as [b|] eqn:Hb
    end; [cbn; eauto|].
    exfalso. apply lookup_ge_None_1 in Hb. lia.
  - rewrite list_lookup_middle by reflexivity. cbn. eauto.
Qed.

Lemma dispatchBody_runs now (s : State) :
  RefsOK s -> is_Some (dispatchBody now s).
Proof.
  intros (Hr & _). destruct (assemblyBatch s) as [r|] eqn:Hslot.
  - destruct (Hr r eq_refl) as [Hlt _].
    destruct (lookup_lt_is_Some_2 _ _ Hlt) as [b Hb].
    destruct (dispatchBody_full now s r b Hslot Hb) as (s' & H & _). eauto.
  - destruct (dispatchBody_empty now s Hslot) as (s' & H & _). eauto.
Qed.

Lemma dispatchBatch_runs o now (s : State) :
  RefsOK s -> is_Some (dispatchBatch o now s).
Proof.
  intros Hs. unfold dispatchBatch. destruct (batchInFlight s); [eauto|].
  destruct (dispatchBody_runs now s Hs) as [s' H]. rewrite H. simpl. eauto.
Qed.

Lemma process_batch_exists (s : State) p proc :
  RefsOK s -> processes s !! p = Some proc ->
  is_Some (heap s !! proc_batch proc).
Proof.
  intros (_ & Hall & _) Hp. apply lookup_lt_is_Some_2.
  rewrite Forall_lookup in Hall. apply (Hall p).
  rewrite list_lookup_fmap, Hp. reflexivity.
Qed.

Lemma step_enabled (i : Input) (s : State) :
  RefsOK s -> Settles config s ->
  match label i with
  | Add _ _ => True
  | TimerFires => exists t, dispatchTimeout s = Some {| ms := t; fired := false |}
  | AssemblerUpserted _ => exists r chosen sent, assemblerFrame s = AwaitingUpsert r chosen sent
  | AssemblerDispatched => exists r chosen, assemblerFrame s = AwaitingDispatch r chosen true
  | DispatchResumes k =>
      exists w proc, dispatching s !! k = Some w /\
                     processes s !! awaited w = Some proc /\ phase proc = Completed
  | CallbackSettled p _ =>
      exists proc, processes s !! p = Some proc /\ phase proc = AwaitCallback
  | ProcessUpserted p _ =>
      exists proc sent, processes s !! p = Some proc /\ phase proc = AwaitUpsert sent
  | DelayElapsed p =>
      exists proc, processes s !! p = Some proc /\ phase proc = AwaitDelay
  end ->
  is_Some (step author type config i s).
Proof.
  intros Hrefs (_ & Hasm & _) Hen. unfold step.
  destruct (label i) as [r c| |err| |k|p err|p err|p].
  - unfold add, assembler.
    match goal with
    | |- context [rejectAnyStale config ?n ?s0] =>
        assert (Hs1 : RefsOK (rejectAnyStale config n s0))
          by (apply RefsOK_rejectAnyStale; exact Hrefs);
        revert Hs1; generalize (rejectAnyStale config n s0)
    end.
    intros s1 Hs1. destruct (assembling s1); [eauto|].
    apply assemblerLoop_runs. exact Hs1.
  - destruct Hen as (t & Ht). unfold timerFires. rewrite Ht.
    apply dispatchBatch_runs. exact Hrefs.
  - destruct Hen as (r & chosen & sent & Hf). unfold assemblerUpserted, assemblerOK in *.
    rewrite Hf in *. destruct Hasm as (_ & _ & b & Hb & _).
    destruct err as [e|].
    + apply assemblerLoop_runs. exact Hrefs.
    + simpl. rewrite Hb. simpl.
      destruct (Z.of_nat (length (records b)) >=? batchMaxRecords config).
      * apply dispatchBatch_runs. exact Hrefs.
      * apply assemblerLoop_runs. destruct (dispatchTimeout s); exact Hrefs.
  - destruct Hen as (r & chosen & Hf). unfold assemblerDispatched, assemblerOK in *.
    rewrite Hf in *. destruct Hasm as (b & sent & Hb & _).
    rewrite Hb. simpl. apply assemblerLoop_runs. exact Hrefs.
  - destruct Hen as (w & proc & Hw & Hp & Hph). unfold dispatchResumes.
    rewrite Hw. simpl. rewrite Hp. simpl. rewrite Hph.
    destruct (dispatchBody_runs (now i) (with_dispatching (delete k (dispatching s)) s))
      as [s' H]; [exact Hrefs|].
    rewrite H. simpl. eauto.
  - destruct Hen as (proc & Hp & Hph). unfold callbackSettled, processCatch.
    rewrite Hp. simpl. rewrite Hph.
    destruct (process_batch_exists s p proc Hrefs Hp) as [b Hb].
    destruct err; [rewrite ?Hp; simpl; eauto|]. rewrite Hb. simpl. eauto.
  - destruct Hen as (proc & sent & Hp & Hph).
    unfold processUpserted, processCatch, processExit.
    rewrite Hp. simpl. rewrite Hph. destruct err; simpl; rewrite ?Hp; simpl; eauto.
  - destruct Hen as (proc & Hp & Hph). unfold delayElapsed, processAttempt.
    rewrite Hp. simpl. rewrite Hph. simpl. rewrite ?Hp. simpl.
    destruct (process_batch_exists s p proc Hrefs Hp) as [b Hb].
    rewrite Hb. simpl. eauto.
Qed.

(** In particular [add] can be called in every state the processor can
    reach. *)
Lemma add_is_always_possible (inputs : list Input) (s : State) now uuid r c :
  run author type config inputs init = Some s ->
  is_Some (step author type config {| now := now; uuidV4 := uuid; label := Add r c |} s).
Proof.
  intros Hrun. apply step_enabled.
  - exact (RefsOK_run _ _ _ Hrun RefsOK_init).
  - exact (Settles_run _ _ _ Hrun Settles_init).
  - exact I.
Qed.

End MachineProperties.

(** Scenario "add-timeout eviction": the record of the first caller is
    persisted and acknowledged, the second caller is rejected with a
    timeout after 49 ms in the queue. *)
Example add_timeout_eviction :
  BatchProcessor.events (BatchProcessor.sampleRun BatchProcessor.stalledUpsert)
    = [BatchProcessor.UpsertBatch BatchProcessor.firstUpsert;
       BatchProcessor.UpsertSettled BatchProcessor.firstUpsert None;
       BatchProcessor.SetTimeout 50;
       BatchProcessor.Resolved BatchProcessor.firstTask "batch-1";
       BatchProcessor.Rejected BatchProcessor.secondTask (BatchProcessor.TimedOut 49)].
Proof. vm_compute. reflexivity. Qed.

(** [slice] with a negative end leaves out that many elements at the end. *)
Example slice_negative_end :
  BatchProcessor.slice ["r1"; "r2"; "r3"] 0 (Some (-1)) = ["r1"; "r2"] /\
  BatchProcessor.slice ["r1"; "r2"; "r3"] (-1) None = ["r3"].
Proof. split; reflexivity. Qed.




(** ** The token plugin: the event loop as a whole *)

Section EventLoopRuns.
Import Go Fftypes FFTokens.

Context {JSONObject : Type}.
Variable GetString : JSONObject -> string -> string.
Variable GetBool : JSONObject -> string -> bool.
Variable GetObject : JSONObject -> string -> JSONObject.
Variable ParseUUID : string -> option UUID.
Variable Unmarshal : string -> option (wsEvent JSONObject).
Variable TokensOpUpdate : UUID -> OpStatus -> string -> JSONObject -> error.
Variable TokenPoolCreated :
  string -> UUID -> string -> string -> string -> JSONObject -> error.
Variable Send : string -> error.

Abbreviation handleReceipt :=
  (FFTokens.handleReceipt JSONObject GetString GetBool ParseUUID TokensOpUpdate).
Abbreviation handleTokenPoolCreate :=
  (FFTokens.handleTokenPoolCreate JSONObject GetString GetObject ParseUUID TokenPoolCreated).
Abbreviation handleEvent :=
  (FFTokens.handleEvent JSONObject GetString GetBool GetObject ParseUUID
     TokensOpUpdate TokenPoolCreated Send).
Abbreviation eventLoop :=
  (FFTokens.eventLoop JSONObject GetString GetBool GetObject ParseUUID Unmarshal
     TokensOpUpdate TokenPoolCreated Send).
Abbreviation missingPoolField := (FFTokens.missingPoolField JSONObject GetString GetObject).

Abbreviation decoded := (FFTokens.decoded JSONObject Unmarshal).

(** What the two handlers can do. *)
Lemma handleReceipt_effects data :
  acks (fst (handleReceipt data)) = [] /\ ~ In WsClose (fst (handleReceipt data)).
Proof.
  unfold FFTokens.handleReceipt.
  destruct (String.eqb (GetString data "id") ""); [|destruct (ParseUUID _)];
    simpl; (split; [reflexivity|]); intuition discriminate.
Qed.

Lemma handleTokenPoolCreate_effects data :
  acks (fst (handleTokenPoolCreate data)) = [] /\
  ~ In WsClose (fst (handleTokenPoolCreate data)).
Proof.
  unfold FFTokens.handleTokenPoolCreate.
  destruct (_ || _); [|destruct (ParseUUID _)];
    simpl; (split; [reflexivity|]); intuition discriminate.
Qed.

Lemma acks_app (a b : list (Effect JSONObject)) : acks (a ++ b) = acks a ++ acks b.
Proof. apply omap_app. Qed.

(** One event: it is acked at most once, with its own id, only when the
    handler returned nil and the event is no receipt and has an id; and
    the connection is not closed by it. *)
Lemma handleEvent_effects (msg : wsEvent JSONObject) :
  ~ In WsClose (fst (handleEvent msg)) /\
  (acks (fst (handleEvent msg)) = [] \/
   acks (fst (handleEvent msg)) = [ID msg] /\ wantsAck msg = true) /\
  (snd (handleEvent msg) = None ->
   acks (fst (handleEvent msg)) = if wantsAck msg then [ID msg] else []).
Proof.
  unfold FFTokens.handleEvent, wantsAck.
  set (handled := if String.eqb (Event msg) messageReceipt then handleReceipt (Data msg)
                  else if String.eqb (Event msg) messageTokenPool
                       then handleTokenPoolCreate (Data msg)
                       else ([LogError "Message unexpected"], None)).
  assert (Hh : acks (fst handled) = [] /\ ~ In WsClose (fst handled)).
  { subst handled. destruct (String.eqb (Event msg) messageReceipt);
      [apply handleReceipt_effects|].
    destruct (String.eqb (Event msg) messageTokenPool);
      [apply handleTokenPoolCreate_effects|].
    simpl. split; [reflexivity|]. intuition discriminate. }
  destruct handled as [fx err]. simpl in Hh. destruct Hh as [Hacks Hclose].
  destruct err as [e|]; simpl.
  - split; [intros [H|H]; [discriminate H|contradiction]|].
    split; [left|discriminate].
    change (acks fx = []). exact Hacks.
  - destruct (negb (String.eqb (Event msg) messageReceipt)
              && negb (String.eqb (ID msg) "")) eqn:Hack; simpl.
    + split.
      { intros [H|H]; [discriminate H|]. apply in_app_or in H.
        destruct H as [H|[H|[H|[]]]]; [contradiction|discriminate H|discriminate H]. }
      assert (Hx : acks (LogDebug "Received event" ::
                         fx ++ [LogDebug "Sending ack"; WsSend (ID msg)]) = [ID msg]).
      { change (acks (fx ++ [LogDebug "Sending ack"; WsSend (ID msg)]) = [ID msg]).
        rewrite acks_app, Hacks. reflexivity. }
      split; [right; split; [exact Hx|reflexivity]|intros _; exact Hx].
    + split; [intros [H|H]; [discriminate H|contradiction]|].
      split; [left|intros _]; change (acks fx = []); exact Hacks.
Qed.

(** X15. Leaving the loop is final, and until then the loop is
    compositional.  Once the loop has returned, nothing that arrives later
    is read; while it is still waiting, what it does with more input is
    what it has done so far followed by what it does with the new input. *)
Theorem eventLoop_app (l1 l2 : list Incoming) :
  eventLoop (l1 ++ l2)
    = match snd (eventLoop l1) with
      | Exited => eventLoop l1
      | Waiting => (fst (eventLoop l1) ++ fst (eventLoop l2), snd (eventLoop l2))
      end.
Proof.
  induction l1 as [|i l1 IH].
  - simpl. destruct (eventLoop l2); reflexivity.
  - destruct i as [| |msgBytes]; [reflexivity|reflexivity|].
    cbn [app FFTokens.eventLoop].
    destruct (Unmarshal msgBytes) as [msg|].
    + destruct (handleEvent msg) as [fx [e|]]; [reflexivity|].
      rewrite IH. destruct (eventLoop l1) as [fx1 [|]]; simpl.
      * rewrite app_assoc. reflexivity.
      * reflexivity.
    + rewrite IH. destruct (eventLoop l1) as [fx1 [|]]; reflexivity.
Qed.

(** X16. The connection is closed exactly when the loop returns.  While
    the loop is waiting it has not closed the websocket; when it has
    returned, closing the websocket (the deferred [wsconn.Close]) is the
    last thing it did, and it did it once. *)
Theorem eventLoop_closes_on_exit (inputs : list Incoming) :
  match snd (eventLoop inputs) with
  | Waiting => ~ In WsClose (fst (eventLoop inputs))
  | Exited =>
      exists fx, fst (eventLoop inputs) = fx ++ [WsClose] /\ ~ In WsClose fx
  end.
Proof.
  induction inputs as [|i rest IH].
  - simpl. tauto.
  - destruct i as [| |msgBytes].
    + simpl. eexists [_]. split; [reflexivity|]. intros [H|[]]; discriminate H.
    + simpl. eexists [_]. split; [reflexivity|]. intros [H|[]]; discriminate H.
    + cbn [FFTokens.eventLoop].
      destruct (Unmarshal msgBytes) as [msg|].
      * pose proof (handleEvent_effects msg) as (Hclose & _).
        destruct (handleEvent msg) as [fx [e|]]; simpl in Hclose |- *.
        -- exists (fx ++ [LogError "Event loop exiting"]).
           split; [rewrite <- app_assoc; reflexivity|].
           intros H. apply in_app_or in H.
           destruct H as [H|[H|[]]]; [contradiction|discriminate H].
        -- destruct (eventLoop rest) as [fx' [|]]; simpl in IH |- *.
           ++ intros H. apply in_app_or in H. tauto.
           ++ destruct IH as (fx0 & -> & Hno). exists (fx ++ fx0).
              split; [rewrite app_assoc; reflexivity|].
              intros H. apply in_app_or in H. tauto.
      * destruct (eventLoop rest) as [fx' [|]]; simpl in IH |- *.
        -- intros [H|H]; [discriminate H|contradiction].
        -- destruct IH as (fx0 & -> & Hno).
           exists (LogError "Message cannot be parsed as JSON" :: fx0).
           split; [reflexivity|]. intros [H|H]; [discriminate H|contradiction].
Qed.

(** X17. Acks follow the events.  The acks written are, in order of
    arrival, the ids of a first part of the decodable events that are no
    receipts and have an id: no ack is sent for a receipt, for an event
    without id or for bytes that do not parse, none is sent twice or out
    of order. *)
Theorem acks_follow_the_events (inputs : list Incoming) :
  exists unacked,
    map ID (List.filter wantsAck (decoded inputs))
      = acks (fst (eventLoop inputs)) ++ unacked.
Proof.
  induction inputs as [|i rest IH].
  - exists []. reflexivity.
  - destruct i as [| |msgBytes].
    + eexists. reflexivity.
    + eexists. reflexivity.
    + cbn [FFTokens.eventLoop]. destruct IH as (unacked & IH).
      assert (Hd : decoded (Received msgBytes :: rest)
                   = match Unmarshal msgBytes with
                     | Some msg => msg :: decoded rest
                     | None => decoded rest
                     end) by reflexivity.
      rewrite Hd. clear Hd.
      destruct (Unmarshal msgBytes) as [msg|].
      * pose proof (handleEvent_effects msg) as (_ & Hacks & Hnil).
        cbn [List.filter].
        destruct (handleEvent msg) as [fx [e|]]; simpl in Hacks, Hnil |- *.
        -- rewrite acks_app. simpl. rewrite app_nil_r.
           destruct Hacks as [->|[-> ->]]; eexists; reflexivity.
        -- specialize (Hnil eq_refl).
           destruct (eventLoop rest) as [fx' st]. simpl in IH |- *.
           rewrite acks_app, Hnil. exists unacked.
           destruct (wantsAck msg); simpl; rewrite IH; reflexivity.
      * destruct (eventLoop rest) as [fx' st]. simpl in IH |- *.
        exists unacked. exact IH.
Qed.

(** X18. With a healthy environment the loop serves every event.  If
    neither callback nor the websocket send ever returns an error, then
    no sequence of received messages, whether they parse or not and
    whatever they hold, makes the loop return, and the acks written are
    exactly the ids of the decodable events that are no receipts and have
    an id. *)
Theorem healthy_loop_serves_every_event (inputs : list Incoming) :
  (forall operationID status message data,
     TokensOpUpdate operationID status message data = None) ->
  (forall tokenType txID protocolID operator txHash tx,
     TokenPoolCreated tokenType txID protocolID operator txHash tx = None) ->
  (forall ack, Send ack = None) ->
  Forall isReceived inputs ->
  snd (eventLoop inputs) = Waiting /\
  acks (fst (eventLoop inputs)) = map ID (List.filter wantsAck (decoded inputs)).
Proof.
  intros Hop Hpool Hsend Hall.
  assert (Hev : forall msg, snd (handleEvent msg) = None).
  { intros msg. unfold FFTokens.handleEvent.
    assert (Hh : snd (if String.eqb (Event msg) messageReceipt
                      then handleReceipt (Data msg)
                      else if String.eqb (Event msg) messageTokenPool
                           then handleTokenPoolCreate (Data msg)
                           else ([LogError "Message unexpected"], None)) = None).
    { destruct (String.eqb (Event msg) messageReceipt).
      - unfold FFTokens.handleReceipt.
        destruct (String.eqb _ ""); [reflexivity|].
        destruct (ParseUUID _); [apply Hop|reflexivity].
      - destruct (String.eqb (Event msg) messageTokenPool); [|reflexivity].
        unfold FFTokens.handleTokenPoolCreate.
        destruct (_ || _); [reflexivity|].
        destruct (ParseUUID _); [apply Hpool|reflexivity]. }
    destruct (if String.eqb (Event msg) messageReceipt then _ else _) as [fx err].
    simpl in Hh. subst err.
    destruct (negb _ && negb _); [apply Hsend|reflexivity]. }
  induction Hall as [|i rest Hi Hrest IH]; [split; reflexivity|].
  destruct i as [| |msgBytes]; try contradiction.
  cbn [FFTokens.eventLoop].
  assert (Hd : decoded (Received msgBytes :: rest)
               = match Unmarshal msgBytes with
                 | Some msg => msg :: decoded rest
                 | None => decoded rest
                 end) by reflexivity.
  rewrite Hd. clear Hd. destruct IH as [IHst IHacks].
  destruct (Unmarshal msgBytes) as [msg|].
  - pose proof (handleEvent_effects msg) as (_ & _ & Hnil).
    specialize (Hev msg). specialize (Hnil Hev).
    destruct (handleEvent msg) as [fx err]. simpl in Hev, Hnil. subst err.
    destruct (eventLoop rest) as [fx' st]. simpl in IHst, IHacks |- *.
    split; [exact IHst|]. rewrite acks_app, Hnil, IHacks.
    destruct (wantsAck msg); reflexivity.
  - destruct (eventLoop rest) as [fx' st]. simpl in IHst, IHacks |- *.
    split; [exact IHst|exact IHacks].
Qed.

(** X19. Only the environment stops the loop.  An event makes the loop
    return only when a callback that was called for it, or the send of
    its ack, returned the error: a malformed receipt or token-pool event
    and an event of an unknown kind never do. *)
Theorem only_the_environment_stops_the_loop (msg : wsEvent JSONObject) (e : string) :
  snd (handleEvent msg) = Some e ->
  (Event msg = messageReceipt /\
   exists operationID status message,
     TokensOpUpdate operationID status message (Data msg) = Some e /\
     In (TokensOpUpdateCall JSONObject operationID status message (Data msg))
        (fst (handleEvent msg)) /\
     acks (fst (handleEvent msg)) = []) \/
  (Event msg = messageTokenPool /\
   exists tokenType txID protocolID operator txHash tx,
     TokenPoolCreated tokenType txID protocolID operator txHash tx = Some e /\
     In (TokenPoolCreatedCall JSONObject tokenType txID protocolID operator txHash tx)
        (fst (handleEvent msg)) /\
     acks (fst (handleEvent msg)) = []) \/
  (wantsAck msg = true /\ Send (ID msg) = Some e /\
   acks (fst (handleEvent msg)) = [ID msg]).
Proof.
  unfold FFTokens.handleEvent, wantsAck.
  destruct (String.eqb_spec (Event msg) messageReceipt) as [Hr|Hr].
  - unfold FFTokens.handleReceipt.
    destruct (String.eqb (GetString (Data msg) "id") ""); [discriminate|].
    destruct (ParseUUID (GetString (Data msg) "id")) as [op|]; [|discriminate].
    destruct (TokensOpUpdate op _ _ _) as [e'|] eqn:Hcb; simpl; [|discriminate].
    intros He. injection He as ->. left. split; [exact Hr|].
    eexists _, _, _. split; [exact Hcb|]. split; [|reflexivity].
    right. right. left. reflexivity.
  - destruct (String.eqb_spec (Event msg) messageTokenPool) as [Hp|Hp].
    + unfold FFTokens.handleTokenPoolCreate.
      destruct (_ || _).
      * simpl. destruct (String.eqb (ID msg) ""); simpl; [discriminate|].
        intros He. right. right. repeat split; assumption.
      * destruct (ParseUUID (GetString (Data msg) "trackingId")) as [tx|].
        -- destruct (TokenPoolCreated _ tx _ _ _ _) as [e'|] eqn:Hcb; simpl.
           ++ intros He. injection He as ->. right. left. split; [exact Hp|].
              eexists _, _, _, _, _, _. split; [exact Hcb|]. split; [|reflexivity].
              right. left. reflexivity.
           ++ destruct (String.eqb (ID msg) ""); simpl; [discriminate|].
              intros He. right. right. repeat split; assumption.
        -- simpl. destruct (String.eqb (ID msg) ""); simpl; [discriminate|].
           intros He. right. right. repeat split; assumption.
    + simpl. destruct (String.eqb (ID msg) ""); simpl; [discriminate|].
      intros He. right. right. repeat split; assumption.
Qed.

End EventLoopRuns.

(** ** The token plugin: Init, Start and CreateTokenPool *)

Section LifecycleProperties.
Import Go Fftypes FFTokens.Lifecycle.

Context {Prefix Context Callbacks Client WSClient Response JSONObject : Type}.
Variable PrefixGetString : Prefix -> string -> string.
Variable PrefixSet : Prefix -> string -> string -> Prefix.
Variable HTTPConfigURL WSConfigKeyPath : string.
Variable WithLogField : Context -> string -> string -> Context.
Variable MsgMissingPluginConfig : string -> string -> string.
Variable restclientNew : Context -> Prefix -> Client.
Variable wsclientNew : Context -> Prefix -> option WSClient * error.
Variable Connect : WSClient -> error.
Variable Post : option Client -> string -> string -> string -> string -> JSONObject
                -> Response * error.
Variable IsSuccess : Response -> bool.
Variable WrapRestErr : Response -> error -> string.

Abbreviation Plugin := (FFTokens.Lifecycle.Plugin Context Callbacks Client WSClient).
Abbreviation Init :=
  (FFTokens.Lifecycle.Init Prefix Context Callbacks Client WSClient
     PrefixGetString PrefixSet HTTPConfigURL WSConfigKeyPath WithLogField
     MsgMissingPluginConfig restclientNew wsclientNew).
Abbreviation Start :=
  (FFTokens.Lifecycle.Start Context Callbacks Client WSClient Connect).
Abbreviation CreateTokenPool :=
  (FFTokens.Lifecycle.CreateTokenPool Context Callbacks Client WSClient Response
     JSONObject Post IsSuccess WrapRestErr).
Abbreviation withDefaultPath :=
  (FFTokens.Lifecycle.withDefaultPath Prefix PrefixGetString PrefixSet WSConfigKeyPath).

(** X20. When [Init] fails.  [Init] returns nil exactly when the prefix
    has a url and [wsclient.New], given the prefix with the websocket
    path defaulted, returns no error; the event loop is started exactly
    then.  Without a url nothing is created: the clients of the plugin
    and the prefix are left as they were. *)
Theorem Init_succeeds_iff_url_and_websocket (h : Plugin) (ctx0 : Context) (name : string)
    (prefix : Prefix) (cb : Callbacks) :
  (err (Init h ctx0 name prefix cb) = None <->
   PrefixGetString prefix HTTPConfigURL <> "" /\
   snd (wsclientNew ctx0 (withDefaultPath prefix)) = None) /\
  (eventLoopStarted (Init h ctx0 name prefix cb) = true <->
   err (Init h ctx0 name prefix cb) = None) /\
  (PrefixGetString prefix HTTPConfigURL = "" ->
   client (plugin (Init h ctx0 name prefix cb)) = client h /\
   wsconn (plugin (Init h ctx0 name prefix cb)) = wsconn h /\
   capabilities (plugin (Init h ctx0 name prefix cb)) = capabilities h /\
   prefixAfter (Init h ctx0 name prefix cb) = prefix).
Proof.
  unfold FFTokens.Lifecycle.Init.
  destruct (String.eqb_spec (PrefixGetString prefix HTTPConfigURL) "") as [Hurl|Hurl].
  - simpl. split; [split; [discriminate|intros [Hne _]; contradiction]|].
    split; [split; discriminate|]. intros _. repeat split.
  - destruct (wsclientNew ctx0 (withDefaultPath prefix)) as [conn [e|]]; simpl.
    + split; [split; [discriminate|intros [_ Hx]; discriminate Hx]|].
      split; [split; discriminate|]. intros Hx. contradiction.
    + split; [split; [intros _; split; [exact Hurl|reflexivity]|reflexivity]|].
      split; [split; reflexivity|]. intros Hx. contradiction.
Qed.

(** X21. The websocket path.  For a prefix that reads back what is
    written to it, after an [Init] that found a url the websocket path of
    the prefix is never empty: it is the configured one, or "/api/ws" when
    none was configured; the url is untouched. *)
Theorem Init_defaults_the_websocket_path (h : Plugin) (ctx0 : Context) (name : string)
    (prefix : Prefix) (cb : Callbacks) :
  (forall p key value, PrefixGetString (PrefixSet p key value) key = value) ->
  (forall p key key' value,
     key' <> key -> PrefixGetString (PrefixSet p key value) key' = PrefixGetString p key') ->
  HTTPConfigURL <> WSConfigKeyPath ->
  PrefixGetString prefix HTTPConfigURL <> "" ->
  PrefixGetString (prefixAfter (Init h ctx0 name prefix cb)) WSConfigKeyPath
    = (if String.eqb (PrefixGetString prefix WSConfigKeyPath) "" then "/api/ws"
       else PrefixGetString prefix WSConfigKeyPath) /\
  PrefixGetString (prefixAfter (Init h ctx0 name prefix cb)) WSConfigKeyPath <> "" /\
  PrefixGetString (prefixAfter (Init h ctx0 name prefix cb)) HTTPConfigURL
    = PrefixGetString prefix HTTPConfigURL.
Proof.
  intros Hsame Hother Hkeys Hurl. unfold FFTokens.Lifecycle.Init.
  destruct (String.eqb_spec (PrefixGetString prefix HTTPConfigURL) "") as [Hx|_];
    [contradiction|].
  destruct (wsclientNew ctx0 (withDefaultPath prefix)) as [conn e]. simpl.
  unfold FFTokens.Lifecycle.withDefaultPath.
  destruct (String.eqb_spec (PrefixGetString prefix WSConfigKeyPath) "") as [Hp|Hp].
  - rewrite Hsame, Hother by exact Hkeys. repeat split. discriminate.
  - repeat split. exact Hp.
Qed.

(** X22. The plugin works only after [Init].  On the plugin as
    allocated, and on one whose [Init] found no url, [Start] panics.
    After an [Init] that found a url, [Start] connects the connection
    that [wsclient.New] returned, and [CreateTokenPool] posts to
    "/api/v1/pool", on the client that [restclient.New] built from the
    prefix as it was handed in, a body holding the text of the operation
    id and of the transaction id; it returns nil exactly when the post
    returned no error and a success response. *)
Theorem plugin_works_after_Init (ctx0 : Context) (name : string) (prefix : Prefix)
    (cb : Callbacks) :
  (exists reason, Start zero = Panics reason) /\
  (PrefixGetString prefix HTTPConfigURL = "" ->
   exists reason, Start (plugin (Init zero ctx0 name prefix cb)) = Panics reason) /\
  (PrefixGetString prefix HTTPConfigURL <> "" ->
   (forall h conn,
      fst (wsclientNew ctx0 (withDefaultPath prefix)) = Some conn ->
      Start (plugin (Init h ctx0 name prefix cb)) = Returns (Connect conn)) /\
   (forall h operationID pool,
      let posted :=
        Post (Some (restclientNew (WithLogField ctx0 "proto" "fftokens") prefix))
          "/api/v1/pool" (pool_Type pool) operationID (pool_TX_ID pool)
          (pool_Config pool) in
      (CreateTokenPool (plugin (Init h ctx0 name prefix cb)) operationID pool = None <->
       snd posted = None /\ IsSuccess (fst posted) = true))).
Proof.
  split; [eexists; reflexivity|]. unfold FFTokens.Lifecycle.Init. split.
  - intros Hurl. rewrite Hurl. simpl. eexists. reflexivity.
  - intros Hurl.
    destruct (String.eqb_spec (PrefixGetString prefix HTTPConfigURL) "") as [Hx|_];
      [contradiction|].
    split.
    + intros h conn Hconn.
      destruct (wsclientNew ctx0 (withDefaultPath prefix)) as [c e]. simpl in *.
      subst c. reflexivity.
    + intros h operationID pool. cbv zeta.
      destruct (wsclientNew ctx0 (withDefaultPath prefix)) as [c e].
      unfold FFTokens.Lifecycle.CreateTokenPool. simpl.
      destruct (Post _ _ _ _ _ _) as [res [e'|]]; simpl.
      * split; [discriminate|intros [Hx _]; discriminate Hx].
      * destruct (IsSuccess res); split; try discriminate; auto.
        intros [_ Hx]. discriminate Hx.
Qed.

End LifecycleProperties.

(** ** Operations: the two constructors *)

Section ConstructorProperties.
Import Go Fftypes.

(** X23. The two constructors agree.  An operation built by
    [NewMessageDataOp] is the one [NewMessageOp] builds from the same
    arguments, with [Data] set to the id of the indexed data reference;
    the operation of [NewMessageOp] has no [Data].  Both are new: no
    error text, not updated, created at the time of the call, under a
    fresh id. *)
Theorem NewMessageDataOp_extends_NewMessageOp
    {P : Type} `{Named P}
    (NewUUID : UUID) (Now : FFTime) (plugin : P) (backendID : string)
    (msg : Message) (dataIdx : Z) (opType : OpType) (opStatus : OpStatus)
    (recipient : string) (op : Operation) :
  NewMessageDataOp NewUUID Now plugin backendID msg dataIdx opType opStatus recipient
    = Returns op ->
  let base := NewMessageOp NewUUID Now plugin backendID msg opType opStatus recipient in
  op_Data base = None /\
  op = {| op_ID := op_ID base; op_Namespace := op_Namespace base;
          op_Message := op_Message base; op_Data := op_Data op;
          op_Type := op_Type base; op_Recipient := op_Recipient base;
          op_Status := op_Status base; op_Error := op_Error base;
          op_Plugin := op_Plugin base; op_BackendID := op_BackendID base;
          op_Created := op_Created base; op_Updated := op_Updated base |} /\
  (exists d, Data msg !! Z.to_nat dataIdx = Some d /\ op_Data op = ref_ID d) /\
  op_ID op = Some NewUUID /\ op_Created op = Some Now /\
  op_Error op = "" /\ op_Updated op = None /\
  op_Status op = opStatus /\ op_Type op = opType /\ op_Plugin op = Name plugin.
Proof.
  unfold NewMessageDataOp, index. intros Hop. cbv zeta.
  destruct ((dataIdx <? 0) || (Z.of_nat (length (Data msg)) <=? dataIdx));
    [discriminate Hop|].
  destruct (Data msg !! Z.to_nat dataIdx) as [d|] eqn:Hd; [|discriminate Hop].
  injection Hop as <-. simpl. repeat split. exists d. split; reflexivity.
Qed.

(** The blob-send operation of the examples is the message operation with
    the second data reference. *)
Lemma NewMessageDataOp_extends_NewMessageOp_witness :
  op_Data
    (NewMessageOp "op-1" 0 "utdx" "tracking1" sampleMessage
       OpTypeDataExchangeBlobSend OpStatusPending "node1") = None /\
  Returns
    {| op_ID := Some "op-1"; op_Namespace := "ns1";
       op_Message := Some "msg-1"; op_Data := Some "data-1";
       op_Type := OpTypeDataExchangeBlobSend;
       op_Recipient := "node1";
       op_Status := OpStatusPending; op_Error := "";
       op_Plugin := "utdx"; op_BackendID := "tracking1";
       op_Created := Some 0; op_Updated := None |}
  = NewMessageDataOp "op-1" 0 "utdx" "tracking1" sampleMessage 1
      OpTypeDataExchangeBlobSend OpStatusPending "node1".
Proof.
  assert (Hop : NewMessageDataOp "op-1" 0 "utdx" "tracking1"
                  sampleMessage 1 OpTypeDataExchangeBlobSend
                  OpStatusPending "node1"
                = Returns
                    {| op_ID := Some "op-1"; op_Namespace := "ns1";
                       op_Message := Some "msg-1";
                       op_Data := Some "data-1";
                       op_Type := OpTypeDataExchangeBlobSend;
                       op_Recipient := "node1";
                       op_Status := OpStatusPending;
                       op_Error := "";
                       op_Plugin := "utdx"; op_BackendID := "tracking1";
                       op_Created := Some 0; op_Updated := None |})
    by reflexivity.
  destruct (NewMessageDataOp_extends_NewMessageOp "op-1" 0 "utdx" "tracking1"
              sampleMessage 1 OpTypeDataExchangeBlobSend
              OpStatusPending "node1" _ Hop) as (Hbase & _).
  split; [exact Hbase|]. symmetry. exact Hop.
Defined.

End ConstructorProperties.

(** ** The batch processor: the queue, the batch objects and progress *)

Section AssemblyProperties.
Import BatchProcessor.

Context {IBatchRecord : Type}.
Variable author type : string.
Variable config : IBatchProcessorConfig.

Abbreviation State := (@BatchProcessor.State IBatchRecord).
Abbreviation Task := (@BatchAssemblyTask IBatchRecord).
Abbreviation Event := (@BatchProcessor.Event IBatchRecord).
Abbreviation Batch := (@IDBBatch IBatchRecord).

Ltac option_cases :=
  repeat match goal with
  | H : (_ ≫= _) = Some _ |- _ =>
      apply bind_Some in H; destruct H as (? & ? & H)
  | H : (_ <$> _) = Some _ |- _ =>
      apply fmap_Some in H; destruct H as (? & H & ?)
  | H : Some _ = Some _ |- _ => injection H as H
  | H : None = Some _ |- _ => discriminate H
  | H : match ?x with _ => _ end = Some _ |- _ => destruct x eqn:?
  | H : (if ?x then _ else _) = Some _ |- _ => destruct x eqn:?
  end.

(** *** rejectAnyStale *)

Lemma rejectStale_filter now (l : list Task) :
  rejectStale config now l
    = (map (fun a => Rejected a (TimedOut (now - timestamp a)))
         (List.filter (isStale config now) l),
       List.filter (fun a => negb (isStale config now a)) l).
Proof.
  induction l as [|a l IH]; [reflexivity|].
  cbn [rejectStale List.filter]. rewrite IH.
  assert (Ha : isStale config now a = (now - timestamp a >? addTimeoutMS config))
    by reflexivity.
  rewrite <- Ha. destruct (isStale config now a); reflexivity.
Qed.

Lemma filter_fresh_again now (l : list Task) :
  List.filter (isStale config now)
    (List.filter (fun a => negb (isStale config now a)) l) = [] /\
  List.filter (fun a => negb (isStale config now a))
    (List.filter (fun a => negb (isStale config now a)) l)
    = List.filter (fun a => negb (isStale config now a)) l.
Proof.
  induction l as [|a l [IH1 IH2]]; [split; reflexivity|]. simpl.
  destruct (isStale config now a) eqn:Ha; simpl; [split; assumption|].
  rewrite Ha. simpl. rewrite IH1, IH2. split; reflexivity.
Qed.

(** X1. [rejectAnyStale] splits the queue by the test
    [now - timestamp > addTimeoutMS]: the tasks that fail it stay queued
    in their order, each of the others is rejected once, in queue order,
    with the time it has waited, and running it again at the same clock
    value changes nothing. *)
Theorem rejectAnyStale_partitions_queue now (s : State) :
  assemblyList (rejectAnyStale config now s)
    = List.filter (fun a => negb (isStale config now a)) (assemblyList s) /\
  events (rejectAnyStale config now s)
    = events s ++ map (fun a => Rejected a (TimedOut (now - timestamp a)))
                    (List.filter (isStale config now) (assemblyList s)) /\
  rejectAnyStale config now (rejectAnyStale config now s)
    = rejectAnyStale config now s.
Proof.
  unfold rejectAnyStale. rewrite rejectStale_filter. cbn.
  split; [reflexivity|]. split; [reflexivity|].
  rewrite rejectStale_filter.
  destruct (filter_fresh_again now (assemblyList s)) as [-> ->].
  cbn. unfold with_assemblyList, emit. cbn. rewrite app_nil_r. reflexivity.
Qed.

(** *** The retry delay *)



(** *** No task is lost, none is settled twice *)

Lemma slice_split {A} (l : list A) (c : Z) :
  slice l 0 (Some c) ++ slice l c None = l.
Proof.
  unfold slice, relativeIndex. simpl.
  set (len := Z.of_nat (length l)).
  set (f := if c <? 0 then Z.max (len + c) 0 else Z.min c len).
  assert (Hlen : 0 <= len) by (subst len; lia).
  assert (Hf : 0 <= f <= len) by (subst f; destruct (Z.ltb_spec c 0); lia).
  replace (Z.to_nat (Z.min 0 len)) with 0%nat by lia.
  replace (Z.to_nat (f - Z.min 0 len)) with (Z.to_nat f) by lia.
  rewrite drop_0, (take_ge (drop _ _)) by (rewrite length_drop; lia).
  apply take_drop.
Qed.

Lemma settledTasks_app (a b : list Event) :
  settledTasks (a ++ b) = settledTasks a ++ settledTasks b.
Proof. apply omap_app. Qed.

Lemma settledTasks_rejected (chosen : list Task) why :
  settledTasks (map (fun a => Rejected a why) chosen) = chosen.
Proof.
  induction chosen as [|a l IH]; [reflexivity|].
  change (a :: settledTasks (map (fun a => Rejected a why) l) = a :: l).
  rewrite IH. reflexivity.
Qed.

Lemma settledTasks_resolved (chosen : list Task) id :
  settledTasks (map (fun a => Resolved a id) chosen) = chosen.
Proof.
  induction chosen as [|a l IH]; [reflexivity|].
  change (a :: settledTasks (map (fun a => Resolved a id) l) = a :: l).
  rewrite IH. reflexivity.
Qed.

Lemma resolutions_app (a b : list Event) :
  resolutions (a ++ b) = resolutions a ++ resolutions b.
Proof. apply omap_app. Qed.

Lemma timeouts_app (a b : list Event) : timeouts (a ++ b) = timeouts a ++ timeouts b.
Proof. apply omap_app. Qed.

Lemma resolutions_resolved (chosen : list Task) id :
  resolutions (map (fun a => Resolved a id) chosen) = map (fun a => (a, id)) chosen.
Proof.
  induction chosen as [|a l IH]; [reflexivity|].
  change ((a, id) :: resolutions (map (fun a => Resolved a id) l)
          = (a, id) :: map (fun a => (a, id)) l).
  rewrite IH. reflexivity.
Qed.

Lemma resolutions_rejected (l : list Task) (f : Task -> Rejection) :
  resolutions (map (fun a => Rejected a (f a)) l) = [].
Proof.
  induction l as [|a l IH]; [reflexivity|].
  change (resolutions (map (fun a => Rejected a (f a)) l) = []). exact IH.
Qed.

Lemma timeouts_rejected (l : list Task) (f : Task -> Rejection) :
  timeouts (map (fun a => Rejected a (f a)) l) = [].
Proof.
  induction l as [|a l IH]; [reflexivity|].
  change (timeouts (map (fun a => Rejected a (f a)) l) = []). exact IH.
Qed.

Lemma timeouts_resolved (l : list Task) id :
  timeouts (map (fun a => Resolved a id) l) = [].
Proof.
  induction l as [|a l IH]; [reflexivity|].
  change (timeouts (map (fun a => Resolved a id) l) = []). exact IH.
Qed.

Lemma rejectStale_quiet now (l : list Task) :
  resolutions (fst (rejectStale config now l)) = [] /\
  timeouts (fst (rejectStale config now l)) = [].
Proof.
  rewrite rejectStale_filter. cbn [fst]. split.
  - apply (resolutions_rejected _ (fun a => TimedOut (now - timestamp a))).
  - apply (timeouts_rejected _ (fun a => TimedOut (now - timestamp a))).
Qed.

Lemma rejectStale_tasks now (l : list Task) :
  l ≡ₚ snd (rejectStale config now l) ++ settledTasks (fst (rejectStale config now l)).
Proof.
  induction l as [|a l IH]; [reflexivity|]. cbn [rejectStale].
  destruct (rejectStale config now l) as [evs keep]. simpl in IH.
  destruct (now - timestamp a >? addTimeoutMS config); simpl.
  - rewrite IH. apply Permutation_middle.
  - rewrite IH. reflexivity.
Qed.

Lemma rejectAnyStale_tasks now (s : State) :
  assemblyList s ++ settledTasks (events s)
    ≡ₚ assemblyList (rejectAnyStale config now s)
       ++ settledTasks (events (rejectAnyStale config now s)).
Proof.
  destruct (rejectAnyStale_fields config now s) as (_&_&_&_&_&_&_&_&Hl&He).
  rewrite Hl, He, settledTasks_app.
  rewrite (rejectStale_tasks now (assemblyList s)) at 1.
  rewrite <- !app_assoc. apply Permutation_app_head. apply Permutation_app_comm.
Qed.

Ltac tasks_emit :=
  repeat split; unfold settledTasks, resolutions, timeouts; simpl;
  rewrite ?omap_app; simpl; rewrite ?app_nil_r; reflexivity.

Lemma sameTasks_refl (s : State) : sameTasks s s.
Proof. repeat split. Qed.

Lemma sameTasks_trans (s1 s2 s3 : State) :
  sameTasks s1 s2 -> sameTasks s2 s3 -> sameTasks s1 s3.
Proof.
  intros (A1&A2&A3&A4&A5&A6&A7&A8) (B1&B2&B3&B4&B5&B6&B7&B8).
  repeat split; congruence.
Qed.

Lemma sameTasks_known (s s' : State) :
  sameTasks s s' -> knownTasks s' = knownTasks s.
Proof. intros (A1&A2&A3&A4&A5&A6&A7&A8). unfold knownTasks. congruence. Qed.

Lemma sameTasks_oneAssembler (s s' : State) :
  sameTasks s s' -> oneAssembler s -> oneAssembler s'.
Proof. intros (A1&A2&A3&A4&A5&A6&A7&A8). unfold oneAssembler. congruence. Qed.

Lemma sameTasks_tasksStep (s s' : State) :
  sameTasks s s' -> tasksStep config s s'.
Proof.
  intros (A1&A2&A3&A4&A5&A6&A7&A8). split; [left; split; assumption|]. split.
  - exists []. rewrite app_nil_r. split; [exact A7|]. intros a id [].
  - exists []. rewrite app_nil_r. split; [exact A8|]. constructor.
Qed.

Lemma sameTasks_processAttempt now p (s s' : State) :
  processAttempt now p s = Some s' -> sameTasks s s'.
Proof.
  unfold processAttempt. intros H. option_cases. subst s'.
  tasks_emit.
Qed.

Lemma sameTasks_processCatch p (s s' : State) :
  processCatch config p s = Some s' -> sameTasks s s'.
Proof.
  unfold processCatch. intros H. option_cases. subst s'.
  tasks_emit.
Qed.

Lemma sameTasks_processExit p (s s' : State) :
  processExit p s = Some s' -> sameTasks s s'.
Proof.
  unfold processExit. intros H. option_cases. subst s'. simpl.
  destruct (assemblyBatch s); tasks_emit.
Qed.

Lemma sameTasks_emit evs (s : State) :
  settledTasks evs = [] -> resolutions evs = [] -> timeouts evs = [] ->
  sameTasks s (emit evs s).
Proof.
  intros H1 H2 H3. repeat split; cbn [events emit].
  - rewrite settledTasks_app, H1. apply app_nil_r.
  - rewrite resolutions_app, H2. apply app_nil_r.
  - rewrite timeouts_app, H3. apply app_nil_r.
Qed.

Lemma sameTasks_dispatchBody now (s s' : State) :
  dispatchBody now s = Some s' -> sameTasks s s'.
Proof.
  unfold dispatchBody. intros H.
  assert (Hs1 : sameTasks s (match dispatchTimeout s with
                             | Some _ => emit [ClearTimeout] s
                             | None => s
                             end)).
  { destruct (dispatchTimeout s); [apply sameTasks_emit; reflexivity|apply sameTasks_refl]. }
  revert H Hs1. generalize (match dispatchTimeout s with
                            | Some _ => emit [ClearTimeout] s
                            | None => s
                            end).
  intros s1 H Hs1. cbv zeta in H. option_cases.
  - subst s'.
    match goal with
    | H : processAttempt _ _ _ = Some _ |- _ =>
        apply sameTasks_processAttempt in H; rename H into Hpa
    end.
    eapply sameTasks_trans; [exact Hs1|].
    eapply sameTasks_trans; [|eapply sameTasks_trans; [exact Hpa|]].
    + tasks_emit.
    + repeat split.
  - subst s'. eapply sameTasks_trans; [exact Hs1|]. repeat split.
Qed.

Lemma sameTasks_dispatchReturn o (s : State) : sameTasks s (dispatchReturn o s).
Proof.
  unfold dispatchReturn. destruct o; [apply sameTasks_refl|].
  destruct (assemblerFrame s) as [| |r chosen x] eqn:Hf; try apply sameTasks_refl.
  repeat split; simpl; rewrite Hf; reflexivity.
Qed.

Lemma sameTasks_dispatchBatch o now (s s' : State) :
  dispatchBatch o now s = Some s' -> sameTasks s s'.
Proof.
  unfold dispatchBatch. intros H. option_cases; subst s'.
  - repeat split.
  - eapply sameTasks_trans; [eapply sameTasks_dispatchBody; eassumption|].
    apply sameTasks_dispatchReturn.
Qed.

(** The loop of the assembler: whatever was queued or settled before is
    queued, chosen or settled after it, and the flag follows the frame; it
    resolves no promise and sets no timer. *)
Lemma assemblerLoop_tasks now uuid (s s' : State) :
  assemblerLoop author type config now uuid s = Some s' ->
  assembling s = true ->
  oneAssembler s' /\
  assemblyList s ++ settledTasks (events s) ≡ₚ knownTasks s' /\
  resolutions (events s') = resolutions (events s) /\
  timeouts (events s') = timeouts (events s) /\
  ((exists r chosen sent, assemblerFrame s' = AwaitingUpsert r chosen sent) \/
   assemblerFrame s' = NotRunning).
Proof.
  unfold assemblerLoop. intros H Hflag.
  rewrite (rejectAnyStale_tasks now s).
  destruct (rejectAnyStale_fields config now s) as (Ha&_&_&_&_&_&_&_&_&He).
  destruct (rejectStale_quiet now (assemblyList s)) as [Hres Htime].
  assert (Hres1 : resolutions (events (rejectAnyStale config now s))
                  = resolutions (events s))
    by (rewrite He, resolutions_app, Hres; apply app_nil_r).
  assert (Htime1 : timeouts (events (rejectAnyStale config now s))
                   = timeouts (events s))
    by (rewrite He, timeouts_app, Htime; apply app_nil_r).
  rewrite <- Hres1, <- Htime1. rewrite <- Ha in Hflag. clear Ha He Hres Htime Hres1 Htime1.
  revert H Hflag. generalize (rejectAnyStale config now s). clear s.
  intros s H Hflag. cbv zeta in H.
  destruct (assemblyList s) as [|a l] eqn:Hl.
  - injection H as <-. split; [reflexivity|]. unfold knownTasks. simpl.
    rewrite Hl. split; [reflexivity|]. split; [reflexivity|].
    split; [reflexivity|]. right. reflexivity.
  - rewrite <- Hl in *. clear Hl a l.
    destruct (assemblyBatch s) as [r|] eqn:Hslot; simpl in H;
      rewrite ?Hslot in H; simpl in H; option_cases; subst s';
      (split; [exact Hflag|]);
      (split;
       [ unfold knownTasks; simpl;
         rewrite settledTasks_app; simpl; rewrite app_nil_r, app_assoc;
         apply Permutation_app_tail;
         match goal with
         | |- _ ≡ₚ slice _ ?c None ++ _ =>
             rewrite <- (slice_split (assemblyList s) c) at 1
         end; apply Permutation_app_comm
       | cbn [events emit with_assemblerFrame with_heap with_assemblyList
              with_assemblyBatch];
         rewrite resolutions_app, timeouts_app; simpl; rewrite !app_nil_r;
         split; [reflexivity|]; split; [reflexivity|];
         left; eexists _, _, _; reflexivity ]).
Qed.

(** The assembler going round its loop after resolving or rejecting the
    tasks it had chosen. *)
Lemma loop_tasksStep now uuid (s s1 s' : State) rs ts :
  assemblerLoop author type config now uuid s1 = Some s' ->
  assembling s1 = true ->
  resolutions (events s1) = resolutions (events s) ++ rs ->
  (forall a id, In (a, id) rs ->
     In a (chosenOf (assemblerFrame s)) /\
     exists r b, frameRef (assemblerFrame s) = Some r /\
                 heap s !! r = Some b /\ batchID b = id) ->
  timeouts (events s1) = timeouts (events s) ++ ts ->
  Forall (fun ms => ms <= batchTimeoutArrivallMS config) ts ->
  tasksStep config s s'.
Proof.
  intros H Hflag Hres Hrs Htime Hts.
  destruct (assemblerLoop_tasks _ _ _ _ H Hflag) as (_ & _ & Hres' & Htime' & Hf).
  split; [right; exact Hf|]. split.
  - exists rs. rewrite Hres', Hres. split; [reflexivity|exact Hrs].
  - exists ts. rewrite Htime', Htime. split; [reflexivity|exact Hts].
Qed.

Lemma step_tasks (i : Input) (s s' : State) :
  step author type config i s = Some s' ->
  oneAssembler s ->
  oneAssembler s' /\ addedTasks [i] ++ knownTasks s ≡ₚ knownTasks s' /\
  tasksStep config s s'.
Proof.
  unfold step, addedTasks. intros H Hone. simpl.
  destruct (label i) as [r c| |err| |k|p err|p err|p]; simpl.
  - unfold add, assembler in H.
    set (task := {| timestamp := now i; record := r; caller := c |}) in *.
    set (s0 := with_assemblyList (assemblyList s ++ [task]) s) in *.
    assert (H0 : task :: knownTasks s
                 ≡ₚ chosenOf (assemblerFrame s)
                    ++ (assemblyList s0 ++ settledTasks (events s0))).
    { unfold knownTasks. simpl. solve_Permutation. }
    rewrite H0, (rejectAnyStale_tasks (now i) s0).
    destruct (rejectAnyStale_fields config (now i) s0) as (Ha&_&_&_&Hh&Hf&_&_&_&He).
    destruct (rejectStale_quiet (now i) (assemblyList s0)) as [Hres Htime].
    assert (Hres1 : resolutions (events (rejectAnyStale config (now i) s0))
                    = resolutions (events s) ++ [])
      by (rewrite He, resolutions_app, Hres; reflexivity).
    assert (Htime1 : timeouts (events (rejectAnyStale config (now i) s0))
                     = timeouts (events s) ++ [])
      by (rewrite He, timeouts_app, Htime; reflexivity).
    assert (Hone1 : oneAssembler (rejectAnyStale config (now i) s0))
      by (unfold oneAssembler; rewrite Ha, Hf; exact Hone).
    change (assemblerFrame s) with (assemblerFrame s0). rewrite <- Hf.
    assert (Hf' : assemblerFrame (rejectAnyStale config (now i) s0) = assemblerFrame s)
      by exact Hf.
    clear H0 Ha Hf Hh He Hres Htime.
    revert H Hone1 Hres1 Htime1 Hf'. generalize (rejectAnyStale config (now i) s0).
    intros s1 H Hone1 Hres1 Htime1 Hf'. destruct (assembling s1) eqn:Hflag.
    + injection H as <-. split; [exact Hone1|]. split.
      * unfold knownTasks.
        rewrite (Permutation_app_comm (chosenOf _)), <- app_assoc.
        apply Permutation_app_head. apply Permutation_app_comm.
      * split; [left; rewrite Hf'; split; reflexivity|]. split.
        -- exists []. split; [exact Hres1|]. intros a id [].
        -- exists []. split; [exact Htime1|]. constructor.
    + unfold oneAssembler in Hone1. rewrite Hflag in Hone1.
      assert (Hnr : assemblerFrame s1 = NotRunning)
        by (destruct (assemblerFrame s1); [reflexivity|discriminate|discriminate]).
      rewrite Hnr. simpl.
      pose proof (loop_tasksStep _ _ s _ _ [] [] H eq_refl Hres1
                    ltac:(intros a id []) Htime1 ltac:(constructor)) as Hstep.
      apply assemblerLoop_tasks in H; [|reflexivity].
      destruct H as (H1 & H2 & _). split; [exact H1|]. split; [exact H2|exact Hstep].
  - unfold timerFires in H. option_cases.
    match goal with
    | H : dispatchBatch _ _ _ = Some _ |- _ => apply sameTasks_dispatchBatch in H
    end.
    assert (Hs : sameTasks s s') by (eapply sameTasks_trans; [|eassumption]; repeat split).
    split; [eapply sameTasks_oneAssembler; eauto|].
    split; [rewrite (sameTasks_known _ _ Hs); reflexivity|].
    apply sameTasks_tasksStep. exact Hs.
  - unfold assemblerUpserted in H.
    destruct (assemblerFrame s) as [|r chosen sent|] eqn:Hf; try discriminate.
    assert (Hflag : assembling s = true)
      by (unfold oneAssembler in Hone; rewrite Hf in Hone; exact Hone).
    destruct err as [e|].
    + pose proof (loop_tasksStep _ _ s _ _ [] [] H Hflag) as Hstep.
      apply assemblerLoop_tasks in H; [|exact Hflag]. destruct H as (H1 & H2 & _).
      split; [exact H1|]. split.
      * rewrite <- H2. unfold knownTasks. rewrite Hf. simpl.
        rewrite !settledTasks_app, settledTasks_rejected. simpl.
        rewrite app_nil_r. apply Permutation_app_head. apply Permutation_app_comm.
      * apply Hstep.
        -- cbn [events emit]. rewrite !resolutions_app.
           rewrite (resolutions_rejected chosen (fun _ => Threw e)).
           unfold resolutions. simpl. rewrite ?app_nil_r. reflexivity.
        -- intros a id [].
        -- cbn [events emit]. rewrite !timeouts_app.
           rewrite (timeouts_rejected chosen (fun _ => Threw e)).
           unfold timeouts. simpl. rewrite ?app_nil_r. reflexivity.
        -- constructor.
    + simpl in H. option_cases.
      * match goal with
        | H : dispatchBatch _ _ _ = Some _ |- _ => apply sameTasks_dispatchBatch in H
        end.
        assert (Hs : sameTasks s s').
        { eapply sameTasks_trans; [|eassumption]. repeat split; simpl;
            rewrite ?Hf; try reflexivity;
            unfold settledTasks, resolutions, timeouts; rewrite omap_app;
            simpl; apply app_nil_r. }
        split; [eapply sameTasks_oneAssembler; eauto|].
        split; [rewrite (sameTasks_known _ _ Hs); reflexivity|].
        apply sameTasks_tasksStep. exact Hs.
      * match goal with
        | Hb : heap _ !! r = Some ?b |- _ => rename b into batch; rename Hb into Hheap
        end.
        set (t := Z.min (batchTimeoutArrivallMS config)
                    (created batch + batchTimeoutOverallMS config - now i)) in *.
        assert (Hstep : tasksStep config s s').
        { eapply (loop_tasksStep _ _ s _ _
                    (map (fun a => (a, batchID batch)) chosen) [t] H).
          - destruct (dispatchTimeout s); exact Hflag.
          - destruct (dispatchTimeout s); cbn [events emit with_dispatchTimeout];
              rewrite !resolutions_app, resolutions_resolved;
              unfold resolutions; simpl; rewrite ?app_nil_r; reflexivity.
          - intros a id Hin. apply in_map_iff in Hin.
            destruct Hin as (a' & Heq & Hin). injection Heq as -> <-.
            rewrite Hf. split; [exact Hin|].
            exists r, batch. split; [reflexivity|]. split; [exact Hheap|reflexivity].
          - destruct (dispatchTimeout s); cbn [events emit with_dispatchTimeout];
              rewrite !timeouts_app, timeouts_resolved;
              unfold timeouts; simpl; rewrite ?app_nil_r; reflexivity.
          - constructor; [subst t; lia|constructor]. }
        apply assemblerLoop_tasks in H;
          [|destruct (dispatchTimeout s); exact Hflag].
        destruct H as (H1 & H2 & _). split; [exact H1|]. split; [|exact Hstep].
        rewrite <- H2. unfold knownTasks. rewrite Hf. simpl.
        assert (He : forall evs : list Event,
                   settledTasks evs = settledTasks (events s) ->
                   settledTasks ((evs ++ [SetTimeout t])
                     ++ map (fun a => Resolved a (batchID batch)) chosen)
                   = settledTasks (events s) ++ chosen).
        { intros evs Hevs. rewrite !settledTasks_app, settledTasks_resolved, Hevs.
          simpl. rewrite app_nil_r. reflexivity. }
        destruct (dispatchTimeout s); simpl; rewrite He;
          try (apply Permutation_app_head; apply Permutation_app_comm);
          rewrite !settledTasks_app; simpl; rewrite ?app_nil_r; reflexivity.
  - unfold assemblerDispatched in H.
    destruct (assemblerFrame s) as [| |r chosen [|]] eqn:Hf; try discriminate.
    assert (Hflag : assembling s = true)
      by (unfold oneAssembler in Hone; rewrite Hf in Hone; exact Hone).
    option_cases.
    match goal with
    | Hb : heap _ !! r = Some ?b |- _ => rename b into batch; rename Hb into Hheap
    end.
    assert (Hstep : tasksStep config s s').
    { eapply (loop_tasksStep _ _ s _ _
                (map (fun a => (a, batchID batch)) chosen) [] H).
      - exact Hflag.
      - cbn [events emit]. rewrite resolutions_app, resolutions_resolved. reflexivity.
      - intros a id Hin. apply in_map_iff in Hin.
        destruct Hin as (a' & Heq & Hin). injection Heq as -> <-.
        rewrite Hf. split; [exact Hin|].
        exists r, batch. split; [reflexivity|]. split; [exact Hheap|reflexivity].
      - cbn [events emit]. rewrite timeouts_app, timeouts_resolved. reflexivity.
      - constructor. }
    apply assemblerLoop_tasks in H; [|exact Hflag].
    destruct H as (H1 & H2 & _). split; [exact H1|]. split; [|exact Hstep].
    rewrite <- H2. unfold knownTasks. rewrite Hf. simpl.
    rewrite settledTasks_app, settledTasks_resolved.
    apply Permutation_app_head. apply Permutation_app_comm.
  - unfold dispatchResumes in H. option_cases. subst s'.
    match goal with
    | H : dispatchBody _ _ = Some _ |- _ => apply sameTasks_dispatchBody in H
    end.
    match goal with
    | |- context [dispatchReturn ?o ?x] =>
        assert (Hs : sameTasks s (dispatchReturn o x))
    end.
    { eapply sameTasks_trans; [|apply sameTasks_dispatchReturn].
      eapply sameTasks_trans; [|eassumption]. repeat split. }
    split; [eapply sameTasks_oneAssembler; eauto|].
    split; [rewrite (sameTasks_known _ _ Hs); reflexivity|].
    apply sameTasks_tasksStep. exact Hs.
  - unfold callbackSettled in H. option_cases.
    + apply sameTasks_processCatch in H.
      split; [eapply sameTasks_oneAssembler; eauto|].
      split; [rewrite (sameTasks_known _ _ H); reflexivity|].
      apply sameTasks_tasksStep. exact H.
    + subst s'.
      match goal with
      | |- context [emit ?e ?x] => assert (Hs : sameTasks s (emit e x))
      end.
      { tasks_emit. }
      split; [eapply sameTasks_oneAssembler; eauto|].
      split; [rewrite (sameTasks_known _ _ Hs); reflexivity|].
      apply sameTasks_tasksStep. exact Hs.
  - unfold processUpserted in H. option_cases.
    + apply sameTasks_processCatch in H.
      assert (Hs : sameTasks s s').
      { eapply sameTasks_trans; [|eassumption]. apply sameTasks_emit; reflexivity. }
      split; [eapply sameTasks_oneAssembler; eauto|].
      split; [rewrite (sameTasks_known _ _ Hs); reflexivity|].
      apply sameTasks_tasksStep. exact Hs.
    + apply sameTasks_processExit in H.
      assert (Hs : sameTasks s s').
      { eapply sameTasks_trans; [|eassumption]. apply sameTasks_emit; reflexivity. }
      split; [eapply sameTasks_oneAssembler; eauto|].
      split; [rewrite (sameTasks_known _ _ Hs); reflexivity|].
      apply sameTasks_tasksStep. exact Hs.
  - unfold delayElapsed in H. option_cases.
    apply sameTasks_processAttempt in H.
    split; [eapply sameTasks_oneAssembler; eauto|].
    split; [rewrite (sameTasks_known _ _ H); reflexivity|].
    apply sameTasks_tasksStep. exact H.
Qed.

Lemma oneAssembler_init : oneAssembler (@init IBatchRecord).
Proof. reflexivity. Qed.

Lemma addedTasks_cons (i : Input) (rest : list (@Input IBatchRecord)) :
  addedTasks (i :: rest) = addedTasks [i] ++ addedTasks rest.
Proof. apply (omap_app _ [i] rest). Qed.

Lemma run_tasks (inputs : list Input) (s s' : State) :
  run author type config inputs s = Some s' ->
  oneAssembler s ->
  oneAssembler s' /\ addedTasks inputs ++ knownTasks s ≡ₚ knownTasks s'.
Proof.
  revert s. induction inputs as [|i rest IH]; intros s H Hone.
  - injection H as <-. split; [exact Hone|reflexivity].
  - simpl in H. option_cases.
    match goal with
    | Hstep : step _ _ _ _ _ = Some ?s1 |- _ =>
        destruct (step_tasks _ _ _ Hstep Hone) as (Hone1 & Hperm & _);
        destruct (IH s1 H Hone1) as [Hone' Hperm']
    end.
    split; [exact Hone'|]. rewrite <- Hperm', <- Hperm.
    rewrite (addedTasks_cons i rest).
    solve_Permutation.
Qed.

Lemma batchesSeen_app (a b : list Event) :
  batchesSeen (a ++ b) = batchesSeen a ++ batchesSeen b.
Proof. apply omap_app. Qed.

Lemma batchesSeen_rejected (l : list Task) (f : Task -> Rejection) :
  batchesSeen (map (fun a => Rejected a (f a)) l) = [].
Proof.
  induction l as [|a l IH]; [reflexivity|].
  change (batchesSeen (map (fun a => Rejected a (f a)) l) = []). exact IH.
Qed.

(** X3. Only one assembler runs at a time.  In every state the processor
    can reach, [assembling] is set exactly while an [assembler] call is
    suspended at one of its awaits; and an [add] that arrives meanwhile
    only queues its task and rejects the stale ones: it creates and
    changes no batch, calls neither [upsertBatch] nor the batch callback,
    and leaves the suspended assembler as it is. *)
Theorem one_assembler_at_a_time (inputs : list Input) (s : State) :
  run author type config inputs init = Some s ->
  oneAssembler s /\
  forall now uuid r c,
    assemblerFrame s <> NotRunning ->
    exists s',
      step author type config {| now := now; uuidV4 := uuid; label := Add r c |} s
        = Some s' /\
      assemblyList s'
        = List.filter (fun a => negb (isStale config now a))
            (assemblyList s ++ [{| timestamp := now; record := r; caller := c |}]) /\
      heap s' = heap s /\
      assemblyBatch s' = assemblyBatch s /\
      assemblerFrame s' = assemblerFrame s /\
      processes s' = processes s /\
      batchesSeen (events s') = batchesSeen (events s).
Proof.
  intros Hrun.
  destruct (run_tasks _ _ _ Hrun oneAssembler_init) as [Hone _].
  split; [exact Hone|]. intros now uuid r c Hf.
  unfold step, add, assembler. cbn [label BatchProcessor.now BatchProcessor.uuidV4].
  set (s0 := with_assemblyList _ s).
  destruct (rejectAnyStale_fields config now s0) as (Ha&Hb&_&_&Hh&Hfr&_&Hp&Hl&He).
  assert (Hflag : assembling (rejectAnyStale config now s0) = true).
  { rewrite Ha. unfold oneAssembler in Hone. subst s0. cbn. rewrite Hone.
    destruct (assemblerFrame s); [contradiction|reflexivity|reflexivity]. }
  rewrite Hflag. eexists. split; [reflexivity|].
  rewrite Hl, He, Hh, Hb, Hfr, Hp, rejectStale_filter. cbn [fst snd].
  repeat split. rewrite batchesSeen_app.
  rewrite (batchesSeen_rejected _ (fun a => TimedOut (now - timestamp a))).
  apply app_nil_r.
Qed.

(** X4. No task is lost and none is settled twice.  After any run from
    the constructor, the tasks queued by the [add] calls are, up to
    order, exactly those still in the queue, those the suspended
    assembler has chosen, and those whose promise has been settled; so
    when the callers are distinct no caller is settled more than once,
    and every settled task was added. *)
Theorem every_task_is_accounted_for (inputs : list Input) (s : State) :
  run author type config inputs init = Some s ->
  addedTasks inputs
    ≡ₚ assemblyList s ++ chosenOf (assemblerFrame s) ++ settledTasks (events s) /\
  (forall a, In a (settledTasks (events s)) -> In a (addedTasks inputs)) /\
  (NoDup (caller <$> addedTasks inputs) ->
   NoDup (caller <$> settledTasks (events s))).
Proof.
  intros Hrun.
  destruct (run_tasks _ _ _ Hrun oneAssembler_init) as [_ Hperm].
  unfold knownTasks in Hperm. simpl in Hperm. rewrite app_nil_r in Hperm.
  split; [exact Hperm|]. split.
  - intros a Ha. apply list_elem_of_In. rewrite Hperm.
    rewrite !elem_of_app. right. right. apply list_elem_of_In. exact Ha.
  - intros Hnd. rewrite Hperm, !fmap_app in Hnd.
    apply NoDup_app in Hnd. destruct Hnd as (_ & _ & Hnd).
    apply NoDup_app in Hnd. destruct Hnd as (_ & _ & Hnd). exact Hnd.
Qed.

(** *** What a step does to the batch objects *)

Lemma seen_closed (evs : list Event) (b : Batch) :
  In (BatchClosed b) evs -> In b (batchesSeen evs).
Proof.
  intros H. apply list_elem_of_In, list_elem_of_omap.
  exists (BatchClosed b). split; [apply list_elem_of_In; exact H|reflexivity].
Qed.

Lemma seen_upsert (evs : list Event) (b : Batch) :
  In (UpsertBatch b) evs -> In b (batchesSeen evs).
Proof.
  intros H. apply list_elem_of_In, list_elem_of_omap.
  exists (UpsertBatch b). split; [apply list_elem_of_In; exact H|reflexivity].
Qed.

Lemma batchesSeen_resolved (l : list Task) id :
  batchesSeen (map (fun a => Resolved a id) l) = [].
Proof.
  induction l as [|a l IH]; [reflexivity|].
  change (batchesSeen (map (fun a => Resolved a id) l) = []). exact IH.
Qed.

Lemma In_insert (h : list Batch) r b :
  (r < length h)%nat -> In b (<[r := b]> h).
Proof.
  intros Hr. apply list_elem_of_In. eapply list_elem_of_lookup_2.
  apply list_lookup_insert_eq. exact Hr.
Qed.

Lemma In_lookup (h : list Batch) r b : h !! r = Some b -> In b h.
Proof. intros H. apply list_elem_of_In. eapply list_elem_of_lookup_2. exact H. Qed.

(** A step that changes no batch object. *)
Lemma batchesStep_neutral (s s' : State) new more :
  heap s' = heap s ->
  events s' = events s ++ new ->
  (forall b, In b (batchesSeen new) -> In b (heap s)) ->
  (forall b, ~ In (BatchClosed b) new) ->
  proc_batch <$> processes s' = (proc_batch <$> processes s) ++ more ->
  (forall r chosen sent,
     assemblerFrame s' = AwaitingUpsert r chosen sent ->
     assemblerFrame s = AwaitingUpsert r chosen sent) ->
  batchesStep author type config s s'.
Proof.
  intros Hh He Hseen Hclosed Hp Hf. exists new.
  split; [exact He|]. split; [rewrite Hh; lia|]. split.
  { intros r b' Hb. left. exists b'. rewrite <- Hh. split; [exact Hb|left; reflexivity]. }
  split; [intros b Hb; left; apply Hseen; exact Hb|].
  split; [intros b Hb; destruct (Hclosed b Hb)|].
  split; [exists more; exact Hp|].
  intros r chosen sent Hfr. left. apply Hf. exact Hfr.
Qed.

(** Steps of the function after some that touch no batch. *)
Lemma batchesStep_after (s s1 s' : State) pre :
  heap s1 = heap s ->
  assemblyBatch s1 = assemblyBatch s ->
  processes s1 = processes s ->
  events s1 = events s ++ pre ->
  batchesSeen pre = [] ->
  (forall r chosen sent,
     assemblerFrame s1 = AwaitingUpsert r chosen sent ->
     assemblerFrame s = AwaitingUpsert r chosen sent) ->
  batchesStep author type config s1 s' ->
  batchesStep author type config s s'.
Proof.
  intros Hh Hslot Hp He Hpre Hf (new & He' & Hlen & Horigin & Hseen & Hclosed & Hrefs & Hfr).
  exists (pre ++ new).
  split; [rewrite He', He, app_assoc; reflexivity|].
  split; [rewrite <- Hh; exact Hlen|]. split.
  { intros r b' Hb. destruct (Horigin r b' Hb) as [(b & Hb0 & Hor)|(b & q & Hq & Hwhere & Hrest)].
    - left. exists b. rewrite <- Hh. split; assumption.
    - right. exists b, q. split; [exact Hq|]. rewrite <- Hh, <- Hslot.
      split; [exact Hwhere|]. cbv zeta in *. destruct Hrest as (Hb' & Hfr' & Hin).
      split; [exact Hb'|]. split; [exact Hfr'|]. apply in_or_app. right. exact Hin. }
  split.
  { intros b Hb. rewrite batchesSeen_app, Hpre in Hb. rewrite <- Hh. apply Hseen. exact Hb. }
  split.
  { intros b Hb. apply in_app_or in Hb. destruct Hb as [Hb|Hb].
    - apply seen_closed in Hb. rewrite Hpre in Hb. destruct Hb.
    - rewrite <- Hh, <- Hslot. apply Hclosed. exact Hb. }
  split; [rewrite <- Hp; exact Hrefs|].
  intros r chosen sent Hx. destruct (Hfr r chosen sent Hx) as [Hy|Hy]; [left; auto|right; exact Hy].
Qed.

Lemma batchesStep_processAttempt now p (s s' : State) :
  processAttempt now p s = Some s' -> batchesStep author type config s s'.
Proof.
  intros H. pose proof (processAttempt_refs _ _ _ _ H) as (_ & _ & Hrefs).
  unfold processAttempt in H. option_cases. subst s'.
  match goal with
  | Hb : heap s !! proc_batch ?pr = Some ?b |- _ =>
      rename Hb into Hheap; set (r := proc_batch pr) in *; set (b0 := b) in *
  end.
  assert (Hr : (r < length (heap s))%nat) by (eapply lookup_lt_Some; exact Hheap).
  exists [BatchCallback (setCompleted b0 now)]. cbn.
  split; [reflexivity|]. split; [rewrite length_insert; lia|]. split.
  { intros r' b' Hb. apply list_lookup_insert_Some in Hb.
    destruct Hb as [(<- & <- & _)|(Hne & Hb)]; left.
    - exists b0. split; [exact Hheap|right; exists now; reflexivity].
    - exists b'. split; [exact Hb|left; reflexivity]. }
  split.
  { intros b [<-|[]]. right. apply In_insert. exact Hr. }
  split; [intros b [Hb|[]]; discriminate Hb|].
  split; [exists []; rewrite app_nil_r; exact Hrefs|].
  intros r' chosen sent Hf. left. exact Hf.
Qed.

Lemma batchesStep_processCatch p (s s' : State) :
  processCatch config p s = Some s' -> batchesStep author type config s s'.
Proof.
  intros H. pose proof (processCatch_refs _ _ _ _ H) as (_ & _ & Hrefs).
  unfold processCatch in H. option_cases. subst s'.
  eapply (batchesStep_neutral _ _ _ []); try reflexivity.
  - intros b [].
  - intros b [Hb|[]]. discriminate Hb.
  - rewrite app_nil_r. exact Hrefs.
  - auto.
Qed.

Lemma batchesStep_processExit p (s s' : State) :
  processExit p s = Some s' -> batchesStep author type config s s'.
Proof.
  intros H. pose proof (processExit_refs _ _ _ H) as (_ & _ & Hrefs).
  unfold processExit in H. option_cases. subst s'. cbn in *.
  destruct (assemblyBatch s).
  - eapply (batchesStep_neutral _ _ [] []); try reflexivity.
    + cbn. rewrite app_nil_r. reflexivity.
    + intros b [].
    + intros b [].
    + rewrite app_nil_r. exact Hrefs.
    + auto.
  - eapply (batchesStep_neutral _ _ _ []); try reflexivity.
    + intros b [].
    + intros b [Hb|[]]. discriminate Hb.
    + rewrite app_nil_r. exact Hrefs.
    + auto.
Qed.

Lemma batchesStep_dispatchBody now (s s' : State) :
  dispatchBody now s = Some s' -> batchesStep author type config s s'.
Proof.
  intros H. destruct (dispatchBody_cases _ _ _ H) as [Hslot|(r & b & Hslot & Hb)].
  - destruct (dispatchBody_empty now s Hslot)
      as (s2 & H2 & _ & _ & Hp & _ & Hh & Hf & _ & He).
    rewrite H in H2. injection H2 as <-.
    eapply (batchesStep_neutral _ _ _ []); try eassumption.
    + destruct (dispatchTimeout s); intros b0 Hb0; cbn in Hb0; contradiction.
    + destruct (dispatchTimeout s); intros b0 Hb0; cbn in Hb0;
        [destruct Hb0 as [Hx|Hx]; [discriminate Hx|contradiction]|contradiction].
    + rewrite Hp, app_nil_r. reflexivity.
    + intros r chosen sent Hx. rewrite <- Hf. exact Hx.
  - destruct (dispatchBody_full now s r b Hslot Hb)
      as (s2 & H2 & _ & _ & Hp & _ & Hh & Hf & _ & He).
    rewrite H in H2. injection H2 as <-.
    assert (Hr : (r < length (heap s))%nat) by (eapply lookup_lt_Some; exact Hb).
    eexists. split; [exact He|]. split; [rewrite Hh, length_insert; lia|]. split.
    { intros r' b' Hb'. rewrite Hh in Hb'. apply list_lookup_insert_Some in Hb'.
      destruct Hb' as [(<- & <- & _)|(Hne & Hb')]; left.
      - exists b. split; [exact Hb|right; exists now; reflexivity].
      - exists b'. split; [exact Hb'|left; reflexivity]. }
    split.
    { intros b0 Hb0. rewrite batchesSeen_app in Hb0. apply in_app_or in Hb0.
      destruct Hb0 as [Hb0|Hb0];
        [destruct (dispatchTimeout s); cbn in Hb0; contradiction|].
      destruct Hb0 as [<-|[<-|[]]].
      - left. eapply In_lookup. exact Hb.
      - right. rewrite Hh. apply In_insert. exact Hr. }
    split.
    { intros b0 Hb0. apply in_app_or in Hb0.
      destruct Hb0 as [Hb0|Hb0].
      - destruct (dispatchTimeout s); [destruct Hb0 as [Hx|[]]; discriminate Hx|destruct Hb0].
      - destruct Hb0 as [Hx|[Hx|[]]]; [|discriminate Hx].
        injection Hx as <-. exists r. split; assumption. }
    split; [exists [r]; rewrite Hp, fmap_app; reflexivity|].
    intros r' chosen sent Hx. left. rewrite <- Hf. exact Hx.
Qed.

Lemma dispatchReturn_frame o (s : State) r chosen sent :
  assemblerFrame (dispatchReturn o s) = AwaitingUpsert r chosen sent <->
  assemblerFrame s = AwaitingUpsert r chosen sent.
Proof.
  unfold dispatchReturn. destruct o; [reflexivity|].
  destruct (assemblerFrame s) eqn:Hf; simpl; rewrite ?Hf; try reflexivity.
  split; discriminate.
Qed.

Lemma batchesStep_dispatchReturn o (s s1 : State) :
  batchesStep author type config s s1 ->
  batchesStep author type config s (dispatchReturn o s1).
Proof.
  intros (new & He & Hlen & Horigin & Hseen & Hclosed & Hrefs & Hfr).
  destruct (dispatchReturn_fields o s1) as (_&_&_&_&_&Hh&_&Hp&Hev).
  exists new. rewrite Hh, Hp, Hev.
  split; [exact He|]. split; [exact Hlen|]. split.
  { intros r b' Hb. destruct (Horigin r b' Hb) as [Hl|(b & q & Hq & Hwhere & Hrest)];
      [left; exact Hl|].
    right. exists b, q. split; [exact Hq|]. split; [exact Hwhere|].
    cbv zeta in *. destruct Hrest as (Hb' & Hfr' & Hin).
    split; [exact Hb'|]. split; [|exact Hin]. apply dispatchReturn_frame. exact Hfr'. }
  split; [exact Hseen|]. split; [exact Hclosed|]. split; [exact Hrefs|].
  intros r chosen sent Hx. apply dispatchReturn_frame in Hx. apply Hfr. exact Hx.
Qed.

Lemma batchesStep_dispatchBatch o now (s s' : State) :
  dispatchBatch o now s = Some s' -> batchesStep author type config s s'.
Proof.
  unfold dispatchBatch. intros H. option_cases; subst s'.
  - eapply (batchesStep_neutral _ _ [] []); try reflexivity.
    + cbn. rewrite app_nil_r. reflexivity.
    + intros b [].
    + intros b [].
    + cbn. rewrite app_nil_r. reflexivity.
    + auto.
  - apply batchesStep_dispatchReturn. eapply batchesStep_dispatchBody. eassumption.
Qed.

Lemma batchesStep_assemblerLoop now uuid (s s' : State) :
  assemblerLoop author type config now uuid s = Some s' ->
  batchesStep author type config s s'.
Proof.
  unfold assemblerLoop. intros H.
  destruct (rejectAnyStale_fields config now s) as (_&Hslot&_&_&Hh&Hf&_&Hp&_&He).
  eapply (batchesStep_after s (rejectAnyStale config now s));
    [exact Hh|exact Hslot|exact Hp|exact He| |intros r c x Hx; rewrite <- Hf; exact Hx|].
  { rewrite rejectStale_filter. cbn [fst].
    apply (batchesSeen_rejected _ (fun a => TimedOut (now - timestamp a))). }
  clear Hslot Hh Hf Hp He.
  revert H. generalize (rejectAnyStale config now s). clear s.
  intros s H. cbv zeta in H.
  destruct (assemblyList s) as [|a l] eqn:Hl.
  - injection H as <-.
    eapply (batchesStep_neutral _ _ [] []); try reflexivity.
    + cbn. rewrite app_nil_r. reflexivity.
    + intros b [].
    + intros b [].
    + cbn. rewrite app_nil_r. reflexivity.
    + cbn. discriminate.
  - assert (Hq : assemblyList s <> []) by (rewrite Hl; discriminate).
    clear Hl a l.
    destruct (assemblyBatch s) as [r|] eqn:Hslot; cbn in H; rewrite ?Hslot in H; cbn in H.
    + option_cases. subst s'.
      match goal with Hb : heap s !! r = Some ?b |- _ => rename Hb into Hheap; rename b into batch end.
      assert (Hr : (r < length (heap s))%nat) by (eapply lookup_lt_Some; exact Hheap).
      eexists. cbn. split; [reflexivity|]. split; [rewrite length_insert; lia|]. split.
      { intros r' b' Hb. apply list_lookup_insert_Some in Hb.
        destruct Hb as [(<- & <- & _)|(Hne & Hb)].
        - right. exists batch, (assemblyList s). split; [exact Hq|].
          split; [left; split; [exact Hheap|exact Hslot]|].
          cbv zeta. split; [reflexivity|]. split; [reflexivity|]. left. reflexivity.
        - left. exists b'. split; [exact Hb|left; reflexivity]. }
      split; [intros b [<-|[]]; right; apply In_insert; exact Hr|].
      split; [intros b [Hb|[]]; discriminate Hb|].
      split; [exists []; rewrite app_nil_r; reflexivity|].
      intros r' chosen sent Hx. injection Hx as <- <- <-. right.
      split; [apply list_lookup_insert_eq; exact Hr|]. eexists. reflexivity.
    + rewrite list_lookup_middle in H by reflexivity. cbn in H.
      injection H as <-.
      eexists. cbn. split; [reflexivity|].
      split; [rewrite length_insert, length_app; lia|]. split.
      { intros r' b' Hb. apply list_lookup_insert_Some in Hb.
        destruct Hb as [(<- & <- & _)|(Hne & Hb)].
        - right. exists (newBatch author type now uuid), (assemblyList s).
          split; [exact Hq|]. split.
          { right. split; [apply lookup_ge_None_2; lia|]. split; [exact Hslot|].
            exists now, uuid. reflexivity. }
          cbv zeta. split; [reflexivity|]. split; [reflexivity|]. left. reflexivity.
        - left. exists b'. split; [|left; reflexivity].
          apply lookup_app_Some in Hb. destruct Hb as [Hb|[Hge Hb]]; [exact Hb|].
          exfalso. apply Hne.
          assert ((r' - length (heap s) < 1)%nat) by (eapply (lookup_lt_Some [_]); exact Hb).
          lia. }
      split.
      { intros b [<-|[]]. right. apply In_insert. rewrite length_app. simpl. lia. }
      split; [intros b [Hb|[]]; discriminate Hb|].
      split; [exists []; rewrite app_nil_r; reflexivity|].
      intros r' chosen sent Hx. injection Hx as <- <- <-. right.
      split; [apply list_lookup_insert_eq; rewrite length_app; simpl; lia|].
      eexists. reflexivity.
Qed.

Lemma batchesSeen_threw (l : list Task) e :
  batchesSeen (map (fun a => Rejected a (Threw e)) l) = [].
Proof. apply (batchesSeen_rejected l (fun _ => Threw e)). Qed.

Lemma batchesSeen_stale now (l : list Task) :
  batchesSeen (fst (rejectStale config now l)) = [].
Proof.
  rewrite rejectStale_filter. cbn [fst].
  apply (batchesSeen_rejected _ (fun a => TimedOut (now - timestamp a))).
Qed.

Ltac seen_nil :=
  rewrite ?batchesSeen_app, ?batchesSeen_resolved, ?batchesSeen_threw,
    ?batchesSeen_stale;
  reflexivity.

Ltac after_prefix s pre tac :=
  eapply (batchesStep_after s _ _ pre); [ | | | | | | tac];
    [ reflexivity | reflexivity | reflexivity
    | cbn; rewrite ?app_nil_r, <- ?app_assoc; reflexivity
    | seen_nil
    | cbn; first [discriminate | auto] ].

Lemma step_batches (i : Input) (s s' : State) :
  step author type config i s = Some s' -> batchesStep author type config s s'.
Proof.
  unfold step. intros H.
  destruct (label i) as [r c| |err| |k|p err|p err|p].
  - unfold add, assembler in H.
    set (s0 := with_assemblyList _ s) in H.
    destruct (rejectAnyStale_fields config (now i) s0) as (_&Hslot&_&_&Hh&Hf&_&Hp&_&He).
    assert (Hseen : batchesSeen (fst (rejectStale config (now i) (assemblyList s0))) = [])
      by apply batchesSeen_stale.
    revert H Hslot Hh Hf Hp He Hseen.
    generalize (fst (rejectStale config (now i) (assemblyList s0))).
    generalize (rejectAnyStale config (now i) s0). subst s0. cbn.
    intros s1 pre H Hslot Hh Hf Hp He Hseen.
    destruct (assembling s1).
    + injection H as <-.
      eapply (batchesStep_neutral _ _ pre []); try assumption.
      * intros b Hb. rewrite Hseen in Hb. destruct Hb.
      * intros b Hb. apply seen_closed in Hb. rewrite Hseen in Hb. destruct Hb.
      * rewrite Hp, app_nil_r. reflexivity.
      * intros r0 c0 x Hx. rewrite <- Hf. exact Hx.
    + eapply (batchesStep_after s (with_assembling true s1) s' pre); try assumption.
      * intros r0 c0 x Hx. rewrite <- Hf. exact Hx.
      * eapply batchesStep_assemblerLoop. exact H.
  - unfold timerFires in H. option_cases.
    after_prefix s (@nil Event) ltac:(eapply batchesStep_dispatchBatch; exact H).
  - unfold assemblerUpserted in H.
    destruct (assemblerFrame s) as [|r chosen sent|] eqn:Hf; try discriminate.
    destruct err as [e|].
    + after_prefix s ([UpsertSettled sent (Some e)]
                      ++ map (fun a : Task => Rejected a (Threw e)) chosen)
      ltac:(eapply batchesStep_assemblerLoop; exact H).
    + cbn in H. option_cases.
      * after_prefix s [@UpsertSettled IBatchRecord sent None]
      ltac:(eapply batchesStep_dispatchBatch; exact H).
      * match goal with
        | Hb : heap s !! r = Some ?b |- _ => rename b into batch
        end.
        destruct (dispatchTimeout s).
        -- after_prefix s ([UpsertSettled sent None; ClearTimeout;
                            SetTimeout (Z.min (batchTimeoutArrivallMS config)
                              (created batch + batchTimeoutOverallMS config - now i))]
                           ++ map (fun a : Task => Resolved a (batchID batch)) chosen)
      ltac:(eapply batchesStep_assemblerLoop; exact H).
        -- after_prefix s ([UpsertSettled sent None;
                            SetTimeout (Z.min (batchTimeoutArrivallMS config)
                              (created batch + batchTimeoutOverallMS config - now i))]
                           ++ map (fun a : Task => Resolved a (batchID batch)) chosen)
      ltac:(eapply batchesStep_assemblerLoop; exact H).
  - unfold assemblerDispatched in H.
    destruct (assemblerFrame s) as [| |r chosen [|]] eqn:Hf; try discriminate.
    option_cases.
    match goal with
    | Hb : heap s !! r = Some ?b |- _ => rename b into batch
    end.
    after_prefix s (map (fun a : Task => Resolved a (batchID batch)) chosen)
      ltac:(eapply batchesStep_assemblerLoop; exact H).
  - unfold dispatchResumes in H. option_cases. subst s'.
    apply batchesStep_dispatchReturn.
    after_prefix s (@nil Event) ltac:(eapply batchesStep_dispatchBody; eassumption).
  - unfold callbackSettled in H. option_cases.
    + eapply batchesStep_processCatch. exact H.
    + subst s'.
      match goal with
      | Hb : heap s !! _ = Some ?b, Hp : processes s !! p = Some ?pr |- _ =>
          eapply (batchesStep_neutral _ _ [UpsertBatch b] []); try reflexivity;
          [ intros b0 [<-|[]]; eapply In_lookup; exact Hb
          | intros b0 [Hx|[]]; discriminate Hx
          | cbn; rewrite app_nil_r; eapply proc_batch_insert; [exact Hp|reflexivity]
          | auto ]
      end.
  - unfold processUpserted in H. option_cases.
    + match goal with
      | Hp : phase _ = AwaitUpsert ?sent |- _ =>
          after_prefix s [@UpsertSettled IBatchRecord sent (Some s0)]
            ltac:(eapply batchesStep_processCatch; exact H)
      end.
    + match goal with
      | Hp : phase _ = AwaitUpsert ?sent |- _ =>
          after_prefix s [@UpsertSettled IBatchRecord sent None]
            ltac:(eapply batchesStep_processExit; exact H)
      end.
  - unfold delayElapsed in H. option_cases.
    eapply batchesStep_processAttempt. exact H.
Qed.

(** *** Batch objects over a run *)

Lemma extends_refl (b : Batch) : extends b b.
Proof. repeat split. exists []. rewrite app_nil_r. reflexivity. Qed.

Lemma extends_trans (b1 b2 b3 : Batch) :
  extends b1 b2 -> extends b2 b3 -> extends b1 b3.
Proof.
  intros (A1&A2&A3&A4&m1&A5) (B1&B2&B3&B4&m2&B5).
  repeat split; try congruence.
  exists (m1 ++ m2). rewrite B5, A5, app_assoc. reflexivity.
Qed.

Lemma batchOrigin_extends (s s' : State) new r (b b' : Batch) :
  batchOrigin author type config s s' new r b' ->
  heap s !! r = Some b ->
  extends b b' /\
  (assemblyBatch s <> Some r -> records b' = records b).
Proof.
  intros [(b0 & Hb0 & Hor)|(b0 & q & _ & Hwhere & Hrest)] Hb.
  - rewrite Hb in Hb0. injection Hb0 as <-.
    destruct Hor as [->|(now & ->)].
    + split; [apply extends_refl|reflexivity].
    + split; [|reflexivity]. repeat split. exists []. simpl. rewrite app_nil_r. reflexivity.
  - cbv zeta in Hrest. destruct Hrest as (-> & _ & _).
    destruct Hwhere as [(Hb0 & Hslot)|(Hnone & _)]; [|congruence].
    rewrite Hb in Hb0. injection Hb0 as <-.
    split; [|intros Hne; contradiction].
    repeat split. eexists. reflexivity.
Qed.

Lemma step_extends (i : Input) (s s' : State) r (b : Batch) :
  step author type config i s = Some s' ->
  heap s !! r = Some b ->
  exists b', heap s' !! r = Some b' /\ extends b b' /\
             (assemblyBatch s <> Some r -> records b' = records b).
Proof.
  intros Hstep Hb.
  destruct (step_batches _ _ _ Hstep) as (new & _ & Hlen & Horigin & _).
  assert (Hr : (r < length (heap s'))%nat).
  { apply lookup_lt_Some in Hb. lia. }
  destruct (lookup_lt_is_Some_2 _ _ Hr) as [b' Hb'].
  exists b'. split; [exact Hb'|].
  eapply batchOrigin_extends; [apply Horigin; exact Hb'|exact Hb].
Qed.

Lemma run_extends (inputs : list Input) (s s' : State) r (b : Batch) :
  run author type config inputs s = Some s' ->
  heap s !! r = Some b ->
  exists b', heap s' !! r = Some b' /\ extends b b'.
Proof.
  revert s b. induction inputs as [|i rest IH]; intros s b H Hb.
  - injection H as <-. exists b. split; [exact Hb|apply extends_refl].
  - simpl in H. option_cases.
    match goal with
    | Hstep : step _ _ _ _ _ = Some ?s1 |- _ =>
        destruct (step_extends _ _ _ _ _ Hstep Hb) as (b1 & Hb1 & He1 & _);
        destruct (IH s1 b1 H Hb1) as (b' & Hb' & He')
    end.
    exists b'. split; [exact Hb'|]. eapply extends_trans; eassumption.
Qed.

(** X5. Batch objects are append-only.  Whatever happens next, a batch
    object stays where it is and keeps its type, author, id and creation
    time, and its records are only appended to: no step removes or
    reorders a record that has been put into a batch. *)
Theorem batches_are_append_only (inputs : list Input) (s s' : State) r (b : Batch) :
  run author type config inputs s = Some s' ->
  heap s !! r = Some b ->
  exists b',
    heap s' !! r = Some b' /\
    batch_type b' = batch_type b /\ batch_author b' = batch_author b /\
    batchID b' = batchID b /\ created b' = created b /\
    exists more, records b' = records b ++ more.
Proof.
  intros Hrun Hb. destruct (run_extends _ _ _ _ _ Hrun Hb) as (b' & Hb' & He).
  exists b'. split; [exact Hb'|exact He].
Qed.

Lemma step_frozen (i : Input) (s s' : State) p proc (b : Batch) :
  RefsOK s ->
  step author type config i s = Some s' ->
  processes s !! p = Some proc ->
  heap s !! proc_batch proc = Some b ->
  exists proc' b',
    processes s' !! p = Some proc' /\ proc_batch proc' = proc_batch proc /\
    heap s' !! proc_batch proc = Some b' /\
    extends b b' /\ records b' = records b.
Proof.
  intros Hrefs Hstep Hp Hb.
  destruct (step_extends _ _ _ _ _ Hstep Hb) as (b' & Hb' & He & Hrec).
  destruct (step_batches _ _ _ Hstep) as (_ & _ & _ & _ & _ & _ & (more & Hmore) & _).
  assert (Hp' : (proc_batch <$> processes s') !! p = Some (proc_batch proc)).
  { rewrite Hmore. apply lookup_app_l_Some. rewrite list_lookup_fmap, Hp. reflexivity. }
  rewrite list_lookup_fmap in Hp'. apply fmap_Some in Hp'.
  destruct Hp' as (proc' & Hproc' & Heq).
  exists proc', b'. split; [exact Hproc'|]. split; [symmetry; exact Heq|].
  split; [exact Hb'|]. split; [exact He|]. apply Hrec.
  intros Hslot. destruct Hrefs as (Hr & _).
  destruct (Hr _ Hslot) as [_ Hnot]. apply Hnot.
  apply list_elem_of_fmap. exists proc. split; [reflexivity|].
  eapply list_elem_of_lookup_2. exact Hp.
Qed.

Lemma run_frozen (inputs : list Input) (s s' : State) p proc (b : Batch) :
  RefsOK s ->
  run author type config inputs s = Some s' ->
  processes s !! p = Some proc ->
  heap s !! proc_batch proc = Some b ->
  exists proc' b',
    processes s' !! p = Some proc' /\ proc_batch proc' = proc_batch proc /\
    heap s' !! proc_batch proc = Some b' /\
    extends b b' /\ records b' = records b.
Proof.
  revert s proc b. induction inputs as [|i rest IH]; intros s proc b Hrefs H Hp Hb.
  - injection H as <-. exists proc, b.
    repeat split; try assumption. exists []. rewrite app_nil_r. reflexivity.
  - simpl in H. option_cases.
    match goal with
    | Hstep : step _ _ _ _ _ = Some ?s1 |- _ =>
        destruct (step_frozen _ _ _ _ _ _ Hrefs Hstep Hp Hb)
          as (proc1 & b1 & Hp1 & Hpb1 & Hb1 & He1 & Hr1);
        pose proof (RefsOK_step _ _ _ _ _ _ Hstep Hrefs) as Hrefs1;
        rewrite <- Hpb1 in Hb1;
        destruct (IH s1 proc1 b1 Hrefs1 H Hp1 Hb1)
          as (proc' & b' & Hp' & Hpb' & Hb' & He' & Hr')
    end.
    exists proc', b'. split; [exact Hp'|]. split; [congruence|].
    split; [rewrite <- Hpb1; exact Hb'|].
    split; [eapply extends_trans; eassumption|congruence].
Qed.

(** X6. A dispatched batch is frozen.  Once [dispatchBatch] has handed a
    batch to [processBatch], the call keeps that batch, and through every
    later add, timer, upsert and retry the batch keeps exactly the records
    it was closed with (and its id, type, author and creation time): only
    [completed] is stamped again. *)
Theorem dispatched_batch_is_frozen (inputs later : list Input) (s s' : State)
    p proc (b : Batch) :
  run author type config inputs init = Some s ->
  processes s !! p = Some proc ->
  heap s !! proc_batch proc = Some b ->
  run author type config later s = Some s' ->
  exists proc' b',
    processes s' !! p = Some proc' /\ proc_batch proc' = proc_batch proc /\
    heap s' !! proc_batch proc = Some b' /\
    records b' = records b /\ batchID b' = batchID b /\
    created b' = created b /\ batch_type b' = batch_type b /\
    batch_author b' = batch_author b.
Proof.
  intros Hrun Hp Hb Hlater.
  pose proof (RefsOK_run _ _ _ _ _ _ Hrun (@RefsOK_init IBatchRecord)) as Hrefs.
  destruct (run_frozen _ _ _ _ _ _ Hrefs Hlater Hp Hb)
    as (proc' & b' & Hp' & Hpb & Hb' & (E1&E2&E3&E4&_) & Hr).
  exists proc', b'. repeat split; assumption.
Qed.

(** *** What holds of every batch object *)

Lemma step_Forall_batches (P : Batch -> Prop) (i : Input) (s s' : State) :
  (forall b now, P b -> P (setCompleted b now)) ->
  (forall b rs, P b -> P (pushRecords b rs)) ->
  (forall now uuid (q : list Task),
     q <> [] ->
     P (pushRecords (newBatch author type now uuid)
          (map record (slice q 0 (Some (batchMaxRecords config - 0)))))) ->
  step author type config i s = Some s' ->
  Forall P (heap s) -> Forall P (batchesSeen (events s)) ->
  Forall P (heap s') /\ Forall P (batchesSeen (events s')).
Proof.
  intros Hstamp Hpush Hnew Hstep Hheap Hseen.
  destruct (step_batches _ _ _ Hstep) as (new & He & _ & Horigin & Hnewseen & _).
  assert (Hheap' : Forall P (heap s')).
  { apply Forall_lookup. intros r b' Hb'.
    destruct (Horigin r b' Hb') as [(b & Hb & Hor)|(b & q & Hq & Hwhere & Hrest)].
    - pose proof (Forall_lookup_1 _ _ _ _ Hheap Hb) as HP.
      destruct Hor as [->|(now & ->)]; auto.
    - cbv zeta in Hrest. destruct Hrest as (-> & _ & _).
      destruct Hwhere as [(Hb & _)|(_ & _ & now & uuid & ->)].
      + apply Hpush. exact (Forall_lookup_1 _ _ _ _ Hheap Hb).
      + apply Hnew. exact Hq. }
  split; [exact Hheap'|]. rewrite He, batchesSeen_app. apply Forall_app.
  split; [exact Hseen|]. apply Forall_forall. intros b Hb.
  apply list_elem_of_In in Hb.
  destruct (Hnewseen b Hb) as [Hin|Hin]; apply list_elem_of_In in Hin.
  - rewrite Forall_forall in Hheap. auto.
  - rewrite Forall_forall in Hheap'. auto.
Qed.

Lemma run_Forall_batches (P : Batch -> Prop) (inputs : list Input) (s s' : State) :
  (forall b now, P b -> P (setCompleted b now)) ->
  (forall b rs, P b -> P (pushRecords b rs)) ->
  (forall now uuid (q : list Task),
     q <> [] ->
     P (pushRecords (newBatch author type now uuid)
          (map record (slice q 0 (Some (batchMaxRecords config - 0)))))) ->
  run author type config inputs s = Some s' ->
  Forall P (heap s) -> Forall P (batchesSeen (events s)) ->
  Forall P (heap s') /\ Forall P (batchesSeen (events s')).
Proof.
  intros Hstamp Hpush Hnew. revert s.
  induction inputs as [|i rest IH]; intros s H Hheap Hseen.
  - injection H as <-. split; assumption.
  - simpl in H. option_cases.
    match goal with
    | Hstep : step _ _ _ _ _ = Some ?s1 |- _ =>
        destruct (step_Forall_batches P _ _ _ Hstamp Hpush Hnew Hstep Hheap Hseen)
          as [Hheap1 Hseen1]
    end.
    eapply IH; eassumption.
Qed.

Lemma slice_front_nonempty {A} (q : list A) (c : Z) :
  q <> [] -> 1 <= c -> slice q 0 (Some c) <> [].
Proof.
  intros Hq Hc Hnil. apply (f_equal length) in Hnil. revert Hnil.
  unfold slice, relativeIndex. simpl.
  rewrite length_take, length_drop.
  assert (Hlen : (1 <= length q)%nat) by (destruct q; [contradiction|simpl; lia]).
  destruct (Z.ltb_spec c 0); lia.
Qed.

(** X7. No empty batch.  When [batchMaxRecords] is at least one, every
    batch object holds at least one record, so the processor never
    persists, closes or hands to the callback an empty batch. *)
Theorem no_empty_batch (inputs : list Input) (s : State) :
  1 <= batchMaxRecords config ->
  run author type config inputs init = Some s ->
  (forall b, In b (heap s) -> records b <> []) /\
  (forall b, In b (batchesSeen (events s)) -> records b <> []).
Proof.
  intros Hmax Hrun.
  destruct (run_Forall_batches (fun b => records b <> []) inputs init s) as [Hh Hs];
    [ | | | exact Hrun | constructor | constructor | ].
  - intros b now Hb. exact Hb.
  - intros b rs Hb. simpl. destruct (records b); [contradiction|discriminate].
  - intros now uuid q Hq. simpl. intros Hnil. apply map_eq_nil in Hnil.
    revert Hnil. apply slice_front_nonempty; [exact Hq|lia].
  - rewrite Forall_forall in Hh, Hs.
    split; intros b Hb; [apply Hh|apply Hs]; apply list_elem_of_In; exact Hb.
Qed.

(** X8. Every batch belongs to its processor.  Each batch object, and
    each batch persisted, closed or handed to the callback, carries the
    type and the author the processor was constructed with. *)
Theorem batches_carry_type_and_author (inputs : list Input) (s : State) :
  run author type config inputs init = Some s ->
  forall b, In b (heap s) \/ In b (batchesSeen (events s)) ->
            batch_type b = type /\ batch_author b = author.
Proof.
  intros Hrun.
  destruct (run_Forall_batches
              (fun b => batch_type b = type /\ batch_author b = author) inputs init s)
    as [Hh Hs]; [ auto | auto | auto | exact Hrun | constructor | constructor | ].
  rewrite Forall_forall in Hh, Hs.
  intros b [Hb|Hb]; [apply Hh|apply Hs]; apply list_elem_of_In; exact Hb.
Qed.

(** *** Upserts and the batch in memory *)

Lemma step_sentIsCurrent (i : Input) (s s' : State) :
  step author type config i s = Some s' -> sentIsCurrent s -> sentIsCurrent s'.
Proof.
  intros Hstep Hinv r chosen sent Hf.
  destruct (step_batches _ _ _ Hstep) as (new & _ & Hlen & Horigin & _ & _ & _ & Hfr).
  destruct (Hfr r chosen sent Hf) as [Hold|[Hnow _]].
  - destruct (Hinv r chosen sent Hold) as (b & Hb & Hrec & Hid).
    destruct (step_extends _ _ _ _ _ Hstep Hb) as (b' & Hb' & He & _).
    exists b'. split; [exact Hb'|].
    destruct (Horigin r b' Hb') as [(b0 & Hb0 & Hor)|(b0 & q & _ & _ & Hrest)].
    + rewrite Hb in Hb0. injection Hb0 as <-.
      destruct Hor as [->|(now & ->)]; split; assumption.
    + cbv zeta in Hrest. destruct Hrest as (_ & Hf' & _).
      rewrite Hf in Hf'. injection Hf' as _ <-. split; reflexivity.
  - exists sent. split; [exact Hnow|]. split; reflexivity.
Qed.

Lemma run_sentIsCurrent (inputs : list Input) (s s' : State) :
  run author type config inputs s = Some s' -> sentIsCurrent s -> sentIsCurrent s'.
Proof.
  revert s. induction inputs as [|i rest IH]; intros s H Hinv.
  - injection H as <-. exact Hinv.
  - simpl in H. option_cases. eapply IH; [eassumption|].
    eapply step_sentIsCurrent; eassumption.
Qed.

Lemma sentIsCurrent_init : sentIsCurrent (@init IBatchRecord).
Proof. intros r chosen sent Hf. discriminate Hf. Qed.

(** X9. Records of rejected callers stay in the batch.  When the upsert
    the assembler is waiting for throws, every chosen caller is rejected
    with that error, but the records pushed for them are still in the
    in-memory batch afterwards, so a later upsert or dispatch of that
    batch carries the records of callers that were told their add
    failed. *)
Theorem rejected_records_stay_in_batch (inputs : list Input) (s s' : State)
    r chosen sent e now uuid :
  run author type config inputs init = Some s ->
  assemblerFrame s = AwaitingUpsert r chosen sent ->
  step author type config
    {| now := now; uuidV4 := uuid; label := AssemblerUpserted (Some e) |} s = Some s' ->
  Forall (fun a => In (Rejected a (Threw e)) (events s')) chosen /\
  exists b',
    heap s' !! r = Some b' /\ batchID b' = batchID sent /\
    Forall (fun a => In (record a) (records b')) chosen.
Proof.
  intros Hrun Hf Hstep.
  pose proof (run_sentIsCurrent _ _ _ Hrun sentIsCurrent_init) as Hcur.
  pose proof (Settles_run _ _ _ _ _ _ Hrun (Settles_init config)) as (_ & Hasm & _).
  unfold assemblerOK in Hasm. rewrite Hf in Hasm. destruct Hasm as (_ & Hchosen & _).
  destruct (Hcur r chosen sent Hf) as (b & Hb & Hrec & Hid).
  destruct (step_extends _ _ _ _ _ Hstep Hb) as (b' & Hb' & (_&_&Hid'&_&more&Hmore) & _).
  split.
  - unfold step in Hstep. cbn [label] in Hstep. unfold assemblerUpserted in Hstep.
    rewrite Hf in Hstep.
    destruct (batchesStep_assemblerLoop _ _ _ _ Hstep) as (new & He & _).
    rewrite He. cbn. apply Forall_forall. intros a Ha.
    apply in_or_app. left. apply in_or_app. right.
    apply in_map_iff. exists a. split; [reflexivity|]. apply list_elem_of_In. exact Ha.
  - exists b'. split; [exact Hb'|]. split; [congruence|].
    eapply Forall_impl; [exact Hchosen|]. intros a Ha. simpl in Ha.
    rewrite Hmore, Hrec. apply in_or_app. left. exact Ha.
Qed.

Lemma step_upsertCalled (i : Input) (s s' : State) :
  step author type config i s = Some s' -> upsertCalled s -> upsertCalled s'.
Proof.
  intros Hstep Hinv b' Hin.
  destruct (step_batches _ _ _ Hstep) as (new & He & _ & Horigin & _).
  apply list_elem_of_In, list_elem_of_lookup_1 in Hin. destruct Hin as [r Hb'].
  destruct (Horigin r b' Hb') as [(b & Hb & Hor)|(b & q & _ & _ & Hrest)].
  - destruct (Hinv b (In_lookup _ _ _ Hb)) as (sent & Hsent & Hid & Hrec).
    exists sent. rewrite He. split; [apply in_or_app; left; exact Hsent|].
    destruct Hor as [->|(now & ->)]; split; assumption.
  - cbv zeta in Hrest. destruct Hrest as (_ & _ & Hin).
    exists b'. rewrite He. split; [apply in_or_app; right; exact Hin|].
    split; reflexivity.
Qed.

Lemma split_app {A} (l1 l2 pre post : list A) e :
  l1 ++ l2 = pre ++ e :: post ->
  (exists post', l1 = pre ++ e :: post') \/
  (exists pre', pre = l1 ++ pre' /\ l2 = pre' ++ e :: post).
Proof.
  revert pre. induction l1 as [|x l1 IH]; intros pre H.
  - right. exists pre. split; [reflexivity|exact H].
  - destruct pre as [|y pre]; simpl in H; injection H as -> H.
    + left. exists l1. reflexivity.
    + destruct (IH pre H) as [(post' & ->)|(pre' & -> & ->)].
      * left. exists post'. reflexivity.
      * right. exists pre'. split; reflexivity.
Qed.

Lemma run_closed_after_upsert (inputs : list Input) (s s' : State) :
  run author type config inputs s = Some s' ->
  upsertCalled s ->
  (forall pre b post,
     events s = pre ++ BatchClosed b :: post ->
     exists sent, In (UpsertBatch sent) pre /\
                  batchID sent = batchID b /\ records sent = records b) ->
  upsertCalled s' /\
  forall pre b post,
    events s' = pre ++ BatchClosed b :: post ->
    exists sent, In (UpsertBatch sent) pre /\
                 batchID sent = batchID b /\ records sent = records b.
Proof.
  revert s. induction inputs as [|i rest IH]; intros s H Hinv Hclosed.
  - injection H as <-. split; assumption.
  - simpl in H. option_cases.
    match goal with
    | Hstep : step _ _ _ _ _ = Some ?s1 |- _ =>
        apply (IH s1 H); [eapply step_upsertCalled; eassumption|];
        destruct (step_batches _ _ _ Hstep) as (new & He & _ & _ & _ & Hcl & _)
    end.
    intros pre b post Hev. rewrite He in Hev.
    apply split_app in Hev. destruct Hev as [(post' & Hev)|(pre' & -> & Hnew)].
    + eapply Hclosed. exact Hev.
    + destruct (Hcl b) as (r & _ & Hb); [rewrite Hnew; apply in_elt|].
      destruct (Hinv b (In_lookup _ _ _ Hb)) as (sent & Hsent & Hid & Hrec).
      exists sent. split; [apply in_or_app; left; exact Hsent|]. split; assumption.
Qed.

(** X10. Nothing is dispatched that was not sent to the store.  Whenever
    [dispatchBatch] closes a batch, [database.upsertBatch] has been called
    before with a batch of the same id holding exactly the records the
    batch is closed with. *)
Theorem closed_batch_was_upserted (inputs : list Input) (s : State) pre b post :
  run author type config inputs init = Some s ->
  events s = pre ++ BatchClosed b :: post ->
  exists sent,
    In (UpsertBatch sent) pre /\ batchID sent = batchID b /\ records sent = records b.
Proof.
  intros Hrun Hev.
  destruct (run_closed_after_upsert inputs init s Hrun) as [_ H].
  - intros b0 [].
  - intros pre0 b0 post0 Hnil. destruct pre0; discriminate Hnil.
  - eapply H. exact Hev.
Qed.

(** *** Progress *)

(** X11. The processor does not get stuck.  In every state reached from
    the constructor, [add] can be called, the pending timer can fire, and
    every function suspended at an await whose promise has settled can
    resume: none of them finds a batch reference dangling. *)
Theorem reachable_states_can_step (inputs : list Input) (i : Input) (s : State) :
  run author type config inputs init = Some s ->
  match label i with
  | Add _ _ => True
  | TimerFires => exists t, dispatchTimeout s = Some {| ms := t; fired := false |}
  | AssemblerUpserted _ => exists r chosen sent, assemblerFrame s = AwaitingUpsert r chosen sent
  | AssemblerDispatched => exists r chosen, assemblerFrame s = AwaitingDispatch r chosen true
  | DispatchResumes k =>
      exists w proc, dispatching s !! k = Some w /\
                     processes s !! awaited w = Some proc /\ phase proc = Completed
  | CallbackSettled p _ =>
      exists proc, processes s !! p = Some proc /\ phase proc = AwaitCallback
  | ProcessUpserted p _ =>
      exists proc sent, processes s !! p = Some proc /\ phase proc = AwaitUpsert sent
  | DelayElapsed p =>
      exists proc, processes s !! p = Some proc /\ phase proc = AwaitDelay
  end ->
  exists s', step author type config i s = Some s'.
Proof.
  intros Hrun Hen.
  destruct (step_enabled author type config i s) as [s' Hs'].
  - exact (RefsOK_run _ _ _ _ _ _ Hrun (@RefsOK_init IBatchRecord)).
  - exact (Settles_run _ _ _ _ _ _ Hrun (Settles_init config)).
  - exact Hen.
  - exists s'. exact Hs'.
Qed.


(** *** Resolved promises and the dispatch timer *)

Lemma In_resolutions (evs : list Event) a id :
  In (Resolved a id) evs <-> In (a, id) (resolutions evs).
Proof.
  rewrite <- !list_elem_of_In. unfold resolutions. rewrite list_elem_of_omap. split.
  - intros H. exists (Resolved a id). split; [exact H|reflexivity].
  - intros (e & He & Heq). destruct e; try discriminate Heq.
    injection Heq as -> ->. exact He.
Qed.

Lemma In_timeouts (evs : list Event) t :
  In (SetTimeout t) evs <-> In t (timeouts evs).
Proof.
  rewrite <- !list_elem_of_In. unfold timeouts. rewrite list_elem_of_omap. split.
  - intros H. exists (SetTimeout t). split; [exact H|reflexivity].
  - intros (e & He & Heq). destruct e; try discriminate Heq.
    injection Heq as ->. exact He.
Qed.

Lemma extends_records (b b' : Batch) x :
  extends b b' -> In x (records b) -> In x (records b').
Proof.
  intros (_&_&_&_&more&Hmore) Hin. rewrite Hmore. apply in_or_app. left. exact Hin.
Qed.

Lemma step_chosenInBatch (i : Input) (s s' : State) :
  step author type config i s = Some s' ->
  oneAssembler s -> chosenInBatch s -> chosenInBatch s'.
Proof.
  intros Hstep Hone Hinv r Hr.
  destruct (step_tasks _ _ _ Hstep Hone) as (_ & _ & Hframe & _).
  destruct (step_batches _ _ _ Hstep) as (new & _ & _ & _ & _ & _ & _ & Hfr).
  assert (Hkeep : frameRef (assemblerFrame s') = frameRef (assemblerFrame s) ->
                  chosenOf (assemblerFrame s') = chosenOf (assemblerFrame s) ->
                  exists b, heap s' !! r = Some b /\
                    Forall (fun a => In (record a) (records b))
                      (chosenOf (assemblerFrame s'))).
  { intros Href Hch. rewrite Href in Hr. destruct (Hinv r Hr) as (b & Hb & Hall).
    destruct (step_extends _ _ _ _ _ Hstep Hb) as (b' & Hb' & He & _).
    exists b'. split; [exact Hb'|]. rewrite Hch.
    eapply Forall_impl; [exact Hall|]. intros a Ha. simpl in Ha.
    eapply extends_records; eassumption. }
  destruct Hframe as [[Href Hch]|[(r0 & chosen & sent & Hf)|Hnr]].
  - apply Hkeep; assumption.
  - destruct (Hfr _ _ _ Hf) as [Hold|(Hsent & b & ->)].
    + apply Hkeep; rewrite Hf, Hold; reflexivity.
    + rewrite Hf in Hr |- *. simpl in Hr. injection Hr as ->.
      eexists. split; [exact Hsent|]. simpl. apply chosen_in_pushed.
  - rewrite Hnr in Hr. discriminate Hr.
Qed.

Lemma step_resolvedInBatch (i : Input) (s s' : State) :
  step author type config i s = Some s' ->
  oneAssembler s -> chosenInBatch s -> resolvedInBatch s -> resolvedInBatch s'.
Proof.
  intros Hstep Hone Hch Hinv a id Hin.
  destruct (step_tasks _ _ _ Hstep Hone) as (_ & _ & _ & (rs & Hres & Hrs) & _).
  assert (Hold : exists r b, heap s !! r = Some b /\ batchID b = id /\
                             In (record a) (records b)).
  { rewrite Hres in Hin. apply in_app_or in Hin. destruct Hin as [Hin|Hin].
    - apply Hinv. exact Hin.
    - destruct (Hrs a id Hin) as (Ha & r & b & Hr & Hb & Hid).
      destruct (Hch r Hr) as (b0 & Hb0 & Hall).
      rewrite Hb in Hb0. injection Hb0 as <-.
      exists r, b. split; [exact Hb|]. split; [exact Hid|].
      rewrite Forall_forall in Hall. apply (Hall a).
      apply list_elem_of_In. exact Ha. }
  destruct Hold as (r & b & Hb & Hid & Hrec).
  destruct (step_extends _ _ _ _ _ Hstep Hb) as (b' & Hb' & He & _).
  exists r, b'. split; [exact Hb'|]. split.
  - destruct He as (_&_&Hid'&_). congruence.
  - eapply extends_records; eassumption.
Qed.

Lemma run_resolvedInBatch (inputs : list Input) (s s' : State) :
  run author type config inputs s = Some s' ->
  oneAssembler s -> chosenInBatch s -> resolvedInBatch s ->
  oneAssembler s' /\ chosenInBatch s' /\ resolvedInBatch s' /\
  exists new, events s' = events s ++ new.
Proof.
  revert s. induction inputs as [|i rest IH]; intros s H Hone Hch Hres.
  - injection H as <-. repeat split; try assumption. exists []. rewrite app_nil_r. reflexivity.
  - simpl in H. option_cases.
    match goal with
    | Hstep : step _ _ _ _ _ = Some ?s1 |- _ =>
        destruct (step_tasks _ _ _ Hstep Hone) as (Hone1 & _);
        pose proof (step_chosenInBatch _ _ _ Hstep Hone Hch) as Hch1;
        pose proof (step_resolvedInBatch _ _ _ Hstep Hone Hch Hres) as Hres1;
        destruct (step_batches _ _ _ Hstep) as (new1 & He1 & _);
        destruct (IH s1 H Hone1 Hch1 Hres1) as (A & B & C & new & He)
    end.
    repeat split; try assumption. exists (new1 ++ new).
    rewrite He, He1, app_assoc. reflexivity.
Qed.

(** X13. A resolved record stays in its batch.  Once [add] has resolved
    a caller with a batch id, at every later time there is a batch object
    with that id holding the caller's record: the record the caller was
    told is persisted is in the batch that is dispatched under that id. *)
Theorem resolved_record_stays_in_its_batch (inputs later : list Input) (s s' : State)
    a id :
  run author type config inputs init = Some s ->
  In (Resolved a id) (events s) ->
  run author type config later s = Some s' ->
  In (Resolved a id) (events s') /\
  exists r b, heap s' !! r = Some b /\ batchID b = id /\ In (record a) (records b).
Proof.
  intros Hrun Hin Hlater.
  destruct (run_resolvedInBatch inputs init s Hrun) as (Hone & Hch & Hres & _).
  - reflexivity.
  - intros r Hr. discriminate Hr.
  - intros a0 id0 [].
  - destruct (run_resolvedInBatch later s s' Hlater Hone Hch Hres)
      as (_ & _ & Hres' & new & He).
    assert (Hin' : In (Resolved a id) (events s'))
      by (rewrite He; apply in_or_app; left; exact Hin).
    split; [exact Hin'|]. apply Hres'. apply In_resolutions. exact Hin'.
Qed.

Lemma run_timeouts (inputs : list Input) (s s' : State) :
  run author type config inputs s = Some s' ->
  oneAssembler s ->
  Forall (fun ms => ms <= batchTimeoutArrivallMS config) (timeouts (events s)) ->
  Forall (fun ms => ms <= batchTimeoutArrivallMS config) (timeouts (events s')).
Proof.
  revert s. induction inputs as [|i rest IH]; intros s H Hone Hall.
  - injection H as <-. exact Hall.
  - simpl in H. option_cases.
    match goal with
    | Hstep : step _ _ _ _ _ = Some ?s1 |- _ =>
        destruct (step_tasks _ _ _ Hstep Hone) as (Hone1 & _ & _ & _ & ts & Hts & Hb)
    end.
    eapply IH; [eassumption|exact Hone1|].
    rewrite Hts. apply Forall_app. split; assumption.
Qed.

(** X14. The dispatch timer is bounded.  Every timer the assembler sets
    for a batch that is not full waits for at most
    [batchTimeoutArrivallMS]. *)
Theorem dispatch_timer_is_bounded (inputs : list Input) (s : State) ms :
  run author type config inputs init = Some s ->
  In (SetTimeout ms) (events s) ->
  ms <= batchTimeoutArrivallMS config.
Proof.
  intros Hrun Hin.
  pose proof (run_timeouts inputs init s Hrun eq_refl ltac:(constructor)) as Hall.
  rewrite Forall_forall in Hall. apply Hall.
  apply list_elem_of_In, In_timeouts. exact Hin.
Qed.


(** *** init *)

Abbreviation InitState := (@BatchProcessor.InitState IBatchRecord).

Lemma closedBatches_app (a b : list Event) :
  closedBatches (a ++ b) = closedBatches a ++ closedBatches b.
Proof. apply omap_app. Qed.

Lemma processStepOK_processAttempt now p (s s' : State) proc :
  processes s !! p = Some proc -> isActive proc = true ->
  processAttempt now p s = Some s' -> processStepOK p s s'.
Proof.
  intros Hp Hact H. unfold processAttempt in H. rewrite Hp in H. simpl in H.
  option_cases. subst s'. repeat split; simpl.
  - rewrite closedBatches_app. simpl. apply app_nil_r.
  - eexists proc, _. split; [exact Hp|]. split; [exact Hact|].
    split; [reflexivity|]. split; [reflexivity|].
    right. eexists _, now. split; [eassumption|reflexivity].
Qed.

Lemma processStepOK_processCatch p (s s' : State) proc :
  processes s !! p = Some proc -> isActive proc = true ->
  processCatch config p s = Some s' -> processStepOK p s s'.
Proof.
  intros Hp Hact H. unfold processCatch in H. rewrite Hp in H. simpl in H.
  injection H as <-. repeat split; simpl.
  - rewrite closedBatches_app. simpl. apply app_nil_r.
  - eexists proc, _. split; [exact Hp|]. split; [exact Hact|].
    split; [reflexivity|]. split; [reflexivity|]. left. reflexivity.
Qed.

Lemma processStepOK_processExit p (s s' : State) proc :
  processes s !! p = Some proc -> isActive proc = true ->
  processExit p s = Some s' -> processStepOK p s s'.
Proof.
  intros Hp Hact H. unfold processExit in H. rewrite Hp in H. simpl in H.
  injection H as <-. destruct (assemblyBatch s) eqn:Hslot; repeat split; simpl;
    rewrite ?Hslot; try reflexivity;
    try (rewrite closedBatches_app; simpl; apply app_nil_r);
    (eexists proc, _; split; [exact Hp|]; split; [exact Hact|];
     split; [reflexivity|]; split; [reflexivity|]; left; reflexivity).
Qed.

Lemma processStepOK_emit p evs (s s' : State) :
  closedBatches evs = [] ->
  processStepOK p (emit evs s) s' -> processStepOK p s s'.
Proof.
  intros Hevs (A1&A2&A3&A4&A5&A6&A7&Hproc). repeat split; try assumption.
  rewrite A7. cbn [events emit]. rewrite closedBatches_app, Hevs. apply app_nil_r.
Qed.

Lemma processStepOK_callbackSettled p err (s s' : State) :
  callbackSettled config p err s = Some s' -> processStepOK p s s'.
Proof.
  unfold callbackSettled. intros H.
  destruct (processes s !! p) as [proc|] eqn:Hp; [|discriminate]. simpl in H.
  destruct (phase proc) eqn:Hph; try discriminate.
  assert (Hact : isActive proc = true) by (unfold isActive; rewrite Hph; reflexivity).
  destruct err as [e|].
  - eapply processStepOK_processCatch; eassumption.
  - option_cases. subst s'. repeat split; simpl.
    + rewrite closedBatches_app. simpl. apply app_nil_r.
    + eexists proc, _. split; [exact Hp|]. split; [exact Hact|].
      split; [reflexivity|]. split; [reflexivity|]. left. reflexivity.
Qed.

Lemma processStepOK_processUpserted p err (s s' : State) :
  processUpserted config p err s = Some s' -> processStepOK p s s'.
Proof.
  unfold processUpserted. intros H.
  destruct (processes s !! p) as [proc|] eqn:Hp; [|discriminate]. simpl in H.
  destruct (phase proc) eqn:Hph; try discriminate.
  assert (Hact : isActive proc = true) by (unfold isActive; rewrite Hph; reflexivity).
  destruct err as [e|].
  - eapply (processStepOK_emit p [UpsertSettled sent (Some e)] s); [reflexivity|].
    eapply processStepOK_processCatch; [exact Hp|exact Hact|exact H].
  - eapply (processStepOK_emit p [UpsertSettled sent None] s); [reflexivity|].
    eapply processStepOK_processExit; [exact Hp|exact Hact|exact H].
Qed.

Lemma processStepOK_delayElapsed now p (s s' : State) :
  delayElapsed now p s = Some s' -> processStepOK p s s'.
Proof.
  unfold delayElapsed. intros H.
  destruct (processes s !! p) as [proc|] eqn:Hp; [|discriminate]. simpl in H.
  destruct (phase proc) eqn:Hph; try discriminate.
  assert (Hact : isActive proc = true) by (unfold isActive; rewrite Hph; reflexivity).
  eapply processStepOK_processAttempt; eassumption.
Qed.

Lemma InitOK_process p stored (st : InitState) (s' : State) :
  RefsOK (processor st) -> InitOK stored st ->
  processStepOK p (processor st) s' ->
  RefsOK s' /\ InitOK stored (withProcessor st s').
Proof.
  intros Hrefs (Hsplit & Hframe & Hasm & Hfr & Htimer & Hactive & Hbound)
    (A1&A2&A3&A4&A5&A6&A7&proc&proc'&Hp&Hact&Hprocs&Hpb&Hheap).
  assert (Hlen : length (heap s') = length (heap (processor st))).
  { destruct Hheap as [->|(b & now & _ & ->)]; [reflexivity|apply length_insert]. }
  assert (Hrefs' : proc_batch <$> processes s' = proc_batch <$> processes (processor st)).
  { rewrite Hprocs. eapply proc_batch_insert; [exact Hp|exact Hpb]. }
  assert (Hslot : forall r, assemblyBatch (processor st) = Some r ->
                            heap s' !! r = heap (processor st) !! r).
  { intros r Hr. destruct Hheap as [->|(b & now & _ & ->)]; [reflexivity|].
    apply list_lookup_insert_ne. intros Heq.
    destruct Hrefs as (Hs & _). destruct (Hs r Hr) as [_ Hnot]. apply Hnot.
    apply list_elem_of_fmap. exists proc. split; [symmetry; exact Heq|].
    eapply list_elem_of_lookup_2. exact Hp. }
  split; [eapply RefsOK_same; eassumption|].
  unfold InitOK. cbn [processor incompleteBatches initFrame withProcessor].
  split.
  { assert (Hsb : slotBatch s' = slotBatch (processor st)).
    { unfold slotBatch. rewrite A1.
      destruct (assemblyBatch (processor st)) as [r|] eqn:Hr; [|reflexivity].
      rewrite (Hslot r eq_refl). reflexivity. }
    rewrite A7, Hsb. exact Hsplit. }
  split.
  { destruct (initFrame st) as [|[|]]; rewrite A1, A2, ?A3; try exact Hframe.
    destruct Hframe as (r & q & b & Hr & Hb & Hq & Hd).
    exists r, q, b. rewrite (Hslot r Hr). repeat split; assumption. }
  rewrite A4, A5, A6, A3. repeat split; try assumption.
  - intros q procq Hq Hactq. rewrite Hprocs in Hq.
    destruct (decide (q = p)) as [->|Hne].
    + eapply Hactive; eassumption.
    + rewrite list_lookup_insert_ne in Hq by congruence. eapply Hactive; eassumption.
  - intros q Hq. rewrite Hprocs, length_insert. apply Hbound. exact Hq.
Qed.

Lemma closedBatches_clear (t : option Timeout) (evs : list Event) :
  closedBatches (match t with Some _ => [ClearTimeout] | None => [] end ++ evs)
    = closedBatches evs.
Proof. destruct t; reflexivity. Qed.

(** [dispatchBatch] past its await, with a stored batch in the slot and
    nothing in flight that has not finished. *)
Lemma InitOK_dispatchBody now stored rest (s s' : State) r b :
  RefsOK s ->
  assemblyBatch s = Some r -> heap s !! r = Some b ->
  closedBatches (events s) ++ [b] ++ rest = stored ->
  dispatching s = [] ->
  assembling s = false -> assemblerFrame s = NotRunning -> dispatchTimeout s = None ->
  (forall p proc, processes s !! p = Some proc -> isActive proc = false) ->
  dispatchBody now s = Some s' ->
  RefsOK s' /\
  InitOK stored {| processor := s'; incompleteBatches := rest;
                   initFrame := InitAwaitingDispatch true |}.
Proof.
  intros Hrefs Hslot Hb Hsplit Hd Hasm Hfr Htimer Hidle H.
  split; [eapply RefsOK_dispatchBody; eassumption|].
  destruct (dispatchBody_full now s r b Hslot Hb)
    as (s2 & H2 & Hslot' & Htimer' & Hp & Hfl & Hh & Hf & Hd' & He).
  rewrite H in H2. injection H2 as <-.
  unfold InitOK. cbn [processor incompleteBatches initFrame].
  split.
  { rewrite He, closedBatches_app, closedBatches_clear. unfold slotBatch.
    rewrite Hslot'. simpl. rewrite <- Hsplit, <- app_assoc. reflexivity. }
  split; [split; [exact Hslot'|rewrite Hd'; exact Hd]|].
  split; [|split; [rewrite Hf; exact Hfr|split; [exact Htimer'|]]].
  { clear He. revert H. unfold dispatchBody. rewrite Htimer, Hslot. simpl.
    rewrite Hb. simpl. unfold processAttempt. simpl.
    rewrite list_lookup_middle by reflexivity. simpl.
    rewrite Hb. simpl. intros H. injection H as <-. exact Hasm. }
  split.
  - intros p proc Hproc Hact. rewrite Hp in Hproc. rewrite Hfl.
    apply lookup_app_Some in Hproc. destruct Hproc as [Hproc|[Hge Hproc]].
    + rewrite (Hidle p proc Hproc) in Hact. discriminate Hact.
    + f_equal. assert ((p - length (processes s) < 1)%nat)
        by (eapply (lookup_lt_Some [_]); exact Hproc). lia.
  - intros p Hq. rewrite Hfl in Hq. injection Hq as <-.
    rewrite Hp, length_app. simpl. lia.
Qed.

Lemma InitOK_initLoop now stored bs (s : State) (st' : InitState) :
  RefsOK s ->
  InitOK stored {| processor := s; incompleteBatches := bs;
                   initFrame := InitAwaitingDispatch true |} ->
  initLoop now bs s = Some st' ->
  RefsOK (processor st') /\ InitOK stored st'.
Proof.
  intros Hrefs (Hsplit & (Hslot & Hd) & Hasm & Hfr & Htimer & Hactive & Hbound) H.
  cbn [processor incompleteBatches initFrame] in *.
  unfold slotBatch in Hsplit. rewrite Hslot in Hsplit. simpl in Hsplit.
  destruct bs as [|b rest]; simpl in H.
  - injection H as <-. split; [exact Hrefs|].
    unfold InitOK. cbn [processor incompleteBatches initFrame].
    unfold slotBatch. rewrite Hslot. repeat split; assumption.
  - set (s1 := with_assemblyBatch (Some (length (heap s)))
                 (with_heap (heap s ++ [b]) s)) in *.
    assert (Hrefs1 : RefsOK s1).
    { unfold RefsOK. subst s1. simpl. rewrite length_app. simpl.
      replace (length (heap s) + 1)%nat with (S (length (heap s))) by lia.
      apply refsOK_alloc. unfold RefsOK in Hrefs. rewrite Hslot in Hrefs. exact Hrefs. }
    assert (Hb1 : heap s1 !! length (heap s) = Some b)
      by (subst s1; simpl; apply list_lookup_middle; reflexivity).
    option_cases. subst st'. cbn [processor].
    match goal with Hx : dispatchBatch _ _ _ = Some ?x |- _ => rename Hx into Hdisp; rename x into s2 end.
    unfold dispatchBatch in Hdisp.
    change (batchInFlight s1) with (batchInFlight s) in *.
    destruct (batchInFlight s) as [p|] eqn:Hfl.
    + injection Hdisp as <-. split; [exact Hrefs1|].
      unfold InitOK. cbn [processor incompleteBatches initFrame].
      split.
      { unfold slotBatch. cbn. rewrite list_lookup_middle by reflexivity. exact Hsplit. }
      split.
      { exists (length (heap s)), p, b. cbn. rewrite Hd.
        split; [reflexivity|]. split; [apply list_lookup_middle; reflexivity|].
        split; [exact Hfl|reflexivity]. }
      subst s1. cbn. rewrite Hfl. repeat split; assumption.
    + apply fmap_Some in Hdisp. destruct Hdisp as (s3 & Hbody & ->).
      change (dispatchReturn FromTimer s3) with s3.
      eapply (InitOK_dispatchBody now stored rest s1 s3 (length (heap s)) b);
        try eassumption; try reflexivity.
      intros q proc Hq. destruct (isActive proc) eqn:Hact; [|reflexivity].
      specialize (Hactive q proc Hq Hact). discriminate Hactive.
Qed.

Lemma InitOK_dispatchResumes now stored (st : InitState) (s' : State) :
  RefsOK (processor st) -> InitOK stored st ->
  initFrame st = InitAwaitingDispatch false ->
  dispatchResumes now 0 (processor st) = Some s' ->
  RefsOK s' /\
  InitOK stored {| processor := s'; incompleteBatches := incompleteBatches st;
                   initFrame := InitAwaitingDispatch true |}.
Proof.
  intros Hrefs (Hsplit & Hframe & Hasm & Hfr & Htimer & Hactive & Hbound) Hf H.
  rewrite Hf in Hframe. destruct Hframe as (r & p & b & Hslot & Hb & Hfl & Hd).
  unfold dispatchResumes in H. rewrite Hd in H. simpl in H.
  destruct (processes (processor st) !! p) as [proc|] eqn:Hp; [|discriminate].
  simpl in H. destruct (phase proc) eqn:Hph; try discriminate.
  apply fmap_Some in H. destruct H as (s3 & Hbody & ->).
  change (dispatchReturn FromTimer s3) with s3.
  unfold slotBatch in Hsplit. rewrite Hslot, Hb in Hsplit.
  eapply (InitOK_dispatchBody now stored (incompleteBatches st)
            (with_dispatching [] (processor st)) s3 r b);
    [exact Hrefs|exact Hslot|exact Hb|exact Hsplit|reflexivity|exact Hasm|exact Hfr
    |exact Htimer| |exact Hbody].
  intros q procq Hq. destruct (isActive procq) eqn:Hact; [|reflexivity].
  change (processes (processor st) !! q = Some procq) in Hq.
  pose proof (Hactive q procq Hq Hact) as Hq'. rewrite Hfl in Hq'.
  injection Hq' as Heq. subst q.
  assert (Hsame : Some procq = Some proc) by (rewrite <- Hq; exact Hp).
  injection Hsame as ->.
  unfold isActive in Hact. rewrite Hph in Hact. discriminate Hact.
Qed.

Lemma InitOK_initStep now l stored (st st' : InitState) :
  RefsOK (processor st) -> InitOK stored st ->
  initStep config now l st = Some st' ->
  RefsOK (processor st') /\ InitOK stored st'.
Proof.
  intros Hrefs Hok H. destruct l as [| |p err|p err|p]; simpl in H.
  - destruct (initFrame st) as [|[|]] eqn:Hf; try discriminate.
    eapply InitOK_initLoop; [exact Hrefs| |exact H].
    destruct st as [s bs f]. simpl in Hf. subst f. exact Hok.
  - destruct (initFrame st) as [|[|]] eqn:Hf; try discriminate.
    option_cases. subst st'. cbn [processor].
    eapply InitOK_dispatchResumes; eassumption.
  - apply fmap_Some in H. destruct H as (s' & H & ->).
    eapply InitOK_process; [exact Hrefs|exact Hok|].
    eapply processStepOK_callbackSettled. exact H.
  - apply fmap_Some in H. destruct H as (s' & H & ->).
    eapply InitOK_process; [exact Hrefs|exact Hok|].
    eapply processStepOK_processUpserted. exact H.
  - apply fmap_Some in H. destruct H as (s' & H & ->).
    eapply InitOK_process; [exact Hrefs|exact Hok|].
    eapply processStepOK_delayElapsed. exact H.
Qed.

Lemma InitOK_initRun inputs stored (st st' : InitState) :
  RefsOK (processor st) -> InitOK stored st ->
  initRun config inputs st = Some st' ->
  RefsOK (processor st') /\ InitOK stored st'.
Proof.
  revert st. induction inputs as [|[now l] rest IH]; intros st Hrefs Hok H.
  - injection H as <-. split; assumption.
  - simpl in H. option_cases.
    match goal with
    | Hstep : initStep _ _ _ _ = Some ?st1 |- _ =>
        destruct (InitOK_initStep _ _ _ _ _ Hrefs Hok Hstep) as [Hrefs1 Hok1];
        exact (IH st1 Hrefs1 Hok1 H)
    end.
Qed.

(** X24. Stored batches are dispatched in order, one at a time.  While
    [init] runs, before the processor takes any [add], the batches closed
    so far, the one waiting in the slot and those still to dispatch are
    the stored batches in their order, each closed as it was stored; at
    most one [processBatch] call is unfinished at any time, so a stored
    batch is closed only after the one before it has been processed; and
    [init] returns only when every stored batch has been closed. *)
Theorem init_dispatches_stored_batches_in_order now (stored : list Batch) :
  (exists st0 : InitState, initLoop now stored init = Some st0) /\
  forall (inputs : list (Z * InitLabel)) (st0 st : InitState),
    initLoop now stored init = Some st0 ->
    initRun config inputs st0 = Some st ->
    closedBatches (events (processor st)) ++ slotBatch (processor st)
      ++ incompleteBatches st = stored /\
    (forall p q procp procq,
       processes (processor st) !! p = Some procp ->
       processes (processor st) !! q = Some procq ->
       isActive procp = true -> isActive procq = true -> p = q) /\
    (initFrame st = InitReturned -> closedBatches (events (processor st)) = stored).
Proof.
  split.
  { destruct stored as [|b rest]; [eexists; reflexivity|].
    unfold initLoop. cbn. eexists. reflexivity. }
  intros inputs st0 st Hcall Hrun.
  assert (H0 : RefsOK (processor st0) /\ InitOK stored st0).
  { eapply InitOK_initLoop; [apply RefsOK_init| |exact Hcall].
    unfold InitOK. cbn. repeat split; discriminate. }
  destruct H0 as [Hrefs0 Hok0].
  destruct (InitOK_initRun _ _ _ _ Hrefs0 Hok0 Hrun)
    as (_ & Hsplit & Hframe & _ & _ & _ & Hactive & _).
  split; [exact Hsplit|]. split.
  - intros p q procp procq Hp Hq Hap Haq.
    pose proof (Hactive p procp Hp Hap) as H1.
    pose proof (Hactive q procq Hq Haq) as H2.
    rewrite H1 in H2. injection H2 as ->. reflexivity.
  - intros Hret. rewrite Hret in Hframe. destruct Hframe as (Hslot & _ & Hnone).
    unfold slotBatch in Hsplit. rewrite Hslot, Hnone in Hsplit.
    simpl in Hsplit. rewrite app_nil_r in Hsplit. exact Hsplit.
Qed.

End AssemblyProperties.

(** ** The properties on the examples *)

(** The stream of the examples with callbacks and a connection that never
    fail: the token-pool event is acked and the loop keeps waiting. *)
Lemma healthy_loop_serves_every_event_witness :
  snd (FFTokens.Sample.eventLoop FFTokens.Sample.sampleStream) = FFTokens.Waiting /\
  FFTokens.acks (fst (FFTokens.Sample.eventLoop FFTokens.Sample.sampleStream))
    = ["evt-1"].
Proof.
  destruct (healthy_loop_serves_every_event
              FFTokens.Sample.GetString FFTokens.Sample.GetBool
              FFTokens.Sample.GetObject FFTokens.Sample.ParseUUID
              FFTokens.Sample.Unmarshal FFTokens.Sample.TokensOpUpdate
              FFTokens.Sample.TokenPoolCreated FFTokens.Sample.Send
              FFTokens.Sample.sampleStream) as [Hst Hacks].
  - intros; reflexivity.
  - intros; reflexivity.
  - intros; reflexivity.
  - repeat constructor.
  - split; [exact Hst|]. unfold FFTokens.Sample.eventLoop. rewrite Hacks.
    vm_compute. reflexivity.
Defined.

(** The token-pool event of the examples on a connection whose send
    fails: the loop stops on the error of the send, after trying the ack. *)
Lemma only_the_environment_stops_the_loop_witness :
  FFTokens.Sample.failingSend "evt-1" = Some "websocket closed" /\
  FFTokens.acks
    (fst (FFTokens.handleEvent FFTokens.Sample.Object FFTokens.Sample.GetString
            FFTokens.Sample.GetBool FFTokens.Sample.GetObject FFTokens.Sample.ParseUUID
            FFTokens.Sample.TokensOpUpdate FFTokens.Sample.TokenPoolCreated
            FFTokens.Sample.failingSend FFTokens.Sample.poolWithoutTxHash))
    = ["evt-1"].
Proof.
  destruct (only_the_environment_stops_the_loop
              FFTokens.Sample.GetString FFTokens.Sample.GetBool
              FFTokens.Sample.GetObject FFTokens.Sample.ParseUUID
              FFTokens.Sample.TokensOpUpdate FFTokens.Sample.TokenPoolCreated
              FFTokens.Sample.failingSend FFTokens.Sample.poolWithoutTxHash
              "websocket closed")
    as [(Hr & _)|[(_ & tokenType & txID & protocolID & operator & txHash & tx & Hcb & _)
                 |(_ & Hsend & Hacks)]].
  - vm_compute. reflexivity.
  - discriminate Hr.
  - discriminate Hcb.
  - split; [exact Hsend|exact Hacks].
Defined.

(** A prefix with a url and no websocket path: the path becomes
    "/api/ws". *)
Lemma Init_defaults_the_websocket_path_witness :
  FFTokens.Lifecycle.Sample.PrefixGetString
    (FFTokens.Lifecycle.prefixAfter
       (FFTokens.Lifecycle.Init FFTokens.Lifecycle.Sample.Prefix unit unit unit unit
          FFTokens.Lifecycle.Sample.PrefixGetString FFTokens.Lifecycle.Sample.PrefixSet
          "url" "ws.path" (fun c _ _ => c) (fun _ _ => "FF10138")
          (fun _ _ => tt) (fun _ _ => (Some tt, None))
          FFTokens.Lifecycle.zero tt "fftokens" FFTokens.Lifecycle.Sample.urlOnly tt))
    "ws.path" = "/api/ws".
Proof.
  destruct (Init_defaults_the_websocket_path
              FFTokens.Lifecycle.Sample.PrefixGetString
              FFTokens.Lifecycle.Sample.PrefixSet
              "url" "ws.path" (fun (c : unit) _ _ => c) (fun _ _ => "FF10138")
              (fun _ _ => tt) (fun _ _ => (Some tt, None))
              (@FFTokens.Lifecycle.zero unit unit unit unit) tt "fftokens"
              FFTokens.Lifecycle.Sample.urlOnly tt) as (Hpath & _).
  - intros p key value. unfold FFTokens.Lifecycle.Sample.PrefixGetString,
      FFTokens.Lifecycle.Sample.PrefixSet. rewrite String.eqb_refl. reflexivity.
  - intros p key key' value Hne. unfold FFTokens.Lifecycle.Sample.PrefixGetString,
      FFTokens.Lifecycle.Sample.PrefixSet.
    destruct (String.eqb_spec key' key); [contradiction|reflexivity].
  - discriminate.
  - vm_compute. discriminate.
  - exact Hpath.
Defined.


(** While the upsert of the first batch is pending, the second [add] only
    queues its task. *)
Lemma one_assembler_at_a_time_witness :
  exists s',
    BatchProcessor.step "0x12345" "message" BatchProcessor.sampleConfig
      (BatchProcessor.input 1001 "batch-2" (BatchProcessor.Add "r2" 2%nat))
      (BatchProcessor.sampleRun BatchProcessor.oneRecord) = Some s' /\
    BatchProcessor.assemblyList s' = [BatchProcessor.secondTask] /\
    BatchProcessor.heap s' = [BatchProcessor.firstUpsert].
Proof.
  assert (Hrun : BatchProcessor.run "0x12345" "message" BatchProcessor.sampleConfig
                   BatchProcessor.oneRecord BatchProcessor.init
                 = Some (BatchProcessor.sampleRun BatchProcessor.oneRecord))
    by (vm_compute; reflexivity).
  destruct (proj2 (one_assembler_at_a_time "0x12345" "message"
                     BatchProcessor.sampleConfig BatchProcessor.oneRecord _ Hrun)
              1001 "batch-2" "r2" 2%nat)
    as (s' & Hstep & Hlist & Hheap & _).
  - vm_compute. discriminate.
  - exists s'. split; [exact Hstep|]. split.
    + rewrite Hlist. vm_compute. reflexivity.
    + rewrite Hheap. vm_compute. reflexivity.
Defined.

(** The two tasks of the examples: one settled, one chosen. *)
Lemma every_task_is_accounted_for_witness :
  [BatchProcessor.firstTask; BatchProcessor.secondTask]
    ≡ₚ [BatchProcessor.secondTask; BatchProcessor.firstTask].
Proof.
  assert (Hrun : BatchProcessor.run "0x12345" "message" BatchProcessor.sampleConfig
                   BatchProcessor.twoRecords BatchProcessor.init
                 = Some (BatchProcessor.sampleRun BatchProcessor.twoRecords))
    by (vm_compute; reflexivity).
  exact (proj1 (every_task_is_accounted_for "0x12345" "message"
                  BatchProcessor.sampleConfig BatchProcessor.twoRecords _ Hrun)).
Defined.

(** The first batch grows from one record to two. *)
Lemma batches_are_append_only_witness :
  exists b',
    BatchProcessor.heap (BatchProcessor.sampleRun BatchProcessor.twoRecords) !! 0%nat
      = Some b' /\
    BatchProcessor.batchID b' = "batch-1" /\
    exists more, BatchProcessor.records b' = ["r1"] ++ more.
Proof.
  assert (Hrun : BatchProcessor.run "0x12345" "message" BatchProcessor.sampleConfig
                   (drop 1 BatchProcessor.twoRecords)
                   (BatchProcessor.sampleRun BatchProcessor.oneRecord)
                 = Some (BatchProcessor.sampleRun BatchProcessor.twoRecords))
    by (vm_compute; reflexivity).
  assert (Hb : BatchProcessor.heap (BatchProcessor.sampleRun BatchProcessor.oneRecord)
                 !! 0%nat = Some BatchProcessor.firstUpsert)
    by (vm_compute; reflexivity).
  destruct (batches_are_append_only "0x12345" "message" BatchProcessor.sampleConfig
              _ _ _ _ _ Hrun Hb) as (b' & Hb' & _ & _ & Hid & _ & Hmore).
  exists b'. split; [exact Hb'|]. split; [exact Hid|exact Hmore].
Defined.

(** The first batch of the race keeps its two records to the end. *)
Lemma dispatched_batch_is_frozen_witness :
  exists b',
    BatchProcessor.heap (BatchProcessor.sampleRun BatchProcessor.timerAndAssemblerRace)
      !! 0%nat = Some b' /\
    BatchProcessor.records b' = ["r1"; "r2"].
Proof.
  assert (Hrun : BatchProcessor.run "0x12345" "message" BatchProcessor.sampleConfig
                   BatchProcessor.firstBatchClosed BatchProcessor.init
                 = Some (BatchProcessor.sampleRun BatchProcessor.firstBatchClosed))
    by (vm_compute; reflexivity).
  assert (Hp : BatchProcessor.processes
                 (BatchProcessor.sampleRun BatchProcessor.firstBatchClosed) !! 0%nat
               = Some {| BatchProcessor.proc_batch := 0%nat;
                         BatchProcessor.attempt := 1;
                         BatchProcessor.phase := BatchProcessor.AwaitCallback |})
    by (vm_compute; reflexivity).
  assert (Hb : BatchProcessor.heap
                 (BatchProcessor.sampleRun BatchProcessor.firstBatchClosed) !! 0%nat
               = Some (BatchProcessor.setCompleted BatchProcessor.sampleBatch 1006))
    by (vm_compute; reflexivity).
  assert (Hlater : BatchProcessor.run "0x12345" "message" BatchProcessor.sampleConfig
                     (drop 4 BatchProcessor.timerAndAssemblerRace)
                     (BatchProcessor.sampleRun BatchProcessor.firstBatchClosed)
                   = Some (BatchProcessor.sampleRun BatchProcessor.timerAndAssemblerRace))
    by (vm_compute; reflexivity).
  destruct (dispatched_batch_is_frozen "0x12345" "message" BatchProcessor.sampleConfig
              _ _ _ _ 0%nat _ _ Hrun Hp Hb Hlater)
    as (proc' & b' & _ & _ & Hb' & Hrec & _).
  exists b'. split; [exact Hb'|exact Hrec].
Defined.

(** The batch of the examples is not empty. *)
Lemma no_empty_batch_witness :
  BatchProcessor.records BatchProcessor.sampleBatch <> [].
Proof.
  assert (Hrun : BatchProcessor.run "0x12345" "message" BatchProcessor.sampleConfig
                   BatchProcessor.twoRecords BatchProcessor.init
                 = Some (BatchProcessor.sampleRun BatchProcessor.twoRecords))
    by (vm_compute; reflexivity).
  assert (Hmax : 1 <= BatchProcessor.batchMaxRecords BatchProcessor.sampleConfig)
    by (simpl; lia).
  apply (proj1 (no_empty_batch "0x12345" "message" BatchProcessor.sampleConfig
                  BatchProcessor.twoRecords _ Hmax Hrun)).
  vm_compute. left. reflexivity.
Defined.

(** The batches of the race belong to the processor of the examples. *)
Lemma batches_carry_type_and_author_witness :
  BatchProcessor.batch_type BatchProcessor.sampleBatch = "message" /\
  BatchProcessor.batch_author BatchProcessor.sampleBatch = "0x12345".
Proof.
  assert (Hrun : BatchProcessor.run "0x12345" "message" BatchProcessor.sampleConfig
                   BatchProcessor.twoRecords BatchProcessor.init
                 = Some (BatchProcessor.sampleRun BatchProcessor.twoRecords))
    by (vm_compute; reflexivity).
  apply (batches_carry_type_and_author "0x12345" "message" BatchProcessor.sampleConfig
           BatchProcessor.twoRecords _ Hrun).
  left. vm_compute. left. reflexivity.
Defined.

(** The store throws on the first upsert: the caller is rejected and its
    record "r1" is still in the batch. *)
Lemma rejected_records_stay_in_batch_witness :
  In (BatchProcessor.Rejected BatchProcessor.firstTask (BatchProcessor.Threw "pop"))
     (BatchProcessor.events
        (BatchProcessor.sampleRun
           (BatchProcessor.oneRecord ++ [BatchProcessor.upsertThrows]))) /\
  exists b',
    BatchProcessor.heap
      (BatchProcessor.sampleRun (BatchProcessor.oneRecord ++ [BatchProcessor.upsertThrows]))
      !! 0%nat = Some b' /\
    In "r1" (BatchProcessor.records b').
Proof.
  assert (Hrun : BatchProcessor.run "0x12345" "message" BatchProcessor.sampleConfig
                   BatchProcessor.oneRecord BatchProcessor.init
                 = Some (BatchProcessor.sampleRun BatchProcessor.oneRecord))
    by (vm_compute; reflexivity).
  assert (Hf : BatchProcessor.assemblerFrame
                 (BatchProcessor.sampleRun BatchProcessor.oneRecord)
               = BatchProcessor.AwaitingUpsert 0%nat [BatchProcessor.firstTask]
                   BatchProcessor.firstUpsert)
    by (vm_compute; reflexivity).
  assert (Hstep : BatchProcessor.step "0x12345" "message" BatchProcessor.sampleConfig
                    {| BatchProcessor.now := 1005; BatchProcessor.uuidV4 := "batch-2";
                       BatchProcessor.label := BatchProcessor.AssemblerUpserted (Some "pop") |}
                    (BatchProcessor.sampleRun BatchProcessor.oneRecord)
                  = Some (BatchProcessor.sampleRun
                            (BatchProcessor.oneRecord ++ [BatchProcessor.upsertThrows])))
    by (vm_compute; reflexivity).
  destruct (rejected_records_stay_in_batch "0x12345" "message"
              BatchProcessor.sampleConfig _ _ _ _ _ _ _ _ _ Hrun Hf Hstep)
    as (Hrej & b' & Hb' & _ & Hrec).
  split.
  - inversion Hrej as [|? ? Hin _]. exact Hin.
  - exists b'. split; [exact Hb'|]. inversion Hrec as [|? ? Hin _]. exact Hin.
Defined.

(** The first batch was upserted with both records before it was closed. *)
Lemma closed_batch_was_upserted_witness :
  exists sent,
    In (BatchProcessor.UpsertBatch sent)
       (take 7 (BatchProcessor.events
                  (BatchProcessor.sampleRun BatchProcessor.firstBatchClosed))) /\
    BatchProcessor.batchID sent = "batch-1" /\
    BatchProcessor.records sent = ["r1"; "r2"].
Proof.
  assert (Hrun : BatchProcessor.run "0x12345" "message" BatchProcessor.sampleConfig
                   BatchProcessor.firstBatchClosed BatchProcessor.init
                 = Some (BatchProcessor.sampleRun BatchProcessor.firstBatchClosed))
    by (vm_compute; reflexivity).
  apply (closed_batch_was_upserted "0x12345" "message" BatchProcessor.sampleConfig
           BatchProcessor.firstBatchClosed _ _ BatchProcessor.sampleBatch
           [BatchProcessor.BatchCallback
              (BatchProcessor.setCompleted BatchProcessor.sampleBatch 1006)] Hrun).
  vm_compute. reflexivity.
Defined.

(** The pending upsert of the examples can return. *)
Lemma reachable_states_can_step_witness :
  exists s',
    BatchProcessor.step "0x12345" "message" BatchProcessor.sampleConfig
      (BatchProcessor.input 1005 "batch-2" (BatchProcessor.AssemblerUpserted None))
      (BatchProcessor.sampleRun BatchProcessor.oneRecord) = Some s'.
Proof.
  assert (Hrun : BatchProcessor.run "0x12345" "message" BatchProcessor.sampleConfig
                   BatchProcessor.oneRecord BatchProcessor.init
                 = Some (BatchProcessor.sampleRun BatchProcessor.oneRecord))
    by (vm_compute; reflexivity).
  apply (reachable_states_can_step "0x12345" "message" BatchProcessor.sampleConfig
           BatchProcessor.oneRecord _ _ Hrun).
  exists 0%nat, [BatchProcessor.firstTask], BatchProcessor.firstUpsert.
  vm_compute. reflexivity.
Defined.


(** The stream of the examples, then the context is cancelled. *)
Lemma eventLoop_app_witness :
  FFTokens.Sample.eventLoop (FFTokens.Sample.sampleStream ++ [FFTokens.CtxDone])
    = (fst (FFTokens.Sample.eventLoop FFTokens.Sample.sampleStream)
         ++ [FFTokens.LogDebug "Event loop exiting (context cancelled)"; FFTokens.WsClose],
       FFTokens.Exited).
Proof.
  exact (eventLoop_app
           FFTokens.Sample.GetString FFTokens.Sample.GetBool
           FFTokens.Sample.GetObject FFTokens.Sample.ParseUUID
           FFTokens.Sample.Unmarshal FFTokens.Sample.TokensOpUpdate
           FFTokens.Sample.TokenPoolCreated FFTokens.Sample.Send
           FFTokens.Sample.sampleStream [FFTokens.CtxDone]).
Defined.

Lemma eventLoop_closes_on_exit_witness :
  exists fx,
    fst (FFTokens.Sample.eventLoop (FFTokens.Sample.sampleStream ++ [FFTokens.CtxDone]))
      = fx ++ [FFTokens.WsClose] /\
    ~ In FFTokens.WsClose fx.
Proof.
  exact (eventLoop_closes_on_exit
           FFTokens.Sample.GetString FFTokens.Sample.GetBool
           FFTokens.Sample.GetObject FFTokens.Sample.ParseUUID
           FFTokens.Sample.Unmarshal FFTokens.Sample.TokensOpUpdate
           FFTokens.Sample.TokenPoolCreated FFTokens.Sample.Send
           (FFTokens.Sample.sampleStream ++ [FFTokens.CtxDone])).
Defined.

(** On a connection whose send fails the loop stops at the first ack: the
    second token-pool event stays unacked. *)
Lemma acks_follow_the_events_witness :
  exists unacked,
    ["evt-1"; "evt-1"]
      = FFTokens.acks
          (fst (FFTokens.eventLoop FFTokens.Sample.Object FFTokens.Sample.GetString
                  FFTokens.Sample.GetBool FFTokens.Sample.GetObject
                  FFTokens.Sample.ParseUUID FFTokens.Sample.Unmarshal
                  FFTokens.Sample.TokensOpUpdate FFTokens.Sample.TokenPoolCreated
                  FFTokens.Sample.failingSend
                  (FFTokens.Sample.sampleStream ++ FFTokens.Sample.sampleStream)))
        ++ unacked.
Proof.
  exact (acks_follow_the_events
           FFTokens.Sample.GetString FFTokens.Sample.GetBool
           FFTokens.Sample.GetObject FFTokens.Sample.ParseUUID
           FFTokens.Sample.Unmarshal FFTokens.Sample.TokensOpUpdate
           FFTokens.Sample.TokenPoolCreated FFTokens.Sample.failingSend
           (FFTokens.Sample.sampleStream ++ FFTokens.Sample.sampleStream)).
Defined.

(** A prefix with a url and a websocket client that can be created. *)
Lemma Init_succeeds_iff_url_and_websocket_witness :
  FFTokens.Lifecycle.err
    (FFTokens.Lifecycle.Init FFTokens.Lifecycle.Sample.Prefix unit unit unit unit
       FFTokens.Lifecycle.Sample.PrefixGetString FFTokens.Lifecycle.Sample.PrefixSet
       "url" "ws.path" (fun c _ _ => c) (fun _ _ => "FF10138")
       (fun _ _ => tt) (fun _ _ => (Some tt, None))
       FFTokens.Lifecycle.zero tt "fftokens" FFTokens.Lifecycle.Sample.urlOnly tt)
  = None.
Proof.
  apply (proj1 (Init_succeeds_iff_url_and_websocket
                  FFTokens.Lifecycle.Sample.PrefixGetString
                  FFTokens.Lifecycle.Sample.PrefixSet
                  "url" "ws.path" (fun (c : unit) _ _ => c) (fun _ _ => "FF10138")
                  (fun _ _ => tt) (fun _ _ => (Some tt, None))
                  (@FFTokens.Lifecycle.zero unit unit unit unit) tt "fftokens"
                  FFTokens.Lifecycle.Sample.urlOnly tt)).
  split; [vm_compute; discriminate|reflexivity].
Defined.

(** Without a url [Start] panics after [Init]. *)
Lemma plugin_works_after_Init_witness :
  exists reason,
    FFTokens.Lifecycle.Start unit unit unit unit (fun _ => None)
      (FFTokens.Lifecycle.plugin
         (FFTokens.Lifecycle.Init FFTokens.Lifecycle.Sample.Prefix unit unit unit unit
            FFTokens.Lifecycle.Sample.PrefixGetString FFTokens.Lifecycle.Sample.PrefixSet
            "url" "ws.path" (fun c _ _ => c) (fun _ _ => "FF10138")
            (fun _ _ => tt) (fun _ _ => (Some tt, None))
            FFTokens.Lifecycle.zero tt "fftokens" (fun _ => "") tt))
    = Go.Panics reason.
Proof.
  apply (proj1 (proj2 (plugin_works_after_Init
                         (Response := unit) (JSONObject := unit)
                         FFTokens.Lifecycle.Sample.PrefixGetString
                         FFTokens.Lifecycle.Sample.PrefixSet
                         "url" "ws.path" (fun (c : unit) _ _ => c) (fun _ _ => "FF10138")
                         (fun _ _ => tt) (fun _ _ => (Some tt, None))
                         (fun _ => None) (fun _ _ _ _ _ _ => (tt, None))
                         (fun _ => true) (fun _ _ => "FF10274")
                         tt "fftokens" (fun _ => "") tt))).
  reflexivity.
Defined.

(** At 1050 the task queued at 1001 has waited 49 ms: it leaves the queue. *)
Lemma rejectAnyStale_partitions_queue_witness :
  BatchProcessor.assemblyList
    (BatchProcessor.rejectAnyStale BatchProcessor.sampleConfig 1050
       (BatchProcessor.sampleRun (take 2 BatchProcessor.twoRecords))) = [].
Proof.
  exact (proj1 (rejectAnyStale_partitions_queue BatchProcessor.sampleConfig 1050
                  (BatchProcessor.sampleRun (take 2 BatchProcessor.twoRecords)))).
Defined.

(** The first caller of the race was answered "batch-1"; at the end of
    the race "r1" is still in the batch of that id. *)
Lemma resolved_record_stays_in_its_batch_witness :
  exists r b,
    BatchProcessor.heap (BatchProcessor.sampleRun BatchProcessor.timerAndAssemblerRace)
      !! r = Some b /\
    BatchProcessor.batchID b = "batch-1" /\
    In "r1" (BatchProcessor.records b).
Proof.
  assert (Hrun : BatchProcessor.run "0x12345" "message" BatchProcessor.sampleConfig
                   BatchProcessor.twoRecords BatchProcessor.init
                 = Some (BatchProcessor.sampleRun BatchProcessor.twoRecords))
    by (vm_compute; reflexivity).
  assert (Hin : In (BatchProcessor.Resolved BatchProcessor.firstTask "batch-1")
                  (BatchProcessor.events
                     (BatchProcessor.sampleRun BatchProcessor.twoRecords)))
    by (vm_compute; do 3 right; left; reflexivity).
  assert (Hlater : BatchProcessor.run "0x12345" "message" BatchProcessor.sampleConfig
                     (drop 3 BatchProcessor.timerAndAssemblerRace)
                     (BatchProcessor.sampleRun BatchProcessor.twoRecords)
                   = Some (BatchProcessor.sampleRun BatchProcessor.timerAndAssemblerRace))
    by (vm_compute; reflexivity).
  exact (proj2 (resolved_record_stays_in_its_batch "0x12345" "message"
                  BatchProcessor.sampleConfig _ _ _ _ _ _ Hrun Hin Hlater)).
Defined.

(** The timer set after the first upsert of the examples waits 50 ms. *)
Lemma dispatch_timer_is_bounded_witness :
  50 <= BatchProcessor.batchTimeoutArrivallMS BatchProcessor.sampleConfig.
Proof.
  assert (Hrun : BatchProcessor.run "0x12345" "message" BatchProcessor.sampleConfig
                   BatchProcessor.twoRecords BatchProcessor.init
                 = Some (BatchProcessor.sampleRun BatchProcessor.twoRecords))
    by (vm_compute; reflexivity).
  apply (dispatch_timer_is_bounded "0x12345" "message" BatchProcessor.sampleConfig
           BatchProcessor.twoRecords _ 50 Hrun).
  vm_compute. do 2 right. left. reflexivity.
Defined.


(** The two stored batches of the examples are closed in their order, and
    [init] has returned. *)
Lemma init_dispatches_stored_batches_in_order_witness :
  BatchProcessor.closedBatches
    (BatchProcessor.events
       (BatchProcessor.processor (BatchProcessor.sampleInit BatchProcessor.recovery)))
    = BatchProcessor.storedBatches.
Proof.
  assert (Hcall : BatchProcessor.initLoop 2000 BatchProcessor.storedBatches
                    BatchProcessor.init = Some BatchProcessor.initCall)
    by (vm_compute; reflexivity).
  assert (Hrun : BatchProcessor.initRun BatchProcessor.sampleConfig
                   BatchProcessor.recovery BatchProcessor.initCall
                 = Some (BatchProcessor.sampleInit BatchProcessor.recovery))
    by (vm_compute; reflexivity).
  apply (proj2 (init_dispatches_stored_batches_in_order BatchProcessor.sampleConfig
                  2000 BatchProcessor.storedBatches)
           BatchProcessor.recovery _ _ Hcall Hrun).
  vm_compute. reflexivity.
Defined.
